(** * super-alias: the alias resolution engine (ModuleAliasManager)

    A shallow embedding of the manager class of the package's main file:
    the JavaScript values it handles, the two containers it keeps (a plain
    object used as the alias table, a [Map] used as the bounded cache), the
    POSIX flavour of Node's [path] helpers it calls, and the methods
    [log], [getCachedResolution], [setCachedResolution],
    [isPathMatchesAlias], [resolveAlias], [validateAliasTarget],
    [reloadAliases], [addPath], [addAlias], [addAliases], [reset],
    [getStats], [setDebugMode], [watchPackageJson] with the callback it
    hands to [fs.watch], and the two functions [setupHooks] installs in
    place of [Module._nodeModulePaths] and [Module._resolveFilename], as
    state-passing functions that may throw. [init] is not part of it: it
    rests on [path.resolve], on a regular expression, on [Array.isArray]
    and on the module's own directory, none of which the values of this
    model carry.

    Conventions of the model.
    - A JavaScript string is a [string]; one character stands for one code
      unit, which is all the code relies on ([length], [indexOf], indexing,
      [substr]).
    - [Date.now()] is an argument [now] (milliseconds) of every method that
      reads the clock; one call of a method sees one value of the clock.
    - A throwing method keeps the mutations it made before it threw, as in
      JavaScript: a computation maps a state to a [result] and a state.
    - A custom alias handler is a function of its three arguments: it has no
      state of its own and does not call back into the manager.
    - The alias table is an ordinary object created as [{}]: the state holds
      its own properties and its prototype. Assigning a function to
      [__proto__] puts the function in the place of the prototype; from
      then on an assignment to a name the table does not own meets what the
      function holds or inherits under that name, and in strict mode a
      read-only property or a throwing accessor there makes the assignment
      throw. Which names a function refuses is the host's, [refused]; what
      is not refused becomes an own property of the table.
    - [require] and [require.resolve], which [reloadAliases] calls, are the
      host's loader: each asks [Module._resolveFilename], which the
      constructor has replaced by the manager's own hook, for the file
      name; what the loader returns for that file is the host's, [load].
    - Event listeners and the console are observers: what the manager emits
      is recorded in the [emitted] trace of the state. *)

From Stdlib Require Import String Ascii List ZArith NArith Lia Bool Arith DecimalString.
From Stdlib Require Import Permutation.
Import ListNotations.
Local Open Scope string_scope.
Local Open Scope list_scope.

Set Implicit Arguments.

(** ** JavaScript values *)

Inductive result (E A : Type) : Type :=
| Ok (a : A)
| Throw (e : E).

Arguments Ok {E A} a.
Arguments Throw {E A} e.

Inductive errkind : Type := PlainError | TypeError.

(** [JObj] carries the own enumerable properties in creation order (an array
    is the object whose keys are its indices); [JErr] is an [Error] object;
    [JFun] is a custom alias handler [(fromPath, request, alias) => ...],
    taken to be a function of its three arguments. *)
#[warnings="-register-all"]
Inductive jsval : Type :=
| JUndefined
| JNull
| JBool (b : bool)
| JNum (n : Z)
| JStr (s : string)
| JObj (props : list (string * jsval))
| JErr (k : errkind) (message : string)
| JFun (f : string -> string -> string -> result jsval jsval).

Definition handler : Type := string -> string -> string -> result jsval jsval.

Module Js.

(** [!v] is [negb (truthy v)]. *)
Definition truthy (v : jsval) : bool :=
  match v with
  | JUndefined | JNull => false
  | JBool b => b
  | JNum n => negb (n =? 0)%Z
  | JStr s => negb (s =? "")
  | JObj _ | JErr _ _ | JFun _ => true
  end.

Inductive jstype : Type :=
| TUndefined | TObject | TBoolean | TNumber | TString | TFunction.

Definition typeof (v : jsval) : jstype :=
  match v with
  | JUndefined => TUndefined
  | JNull | JObj _ | JErr _ _ => TObject
  | JBool _ => TBoolean
  | JNum _ => TNumber
  | JStr _ => TString
  | JFun _ => TFunction
  end.

Definition is_string (v : jsval) : bool :=
  match v with JStr _ => true | _ => false end.

Definition is_function (v : jsval) : bool :=
  match v with JFun _ => true | _ => false end.

Definition is_object (v : jsval) : bool :=
  match typeof v with TObject => true | _ => false end.

(** [v !== null] *)
Definition not_null (v : jsval) : bool :=
  match v with JNull => false | _ => true end.

(** The property key a string value denotes. *)
Definition to_key (v : jsval) : string :=
  match v with JStr s => s | _ => "" end.

(** [v === s] for a string literal [s] *)
Definition is_str (v : jsval) (s : string) : bool :=
  match v with JStr s' => s' =? s | _ => false end.

(** *** Strings *)

(** [s.substr(n)] for [0 <= n]. *)
Fixpoint substr (n : nat) (s : string) : string :=
  match n, s with
  | O, _ => s
  | S n', String _ s' => substr n' s'
  | S _, EmptyString => EmptyString
  end.

(** [hay.indexOf(needle)], searched from position [i] of the original
    string: the first position where [needle] occurs, or [-1]. *)
Fixpoint indexOf_from (i : Z) (needle hay : string) : Z :=
  if String.prefix needle hay then i
  else match hay with
       | EmptyString => (-1)%Z
       | String _ hay' => indexOf_from (i + 1)%Z needle hay'
       end.

Definition indexOf (hay needle : string) : Z := indexOf_from 0%Z needle hay.

(** [s[n]]: the one-character string at [n], or [undefined]. *)
Definition char_at (s : string) (n : nat) : jsval :=
  match String.get n s with
  | Some c => JStr (String c EmptyString)
  | None => JUndefined
  end.

(** *** Plain objects: own property keys

    [Object.keys] and [for ... in] list the array-index keys first, in
    ascending numeric order, then the other keys in creation order. *)

Definition digit_of (c : ascii) : option N :=
  let n := N_of_ascii c in
  if ((48 <=? n) && (n <=? 57))%N then Some (n - 48)%N else None.

Fixpoint parse_digits (s : string) (acc : N) : option N :=
  match s with
  | EmptyString => Some acc
  | String c s' =>
      match digit_of c with
      | Some d => parse_digits s' (10 * acc + d)%N
      | None => None
      end
  end.

(** A canonical numeric string below [2^32 - 1]. *)
Definition array_index (s : string) : option N :=
  match s with
  | EmptyString => None
  | String c rest =>
      if (c =? "0")%char then (if rest =? "" then Some 0%N else None)
      else match parse_digits s 0%N with
           | Some n => if (n <? 4294967295)%N then Some n else None
           | None => None
           end
  end.

Fixpoint insert_index (x : N * string) (l : list (N * string)) : list (N * string) :=
  match l with
  | [] => [x]
  | y :: l' => if (fst x <=? fst y)%N then x :: l else y :: insert_index x l'
  end.

Fixpoint index_keys (ks : list string) : list (N * string) :=
  match ks with
  | [] => []
  | k :: ks' =>
      match array_index k with
      | Some n => insert_index (n, k) (index_keys ks')
      | None => index_keys ks'
      end
  end.

Definition is_named (k : string) : bool :=
  match array_index k with Some _ => false | None => true end.

Definition own_keys {A} (props : list (string * A)) : list string :=
  let ks := map fst props in
  map snd (index_keys ks) ++ filter is_named ks.

(** [o[k]] on own properties. *)
Fixpoint obj_get {A} (k : string) (props : list (string * A)) : option A :=
  match props with
  | [] => None
  | (k', v) :: props' => if k' =? k then Some v else obj_get k props'
  end.

Fixpoint obj_replace {A} (k : string) (v : A) (props : list (string * A))
  : list (string * A) :=
  match props with
  | [] => []
  | (k', v') :: props' =>
      if k' =? k then (k', v) :: props' else (k', v') :: obj_replace k v props'
  end.

Definition has_own {A} (k : string) (props : list (string * A)) : bool :=
  match obj_get k props with Some _ => true | None => false end.

(** The own properties after [o[k] = v] has gone through, on an object
    created as [{}]: an existing key keeps its place and a new key goes
    last. The key [__proto__] is no property of such an object: the
    assignment reaches the setter [Object.prototype] provides, which creates
    no own property; what it does to the prototype, and when an assignment
    does not go through at all, is with the owner of the object (see
    [assign] of the manager). *)
Definition obj_set {A} (k : string) (v : A) (props : list (string * A))
  : list (string * A) :=
  if k =? "__proto__" then props
  else if has_own k props then obj_replace k v props
  else props ++ [(k, v)].

Definition cannot_read (what k : string) : jsval :=
  JErr TypeError
    ("Cannot read properties of " ++ what ++ " (reading '" ++ k ++ "')")%string.

(** Property read [v[k]] as the code uses it on configuration data and on
    caught errors: reading from [null] or [undefined] throws. *)
Definition get_prop (v : jsval) (k : string) : result jsval jsval :=
  match v with
  | JUndefined => Throw (cannot_read "undefined" k)
  | JNull => Throw (cannot_read "null" k)
  | JObj props =>
      match obj_get k props with Some x => Ok x | None => Ok JUndefined end
  | JStr s =>
      match array_index k with
      | Some n => Ok (char_at s (N.to_nat n))
      | None => Ok JUndefined
      end
  | JErr _ m => if k =? "message" then Ok (JStr m) else Ok JUndefined
  | _ => Ok JUndefined
  end.

Fixpoint string_indices (n : nat) : list string :=
  match n with
  | O => []
  | S n' => string_indices n' ++ [NilEmpty.string_of_uint (Nat.to_uint n')]
  end.

(** The keys a [for (const k in v)] loop visits. *)
Definition for_in_keys (v : jsval) : list string :=
  match v with
  | JObj props => own_keys props
  | JStr s => string_indices (String.length s)
  | _ => []
  end.

End Js.

(** ** Node's [path] module, POSIX flavour

    [normalize], [join] and [dirname] as Node implements them for [/]
    separated paths: a path is cut at the separators, the segments [""] and
    ["."] are dropped, [".."] removes the segment before it (or is kept when
    the path is relative and nothing is left to remove), a trailing separator
    is kept. Every function of the module first checks that its arguments
    are strings and throws a [TypeError] otherwise. *)

Module NodePath.

Definition slash : ascii := "/"%char.

Fixpoint split_aux (cur : list ascii) (cs : list ascii) : list (list ascii) :=
  match cs with
  | [] => [rev cur]
  | c :: cs' =>
      if (c =? slash)%char then rev cur :: split_aux [] cs'
      else split_aux (c :: cur) cs'
  end.

Definition segments (path : string) : list string :=
  map string_of_list_ascii (split_aux [] (list_ascii_of_string path)).

(** [stack] is the normalized prefix, last segment first. *)
Fixpoint normalize_segments (allowAboveRoot : bool) (segs stack : list string)
  : list string :=
  match segs with
  | [] => stack
  | seg :: segs' =>
      if (seg =? "") || (seg =? ".") then
        normalize_segments allowAboveRoot segs' stack
      else if seg =? ".." then
        match stack with
        | top :: below =>
            if top =? ".." then
              normalize_segments allowAboveRoot segs'
                (if allowAboveRoot then ".." :: stack else stack)
            else normalize_segments allowAboveRoot segs' below
        | [] =>
            normalize_segments allowAboveRoot segs'
              (if allowAboveRoot then [".."] else [])
        end
      else normalize_segments allowAboveRoot segs' (seg :: stack)
  end.

Definition normalizeString (path : string) (allowAboveRoot : bool) : string :=
  String.concat "/" (rev (normalize_segments allowAboveRoot (segments path) [])).

Definition starts_with_slash (path : string) : bool :=
  match path with String c _ => (c =? slash)%char | EmptyString => false end.

Fixpoint ends_with_slash (path : string) : bool :=
  match path with
  | EmptyString => false
  | String c EmptyString => (c =? slash)%char
  | String _ rest => ends_with_slash rest
  end.

Definition normalize_string (path : string) : string :=
  if path =? "" then "."
  else
    let isAbsolute := starts_with_slash path in
    let trailingSeparator := ends_with_slash path in
    let p := normalizeString path (negb isAbsolute) in
    if p =? "" then
      (if isAbsolute then "/" else if trailingSeparator then "./" else ".")
    else
      let p' := if trailingSeparator then (p ++ "/")%string else p in
      if isAbsolute then ("/" ++ p')%string else p'.

(** The message of Node's error goes on with a description of the value
    received; it is cut short here. *)
Definition invalid_arg : jsval :=
  JErr TypeError "The path argument must be of type string".

(** [path.normalize(v)] *)
Definition normalize (v : jsval) : result jsval string :=
  match v with
  | JStr s => Ok (normalize_string s)
  | _ => Throw invalid_arg
  end.

(** The loop of [path.join]: non-empty arguments are glued with [/]. *)
Fixpoint join_args (args : list jsval) (joined : option string)
  : result jsval (option string) :=
  match args with
  | [] => Ok joined
  | JStr arg :: args' =>
      if arg =? "" then join_args args' joined
      else join_args args'
             (Some match joined with
                   | None => arg
                   | Some j => (j ++ "/" ++ arg)%string
                   end)
  | _ :: _ => Throw invalid_arg
  end.

(** [path.join(...args)] *)
Definition join (args : list jsval) : result jsval string :=
  match join_args args None with
  | Throw e => Throw e
  | Ok None => Ok "."
  | Ok (Some joined) => Ok (normalize_string joined)
  end.

(** [path.dirname(path)] on a string: the part before the last separator
    that follows a non-separator, scanning from the end down to index 1. *)
Fixpoint drop_slashes (cs : list ascii) : list ascii :=
  match cs with
  | c :: cs' => if (c =? slash)%char then drop_slashes cs' else cs
  | [] => []
  end.

Fixpoint drop_name (cs : list ascii) : list ascii :=
  match cs with
  | c :: cs' => if (c =? slash)%char then cs else drop_name cs'
  | [] => []
  end.

Definition dirname (path : string) : string :=
  match list_ascii_of_string path with
  | [] => "."
  | c0 :: tl =>
      let hasRoot := (c0 =? slash)%char in
      match drop_name (drop_slashes (rev tl)) with
      | [] => if hasRoot then "/" else "."
      | _ :: before =>
          if hasRoot && (List.length before =? 0)%nat then "//"
          else string_of_list_ascii (c0 :: rev before)
      end
  end.

End NodePath.

(** ** [Map]: keys in insertion order

    [set] on a key already present replaces the value and keeps the key's
    place; a new key goes last. [keys().next().value] is the first key. *)

Module JsMap.
Section WithValue.
Variable V : Type.

Definition t : Type := list (string * V).

Fixpoint get (k : string) (m : t) : option V :=
  match m with
  | [] => None
  | (k', v) :: m' => if k' =? k then Some v else get k m'
  end.

Definition has (k : string) (m : t) : bool :=
  match get k m with Some _ => true | None => false end.

Fixpoint replace (k : string) (v : V) (m : t) : t :=
  match m with
  | [] => []
  | (k', v') :: m' =>
      if k' =? k then (k', v) :: m' else (k', v') :: replace k v m'
  end.

Definition set (k : string) (v : V) (m : t) : t :=
  if has k m then replace k v m else m ++ [(k, v)].

Fixpoint delete (k : string) (m : t) : t :=
  match m with
  | [] => []
  | (k', v') :: m' => if k' =? k then m' else (k', v') :: delete k m'
  end.

Definition size (m : t) : nat := List.length m.

Definition first_key (m : t) : option string :=
  match m with
  | [] => None
  | (k, _) :: _ => Some k
  end.

Definition keys (m : t) : list string := map fst m.

End WithValue.
End JsMap.

(** ** The manager's state *)

Record cache_entry : Type := { value : jsval; timestamp : Z }.

Record stats_t : Type := { resolutions : Z; cacheHits : Z; aliasMatches : Z }.

(** What the manager emits: [Log] is a line accepted by [log] (console and
    ['log'] event), the others are the events of the same name. *)
Inductive event : Type :=
| Log (level message : string) (data : list (string * jsval))
| AliasAdded (alias : string) (target : jsval)
| PathAdded (path : string)
| AliasesReloaded (aliases : list (string * jsval))
| ResetDone.

(** [moduleAliases] holds the own properties of the object of that name and
    [aliasesProto] its prototype: [None] is [Object.prototype], which the
    object has when it is created as [{}]; [Some f] is the function that an
    assignment to [__proto__] has put in its place.
    [mainPaths] is [require.main.paths] ([None] without a main module, as in
    the REPL); [parentPaths] are the [paths] arrays of [module.parent], its
    parent, and so on up to the main module. The host's [require.cache],
    which [reset] and [reloadAliases] prune, is outside the model. *)
Record state : Type := {
  modulePaths : list string;
  moduleAliases : list (string * jsval);
  aliasesProto : option handler;
  moduleAliasNames : list string;
  performanceCache : JsMap.t cache_entry;
  debugMode : bool;
  watchers : list string;
  stats : stats_t;
  mainPaths : option (list string);
  parentPaths : list (option (list string));
  emitted : list event
}.

Definition set_modulePaths (x : list string) (st : state) : state :=
  {| modulePaths := x; moduleAliases := moduleAliases st;
     aliasesProto := aliasesProto st;
     moduleAliasNames := moduleAliasNames st;
     performanceCache := performanceCache st; debugMode := debugMode st;
     watchers := watchers st; stats := stats st; mainPaths := mainPaths st;
     parentPaths := parentPaths st; emitted := emitted st |}.

Definition set_moduleAliases (x : list (string * jsval)) (st : state) : state :=
  {| modulePaths := modulePaths st; moduleAliases := x;
     aliasesProto := aliasesProto st;
     moduleAliasNames := moduleAliasNames st;
     performanceCache := performanceCache st; debugMode := debugMode st;
     watchers := watchers st; stats := stats st; mainPaths := mainPaths st;
     parentPaths := parentPaths st; emitted := emitted st |}.

Definition set_aliasesProto (x : option handler) (st : state) : state :=
  {| modulePaths := modulePaths st; moduleAliases := moduleAliases st;
     aliasesProto := x;
     moduleAliasNames := moduleAliasNames st;
     performanceCache := performanceCache st; debugMode := debugMode st;
     watchers := watchers st; stats := stats st; mainPaths := mainPaths st;
     parentPaths := parentPaths st; emitted := emitted st |}.

Definition set_moduleAliasNames (x : list string) (st : state) : state :=
  {| modulePaths := modulePaths st; moduleAliases := moduleAliases st;
     aliasesProto := aliasesProto st;
     moduleAliasNames := x;
     performanceCache := performanceCache st; debugMode := debugMode st;
     watchers := watchers st; stats := stats st; mainPaths := mainPaths st;
     parentPaths := parentPaths st; emitted := emitted st |}.

Definition set_performanceCache (x : JsMap.t cache_entry) (st : state) : state :=
  {| modulePaths := modulePaths st; moduleAliases := moduleAliases st;
     aliasesProto := aliasesProto st;
     moduleAliasNames := moduleAliasNames st;
     performanceCache := x; debugMode := debugMode st;
     watchers := watchers st; stats := stats st; mainPaths := mainPaths st;
     parentPaths := parentPaths st; emitted := emitted st |}.

Definition set_watchers (x : list string) (st : state) : state :=
  {| modulePaths := modulePaths st; moduleAliases := moduleAliases st;
     aliasesProto := aliasesProto st;
     moduleAliasNames := moduleAliasNames st;
     performanceCache := performanceCache st; debugMode := debugMode st;
     watchers := x; stats := stats st; mainPaths := mainPaths st;
     parentPaths := parentPaths st; emitted := emitted st |}.

Definition set_stats (x : stats_t) (st : state) : state :=
  {| modulePaths := modulePaths st; moduleAliases := moduleAliases st;
     aliasesProto := aliasesProto st;
     moduleAliasNames := moduleAliasNames st;
     performanceCache := performanceCache st; debugMode := debugMode st;
     watchers := watchers st; stats := x; mainPaths := mainPaths st;
     parentPaths := parentPaths st; emitted := emitted st |}.

Definition set_hostPaths (m : option (list string))
  (ps : list (option (list string))) (st : state) : state :=
  {| modulePaths := modulePaths st; moduleAliases := moduleAliases st;
     aliasesProto := aliasesProto st;
     moduleAliasNames := moduleAliasNames st;
     performanceCache := performanceCache st; debugMode := debugMode st;
     watchers := watchers st; stats := stats st; mainPaths := m;
     parentPaths := ps; emitted := emitted st |}.

Definition push_event (e : event) (st : state) : state :=
  {| modulePaths := modulePaths st; moduleAliases := moduleAliases st;
     aliasesProto := aliasesProto st;
     moduleAliasNames := moduleAliasNames st;
     performanceCache := performanceCache st; debugMode := debugMode st;
     watchers := watchers st; stats := stats st; mainPaths := mainPaths st;
     parentPaths := parentPaths st; emitted := emitted st ++ [e] |}.

Definition zero_stats : stats_t :=
  {| resolutions := 0; cacheHits := 0; aliasMatches := 0 |}.

(** The state the constructor builds, given the debug flag read from the
    environment and the host's search roots. *)
Definition initial (debug : bool) (main : option (list string))
  (parents : list (option (list string))) : state :=
  {| modulePaths := []; moduleAliases := []; aliasesProto := None;
     moduleAliasNames := [];
     performanceCache := []; debugMode := debug; watchers := [];
     stats := zero_stats; mainPaths := main; parentPaths := parents;
     emitted := [] |}.

(** ** Computations that mutate the manager and may throw *)

Definition M (A : Type) : Type := state -> result jsval A * state.

Definition ret {A} (a : A) : M A := fun st => (Ok a, st).

Definition bind {A B} (m : M A) (k : A -> M B) : M B :=
  fun st =>
    match m st with
    | (Ok a, st') => k a st'
    | (Throw e, st') => (Throw e, st')
    end.

Definition throw {A} (e : jsval) : M A := fun st => (Throw e, st).

Definition lift {A} (r : result jsval A) : M A := fun st => (r, st).

Definition modify (f : state -> state) : M unit := fun st => (Ok tt, f st).

Definition gets {A} (f : state -> A) : M A := fun st => (Ok (f st), st).

(** [try { m } catch (error) { h error }] *)
Definition try_catch {A} (m : M A) (h : jsval -> M A) : M A :=
  fun st =>
    match m st with
    | (Ok a, st') => (Ok a, st')
    | (Throw e, st') => h e st'
    end.

Definition when (b : bool) (m : M unit) : M unit := if b then m else ret tt.

Declare Scope js_scope.
Delimit Scope js_scope with js.
Notation "x <- m ;; k" := (bind m (fun x => k))
  (at level 61, m at next level, right associativity) : js_scope.
Notation "m ;; k" := (bind m (fun _ => k))
  (at level 61, right associativity) : js_scope.
Local Open Scope js_scope.

(** [for (const x of xs) body x] *)
Fixpoint for_each {A} (xs : list A) (body : A -> M unit) : M unit :=
  match xs with
  | [] => ret tt
  | x :: xs' => body x ;; for_each xs' body
  end.

(** ** The methods of [ModuleAliasManager] *)

Section Manager.

(** The host: [fs.existsSync] and [process.cwd()]. *)
Variable existsSync : string -> bool.
Variable cwd : string.

(** The host's function objects. Once a handler [f] is the prototype of the
    alias table, assigning a name the table does not own meets what [f]
    holds or inherits under that name: the own [name] and [length] of a
    function are read-only and the accessors [caller] and [arguments] of
    [Function.prototype] throw, and in strict mode each makes the assignment
    throw a [TypeError]. [refused f k] is the message of that [TypeError]
    when [f] refuses the name [k], and [None] when nothing stands in the
    way. *)
Variable refused : handler -> string -> option string.

Definition log (level message : string) (data : list (string * jsval)) : M unit :=
  modify (fun st =>
    if negb (debugMode st) && negb (level =? "error") then st
    else push_event (Log level message data) st).

Definition emit (e : event) : M unit := modify (push_event e).

Definition bump_cacheHits (st : state) : state :=
  set_stats {| resolutions := resolutions (stats st);
               cacheHits := cacheHits (stats st) + 1;
               aliasMatches := aliasMatches (stats st) |} st.

Definition bump_resolutions (st : state) : state :=
  set_stats {| resolutions := resolutions (stats st) + 1;
               cacheHits := cacheHits (stats st);
               aliasMatches := aliasMatches (stats st) |} st.

Definition bump_aliasMatches (st : state) : state :=
  set_stats {| resolutions := resolutions (stats st);
               cacheHits := cacheHits (stats st);
               aliasMatches := aliasMatches (stats st) + 1 |} st.

(** [null] is [JNull]. *)
Definition getCachedResolution (now : Z) (key : string) : M jsval :=
  fun st =>
    match JsMap.get key (performanceCache st) with
    | Some cached =>
        if (now - timestamp cached <? 5000)%Z
        then (Ok (value cached), bump_cacheHits st)
        else (Ok JNull, st)
    | None => (Ok JNull, st)
    end.

Definition cache_put (now : Z) (key : string) (v : jsval)
  (cache : JsMap.t cache_entry) : JsMap.t cache_entry :=
  let cache' := JsMap.set key {| value := v; timestamp := now |} cache in
  if (1000 <? JsMap.size cache')%nat then
    match JsMap.first_key cache' with
    | Some firstKey => JsMap.delete firstKey cache'
    | None => cache'
    end
  else cache'.

Definition setCachedResolution (now : Z) (key : string) (v : jsval) : M unit :=
  modify (fun st =>
    set_performanceCache (cache_put now key v (performanceCache st)) st).

(** The body of [isPathMatchesAlias] between the cache lookup and the
    cache store. *)
Definition matches (path alias : string) : bool :=
  if (Js.indexOf path alias =? 0)%Z then
    if (String.length path =? String.length alias)%nat then true
    else if Js.is_str (Js.char_at path (String.length alias)) "/"
            || Js.is_str (Js.char_at path (String.length alias)) "\"
    then true
    else false
  else false.

Definition match_key (path alias : string) : string :=
  (path ++ ":" ++ alias)%string.

Definition isPathMatchesAlias (now : Z) (path alias : string) : M jsval :=
  let cacheKey := match_key path alias in
  cached <- getCachedResolution now cacheKey ;;
  if Js.not_null cached then ret cached
  else
    let m := matches path alias in
    setCachedResolution now cacheKey (JBool m) ;;
    ret (JBool m).

Definition validateAliasTarget (target : jsval) : bool :=
  match target with
  | JStr s => if s =? "" then false else existsSync s
  | _ => false
  end.

(** [(parentModule && parentModule.filename) || dflt]; the argument is the
    file name of the requiring module when there is one. *)
Definition filename_or (parentModule : option string) (dflt : string) : string :=
  match parentModule with
  | Some f => if f =? "" then dflt else f
  | None => dflt
  end.

Definition resolve_key (request : string) (parentModule : option string) : string :=
  ("resolve:" ++ request ++ ":" ++ filename_or parentModule "unknown")%string.

Definition handler_error (alias : string) : jsval :=
  JErr PlainError
    ("Custom handler function for alias '" ++ alias
       ++ "' must return a valid path string")%string.

(** The custom-handler branch of [resolveAlias], with its [try]/[catch]. *)
Definition call_handler (f : handler) (request : string)
  (parentModule : option string) (alias : string) : M jsval :=
  let fromPath := filename_or parentModule cwd in
  try_catch
    (aliasTarget <- lift (f fromPath request alias) ;;
     if negb (Js.truthy aliasTarget) || negb (Js.is_string aliasTarget)
     then throw (handler_error alias)
     else ret aliasTarget)
    (fun error =>
       msg <- lift (Js.get_prop error "message") ;;
       log "error" "Custom alias resolver failed"
         [("alias", JStr alias); ("error", msg)] ;;
       throw error).

(** The body of the [if] inside the loop of [resolveAlias], up to [break]:
    it yields the new [resolvedRequest]. *)
Definition resolve_with (request : string) (parentModule : option string)
  (alias : string) : M jsval :=
  modify bump_aliasMatches ;;
  aliases <- gets moduleAliases ;;
  let aliasTarget0 :=
    match Js.obj_get alias aliases with Some v => v | None => JUndefined end in
  aliasTarget <-
    match aliasTarget0 with
    | JFun f => call_handler f request parentModule alias
    | _ => ret aliasTarget0
    end ;;
  when (negb (validateAliasTarget aliasTarget))
    (log "warn" "Alias target does not exist"
       [("alias", JStr alias); ("target", aliasTarget)]) ;;
  resolvedRequest <-
    lift (NodePath.join
            [aliasTarget; JStr (Js.substr (String.length alias) request)]) ;;
  log "debug" "Alias resolved"
    [("original", JStr request); ("alias", JStr alias);
     ("target", aliasTarget); ("resolved", JStr resolvedRequest)] ;;
  ret (JStr resolvedRequest).

(** [for (const alias of sortedAliases) { if (...) { ...; break } }] *)
Fixpoint resolve_loop (now : Z) (request : string) (parentModule : option string)
  (sortedAliases : list string) : M jsval :=
  match sortedAliases with
  | [] => ret (JStr request)
  | alias :: rest =>
      m <- isPathMatchesAlias now request alias ;;
      if Js.truthy m then resolve_with request parentModule alias
      else resolve_loop now request parentModule rest
  end.

(** [names.slice().sort((a, b) => b.length - a.length)]: the sort is
    stable, longer names first. *)
Fixpoint insert_by_length (a : string) (l : list string) : list string :=
  match l with
  | [] => [a]
  | b :: l' =>
      if (String.length a <? String.length b)%nat
      then b :: insert_by_length a l'
      else a :: l
  end.

Fixpoint sort_by_length (l : list string) : list string :=
  match l with
  | [] => []
  | a :: l' => insert_by_length a (sort_by_length l')
  end.

Definition resolveAlias (now : Z) (request : string)
  (parentModule : option string) : M jsval :=
  modify bump_resolutions ;;
  let cacheKey := resolve_key request parentModule in
  cached <- getCachedResolution now cacheKey ;;
  if Js.not_null cached then ret cached
  else
    names <- gets moduleAliasNames ;;
    let sortedAliases := sort_by_length names in
    resolvedRequest <- resolve_loop now request parentModule sortedAliases ;;
    setCachedResolution now cacheKey resolvedRequest ;;
    ret resolvedRequest.

(** [resolveAsync] settles a promise with the outcome of [resolveAlias]:
    fulfilled on [Ok], rejected on [Throw]. *)
Definition resolveAsync := resolveAlias.

(** *** Search paths *)

Definition includes (x : string) (l : list string) : bool :=
  existsb (String.eqb x) l.

Definition addPathHelper (path : string) (targetArray : option (list string))
  : option (list string) :=
  let path := NodePath.normalize_string path in
  match targetArray with
  | Some arr => if includes path arr then Some arr else Some (path :: arr)
  | None => None
  end.

(** [splice(indexOf(path), 1)] *)
Fixpoint remove_first (x : string) (l : list string) : list string :=
  match l with
  | [] => []
  | y :: l' => if y =? x then l' else y :: remove_first x l'
  end.

Definition removePathHelper (path : string) (targetArray : option (list string))
  : option (list string) :=
  option_map (remove_first path) targetArray.

Definition addPath (path : jsval) : M unit :=
  path <- lift (NodePath.normalize path) ;;
  (if negb (Js.truthy (JStr path)) || negb (Js.is_string (JStr path))
   then throw (JErr TypeError "Path must be a non-empty string")
   else ret tt) ;;
  when (negb (existsSync path))
    (log "warn" "Adding non-existent path" [("path", JStr path)]) ;;
  paths <- gets modulePaths ;;
  when (negb (includes path paths))
    (modify (fun st => set_modulePaths (modulePaths st ++ [path]) st) ;;
     log "debug" "Path added" [("path", JStr path)] ;;
     modify (fun st =>
       set_hostPaths (addPathHelper path (mainPaths st))
                     (map (addPathHelper path) (parentPaths st)) st) ;;
     emit (PathAdded path)).

(** *** The alias table *)

(** [this.moduleAliases[alias] = target] in strict mode, for a target that
    is a string or a function, which is all [addAlias] lets through.

    [__proto__] names the accessor the table inherits from
    [Object.prototype]: its setter puts a function in the place of the
    table's prototype, ignores a string, and creates no own property. A name
    the table owns is overwritten. Any other name becomes a new own
    property, unless the prototype refuses it: [Object.prototype] refuses
    nothing, a function does what [refused] says. A refused assignment
    throws and changes nothing. *)
Definition assign_refused (alias : string) (st : state) : option string :=
  if alias =? "__proto__" then None
  else if Js.has_own alias (moduleAliases st) then None
  else match aliasesProto st with
       | Some f => refused f alias
       | None => None
       end.

Definition proto_after (alias : string) (target : jsval) (proto : option handler)
  : option handler :=
  if alias =? "__proto__" then
    match target with
    | JFun f => Some f
    | _ => proto
    end
  else proto.

Definition assigned (alias : string) (target : jsval) (st : state) : state :=
  set_aliasesProto (proto_after alias target (aliasesProto st))
    (set_moduleAliases (Js.obj_set alias target (moduleAliases st)) st).

Definition assign (alias : string) (target : jsval) : M unit :=
  fun st =>
    match assign_refused alias st with
    | Some message => (Throw (JErr TypeError message), st)
    | None => (Ok tt, assigned alias target st)
    end.

Definition addAlias (alias target : jsval) : M unit :=
  if negb (Js.truthy alias) || negb (Js.is_string alias) then
    throw (JErr TypeError "Alias must be a non-empty string")
  else if negb (Js.truthy target)
          || (negb (Js.is_string target) && negb (Js.is_function target))
  then throw (JErr TypeError "Target must be a non-empty string or function")
  else
    target <-
      (if Js.is_string target
       then t <- lift (NodePath.normalize target) ;; ret (JStr t)
       else ret target) ;;
    assign (Js.to_key alias) target ;;
    modify (fun st =>
      set_moduleAliasNames (Js.own_keys (moduleAliases st)) st) ;;
    modify (set_performanceCache []) ;;
    log "debug" "Alias added" [("alias", alias); ("target", target)] ;;
    emit (AliasAdded (Js.to_key alias) target).

Definition addAliases (aliases : jsval) : M unit :=
  if negb (Js.truthy aliases) || negb (Js.is_object aliases) then
    throw (JErr TypeError "Aliases must be an object")
  else
    for_each (Js.for_in_keys aliases) (fun alias =>
      target <- lift (Js.get_prop aliases alias) ;;
      addAlias (JStr alias) target).

(** [this.moduleAliases = {}]: a new object, with the prototype every object
    literal has. *)
Definition fresh_aliases (st : state) : state :=
  set_aliasesProto None (set_moduleAliases [] st).

(** *** Hot reload *)

(** The body of the [for ... in] loop of [reloadAliases]. *)
Definition reload_entry (base : string) (aliases : jsval) (alias : string) : M unit :=
  target <- lift (Js.get_prop aliases alias) ;;
  first <- lift (Js.get_prop target "0") ;;
  target <-
    (if negb (Js.is_str first "/")
     then t <- lift (NodePath.join [JStr base; target]) ;; ret (JStr t)
     else ret target) ;;
  addAlias (JStr alias) target.

(** *** Reset and statistics *)

Definition reset : M unit :=
  log "debug" "Resetting module alias manager" [] ;;
  paths <- gets modulePaths ;;
  for_each paths (fun path =>
    modify (fun st =>
      set_hostPaths (removePathHelper path (mainPaths st))
                    (map (removePathHelper path) (parentPaths st)) st)) ;;
  modify (set_watchers []) ;;
  modify (set_modulePaths []) ;;
  modify fresh_aliases ;;
  modify (set_moduleAliasNames []) ;;
  modify (set_performanceCache []) ;;
  modify (set_stats zero_stats) ;;
  emit ResetDone ;;
  log "info" "Module alias manager reset complete" [].

Record performance_stats : Type := {
  ps_resolutions : Z;
  ps_cacheHits : Z;
  ps_aliasMatches : Z;
  ps_cacheSize : Z;
  ps_aliasCount : Z;
  ps_pathCount : Z
}.

Definition getStats (st : state) : performance_stats :=
  {| ps_resolutions := resolutions (stats st);
     ps_cacheHits := cacheHits (stats st);
     ps_aliasMatches := aliasMatches (stats st);
     ps_cacheSize := Z.of_nat (JsMap.size (performanceCache st));
     ps_aliasCount := Z.of_nat (List.length (moduleAliasNames st));
     ps_pathCount := Z.of_nat (List.length (modulePaths st)) |}.

End Manager.

(** ** The other methods: debug switch, file watcher, loader hooks, reload *)

Definition set_debugMode (x : bool) (st : state) : state :=
  {| modulePaths := modulePaths st; moduleAliases := moduleAliases st;
     aliasesProto := aliasesProto st;
     moduleAliasNames := moduleAliasNames st;
     performanceCache := performanceCache st; debugMode := x;
     watchers := watchers st; stats := stats st; mainPaths := mainPaths st;
     parentPaths := parentPaths st; emitted := emitted st |}.

(** [enabled] is the truthiness of the argument, which is all the manager
    ever asks of [debugMode]. *)
Definition setDebugMode (enabled : bool) : M unit :=
  modify (set_debugMode enabled) ;;
  log "info"
    ("Debug mode " ++ (if enabled then "enabled" else "disabled"))%string [].

(** [watch] is what [fs.watch(packageJsonPath, callback)] does: it returns a
    watcher or throws an [Error] with the given message. The [watchers] map
    is kept as the list of its keys. *)
Definition watchPackageJson (packageJsonPath : string) (watch : result string unit)
  : M unit :=
  ws <- gets watchers ;;
  if includes packageJsonPath ws then ret tt
  else
    try_catch
      (match watch with
       | Ok _ => ret tt
       | Throw msg => throw (JErr PlainError msg)
       end ;;
       modify (fun st => set_watchers (watchers st ++ [packageJsonPath]) st) ;;
       log "debug" "Watching package.json for changes"
         [("path", JStr packageJsonPath)])
      (fun error =>
         msg <- lift (Js.get_prop error "message") ;;
         log "error" "Failed to watch package.json"
           [("path", JStr packageJsonPath); ("error", msg)]).

Section Hooks.

(** The host: as before, the two functions of [Module] that [setupHooks]
    saves and wraps, and the file name of the manager's own module, which is
    the parent of every [require] the manager makes. *)
Variable existsSync : string -> bool.
Variable cwd : string.
Variable refused : handler -> string -> option string.
Variable oldNodeModulePaths : string -> list string.
Variable oldResolveFilename :
  jsval -> option string -> jsval -> jsval -> result jsval string.
Variable moduleFilename : string.

(** The replacement of [Module._nodeModulePaths]. *)
Definition nodeModulePaths (from : string) (st : state) : list string :=
  let paths := oldNodeModulePaths from in
  if (Js.indexOf from "node_modules" =? -1)%Z then modulePaths st ++ paths
  else paths.

(** The replacement of [Module._resolveFilename]. *)
Definition resolveFilename (now : Z) (request : string)
  (parentModule : option string) (isMain options : jsval) : M string :=
  try_catch
    (resolvedRequest <- resolveAlias existsSync cwd now request parentModule ;;
     lift (oldResolveFilename resolvedRequest parentModule isMain options))
    (fun error =>
       msg <- lift (Js.get_prop error "message") ;;
       log "error" "Module resolution failed"
         [("request", JStr request);
          ("parent", match parentModule with Some f => JStr f | None => JUndefined end);
          ("error", msg)] ;;
       throw error).

(** *** Hot reload *)

(** [require.resolve(request)] and [require(id)] as the manager's module
    calls them on the path of a file. Both ask [Module._resolveFilename] for
    the file name, and that is the manager's own hook above, called with
    the manager's module as parent, [false] for [isMain] and no options: the
    request goes through [resolveAlias] like any other. [require.cache],
    from which [reloadAliases] deletes the resolved file, is the host's.
    [load] is what the loader then returns for the resolved file name: what
    the file exports, which for a [.json] file is its parsed content, or an
    [Error] with the given message when the file cannot be read or
    parsed. The loader remembers the file a parent last got for a request
    and skips the resolution while that file is still in [require.cache];
    here the file is the one [reloadAliases] has just deleted from it, so
    the resolution is made again. *)
Definition require_resolve (now : Z) (request : string) : M string :=
  resolveFilename now request (Some moduleFilename) (JBool false) JUndefined.

Definition require (now : Z) (id : string) (load : string -> result string jsval)
  : M jsval :=
  if id =? "" then
    throw (JErr TypeError
             "The argument 'id' must be a non-empty string. Received ''")
  else
    filename <- resolveFilename now id (Some moduleFilename) (JBool false) JUndefined ;;
    match load filename with
    | Ok exports => ret exports
    | Throw message => throw (JErr PlainError message)
    end.

Definition reloadAliases (now : Z) (packageJsonPath : string)
  (load : string -> result string jsval) : M unit :=
  try_catch
    (require_resolve now packageJsonPath ;;
     packageJson <- require now packageJsonPath load ;;
     let base := NodePath.dirname packageJsonPath in
     modify fresh_aliases ;;
     modify (set_moduleAliasNames []) ;;
     modify (set_performanceCache []) ;;
     declared <- lift (Js.get_prop packageJson "_moduleAliases") ;;
     let aliases := if Js.truthy declared then declared else JObj [] in
     for_each (Js.for_in_keys aliases) (reload_entry refused base aliases) ;;
     table <- gets moduleAliases ;;
     emit (AliasesReloaded table) ;;
     names <- gets moduleAliasNames ;;
     log "info" "Aliases reloaded successfully"
       [("count", JNum (Z.of_nat (List.length names)))])
    (fun error =>
       msg <- lift (Js.get_prop error "message") ;;
       log "error" "Failed to reload aliases" [("error", msg)]).

(** The callback [watchPackageJson] hands to [fs.watch]; [now] and [load]
    are the clock and the loader at the moment of the event. *)
Definition on_watch_event (now : Z) (packageJsonPath eventType : string)
  (load : string -> result string jsval) : M unit :=
  if eventType =? "change" then
    log "info" "package.json changed, reloading aliases"
      [("path", JStr packageJsonPath)] ;;
    reloadAliases now packageJsonPath load
  else ret tt.

End Hooks.

(** ** Notions used in the statements *)

(** A path separator, as [isPathMatchesAlias] tests it. *)
Definition is_separator (c : ascii) : bool :=
  ((c =? "/")%char || (c =? "\")%char)%bool.

(** An entry is live at [now] while it is younger than the 5 s of
    [getCachedResolution]. *)
Definition live (now : Z) (e : cache_entry) : Prop :=
  (now - timestamp e < 5000)%Z.

(** The store respects the bound of [setCachedResolution]. *)
Definition cache_bounded (st : state) : Prop :=
  (JsMap.size (performanceCache st) <= 1000)%nat.

(** The table registers [name] with [target]. *)
Definition has_alias (st : state) (name : string) (target : jsval) : Prop :=
  In name (moduleAliasNames st) /\
  Js.obj_get name (moduleAliases st) = Some target.

(** [alias] is a registered alias matching [request], and no registered
    alias matching [request] is longer. *)
Definition longest_match (st : state) (request alias : string) : Prop :=
  In alias (moduleAliasNames st) /\
  matches request alias = true /\
  forall a, In a (moduleAliasNames st) -> matches request a = true ->
            (String.length a <= String.length alias)%nat.

(** The resolution of [request] is computed, not served from the cache:
    no live entry sits under its resolve key, and a live entry under one of
    its match keys holds the match computed for that alias. This is the
    state of the cache right after any change of the table, which empties
    it. *)
Definition fresh_for (now : Z) (request : string) (parentModule : option string)
  (st : state) : Prop :=
  (forall e, JsMap.get (resolve_key request parentModule) (performanceCache st) = Some e ->
             ~ live now e) /\
  (forall alias e, In alias (moduleAliasNames st) ->
                   In (match_key request alias, e) (performanceCache st) ->
                   live now e -> value e = JBool (matches request alias)).

(** What the methods that only read the table leave alone. *)
Definition same_table (st st' : state) : Prop :=
  moduleAliases st' = moduleAliases st /\
  moduleAliasNames st' = moduleAliasNames st /\
  modulePaths st' = modulePaths st /\
  debugMode st' = debugMode st /\
  (cache_bounded st -> cache_bounded st').

(** Entries of the later cache are entries of the earlier one or matches
    computed for [request] at [now]. *)
Definition cache_grows (now : Z) (request : string) (st st' : state) : Prop :=
  forall k e, In (k, e) (performanceCache st') ->
    In (k, e) (performanceCache st) \/
    exists alias, k = match_key request alias /\
                  e = {| value := JBool (matches request alias); timestamp := now |}.

(** A computation keeps a relation between the state it starts from and the
    state it ends in, whatever its outcome. *)
Definition preserves {A} (R : state -> state -> Prop) (m : M A) : Prop :=
  forall st r st', m st = (r, st') -> R st st'.

(** [nodePath.join(target, rest)] on two strings, which cannot throw. *)
Definition join_strings (target rest : string) : string :=
  match NodePath.join_args [JStr target; JStr rest] None with
  | Ok (Some joined) => NodePath.normalize_string joined
  | _ => "."
  end.

(** Longer names first. *)
Fixpoint longest_first (l : list string) : Prop :=
  match l with
  | [] => True
  | a :: l' =>
      (forall b, In b l' -> (String.length b <= String.length a)%nat)
      /\ longest_first l'
  end.

(** The prefixes of a string, shortest first. *)
Fixpoint prefixes (s : string) : list string :=
  EmptyString ::
  match s with
  | EmptyString => []
  | String c s' => map (String c) (prefixes s')
  end.

(** The error's message contains the alias name. *)
Definition error_names (e : jsval) (alias : string) : bool :=
  match e with
  | JErr _ message => (0 <=? Js.indexOf message alias)%Z
  | _ => false
  end.

(** ** States and hosts used in the concrete runs *)

Definition exec {A} (m : M A) (st : state) : state := snd (m st).

Definition outcome {A} (m : M A) (st : state) : result jsval A := fst (m st).

(** A host on which every path exists, started in [/work]. *)
Definition all_exist : string -> bool := fun _ => true.
Definition work : string := "/work".

Definition start : state := initial false (Some []) [].

(** What a function written as an arrow or a [function] expression refuses
    as prototype: its [name] and [length], and the [caller] and [arguments]
    it inherits. *)
Definition function_refusals : handler -> string -> option string :=
  fun _ k =>
    if (k =? "name") || (k =? "length") then
      Some ("Cannot assign to read only property '" ++ k
              ++ "' of object '#<Object>'")%string
    else if (k =? "caller") || (k =? "arguments") then
      Some ("'caller', 'callee', and 'arguments' properties may not be "
              ++ "accessed on strict mode functions or the arguments "
              ++ "objects for calls to them")%string
    else None.

(** The file of the manager's own module. *)
Definition own_module : string := "/work/node_modules/super-alias/index.js".

(** [addAlias('@a', '/x'); addAlias('@a/b', '/y')] *)
Definition table_ab : state :=
  exec (addAlias function_refusals (JStr "@a/b") (JStr "/y"))
    (exec (addAlias function_refusals (JStr "@a") (JStr "/x")) start).

(** ... followed by [addAlias('@a/b/c', '/q')] *)
Definition table_abc : state :=
  exec (addAlias function_refusals (JStr "@a/b/c") (JStr "/q")) table_ab.

Definition failing_handler : handler :=
  fun _ _ _ => Throw (JErr PlainError "boom").

Definition fixed_handler : handler :=
  fun _ _ _ => Ok (JStr "/y").

(** [addAlias('@a', '/x'); addAlias('@a/b', handler)] *)
Definition table_with (h : handler) : state :=
  exec (addAlias function_refusals (JStr "@a/b") (JFun h))
    (exec (addAlias function_refusals (JStr "@a") (JStr "/x")) start).

(** ** What [addAlias] accepts and what it leaves *)

Definition valid_alias (alias : jsval) : bool :=
  Js.truthy alias && Js.is_string alias.

Definition valid_target (target : jsval) : bool :=
  Js.truthy target && (Js.is_string target || Js.is_function target).

Definition normalized (target : jsval) : jsval :=
  match target with
  | JStr s => JStr (NodePath.normalize_string s)
  | _ => target
  end.

(** The assignment of [addAlias(name, ...)] goes through in [st]. *)
Definition assignable (refused : handler -> string -> option string)
  (st : state) (name : string) : Prop :=
  assign_refused refused name st = None.

(** The state after a successful [addAlias(name, target)]. *)
Definition registered (name : string) (target : jsval) (st : state) : state :=
  let st1 := assigned name (normalized target) st in
  let st2 := set_moduleAliasNames (Js.own_keys (moduleAliases st1)) st1 in
  let st3 := set_performanceCache [] st2 in
  exec (emit (AliasAdded name (normalized target)))
    (exec (log "debug" "Alias added"
             [("alias", JStr name); ("target", normalized target)]) st3).

(** [aliases[k]] for an object given by its own properties. *)
Definition target_of (props : list (string * jsval)) (k : string) : jsval :=
  match Js.obj_get k props with Some v => v | None => JUndefined end.

Definition valid_entry (props : list (string * jsval)) (k : string) : bool :=
  valid_alias (JStr k) && valid_target (target_of props k).

(** The entries under [ks] registered one after the other. *)
Definition register_keys (props : list (string * jsval)) (ks : list string)
  (st : state) : state :=
  fold_left (fun s k => registered k (target_of props k) s) ks st.

(** No assignment is refused while the entries under [ks] are registered
    one after the other, starting in [st]. *)
Fixpoint unrefused (refused : handler -> string -> option string)
  (props : list (string * jsval)) (ks : list string) (st : state) : Prop :=
  match ks with
  | [] => True
  | k :: ks' =>
      assignable refused st k /\
      unrefused refused props ks' (registered k (target_of props k) st)
  end.

(** The pair under [k] puts no function in the place of the prototype. *)
Definition keeps_prototype (props : list (string * jsval)) (k : string) : Prop :=
  k = "__proto__" -> Js.is_function (target_of props k) = false.

(** ** Notions for the reload *)

Definition is_error (e : jsval) : Prop := exists k m, e = JErr k m.

(** Whatever a computation throws is an [Error] object. *)
Definition throws_errors {A} (m : M A) : Prop :=
  forall st e st', m st = (Throw e, st') -> is_error e.

(** The table, the names and the cache emptied, as [reloadAliases] does once
    its source is read. *)
Definition cleared (st : state) : state :=
  set_performanceCache [] (set_moduleAliasNames [] (fresh_aliases st)).

(** A thrown value whose [message] can be read: any value but [null] and
    [undefined]. *)
Definition readable (e : jsval) : Prop :=
  exists m, Js.get_prop e "message" = Ok m.

(** Whatever a computation throws has a [message] that can be read. *)
Definition throws_readable {A} (m : M A) : Prop :=
  forall st e st', m st = (Throw e, st') -> readable e.

(** The alias table, its prototype and the alias names are those from
    before. *)
Definition table_untouched (st st' : state) : Prop :=
  moduleAliases st' = moduleAliases st /\
  aliasesProto st' = aliasesProto st /\
  moduleAliasNames st' = moduleAliasNames st.

(** The first two lines of [reloadAliases]: the package file is resolved,
    to be deleted from the host's cache, and then required. *)
Definition read_package (existsSync : string -> bool) (cwd : string)
  (oldResolveFilename :
     jsval -> option string -> jsval -> jsval -> result jsval string)
  (moduleFilename : string) (now : Z) (packageJsonPath : string)
  (load : string -> result string jsval) : M jsval :=
  require_resolve existsSync cwd oldResolveFilename moduleFilename now
    packageJsonPath ;;
  require existsSync cwd oldResolveFilename moduleFilename now packageJsonPath load.

(** What is left of [reloadAliases] once the package file is read and the
    table, the names and the cache are emptied. *)
Definition register_package (refused : handler -> string -> option string)
  (packageJsonPath : string) (packageJson : jsval) : M unit :=
  try_catch
    (let base := NodePath.dirname packageJsonPath in
     declared <- lift (Js.get_prop packageJson "_moduleAliases") ;;
     let aliases := if Js.truthy declared then declared else JObj [] in
     for_each (Js.for_in_keys aliases) (reload_entry refused base aliases) ;;
     table <- gets moduleAliases ;;
     emit (AliasesReloaded table) ;;
     names <- gets moduleAliasNames ;;
     log "info" "Aliases reloaded successfully"
       [("count", JNum (Z.of_nat (List.length names)))])
    (fun error =>
       msg <- lift (Js.get_prop error "message") ;;
       log "error" "Failed to reload aliases" [("error", msg)]).

(** The object whose entries a reload registers:
    [packageJson._moduleAliases || {}]. *)
Definition declared_aliases (pkg : jsval) : result jsval jsval :=
  match Js.get_prop pkg "_moduleAliases" with
  | Ok declared => Ok (if Js.truthy declared then declared else JObj [])
  | Throw e => Throw e
  end.

(** An empty cache stays empty. *)
Definition keeps_cache_empty (st st' : state) : Prop :=
  performanceCache st = [] -> performanceCache st' = [].

(** Nothing happened, or the cache was emptied. *)
Definition untouched_or_invalidated (st st' : state) : Prop :=
  st' = st \/ performanceCache st' = [].

(** A mapping whose second pair has an empty target. *)
Definition half_valid : list (string * jsval) :=
  [("@a", JStr "/x"); ("@b", JStr "")].

(** A package file whose second alias has no usable target. *)
Definition broken_package : jsval :=
  JObj [("_moduleAliases", JObj [("@new", JStr "lib"); ("@bad", JNull)])].

(** ** Runs that fill the cache *)

(** A thousand distinct requests, [m1] ... [m1000]. *)
Definition filler (n : nat) : string :=
  ("m" ++ NilEmpty.string_of_uint (Nat.to_uint n))%string.



(** A sequence of puts, each with its time, key and value. *)
Definition put_all (puts : list (Z * string * jsval)) (st : state) : state :=
  fold_left
    (fun s p => exec (setCachedResolution (fst (fst p)) (snd (fst p)) (snd p)) s)
    puts st.

Definition put_key (p : Z * string * jsval) : string := snd (fst p).

(** 1001 puts with distinct keys: [m0] first, then [m1] ... [m1000]. *)
Definition first_put : Z * string * jsval := (0%Z, filler 0, JBool false).

Definition thousand_puts : list (Z * string * jsval) :=
  map (fun n => (Z.of_nat n, filler n, JBool true)) (seq 1 1000).

Fixpoint nodupb (l : list string) : bool :=
  match l with
  | [] => true
  | x :: l' => negb (includes x l') && nodupb l'
  end.

(** A bound that holds before holds after. *)
Definition keeps_bound (st st' : state) : Prop :=
  cache_bounded st -> cache_bounded st'.

(** ** Notions for normalized paths *)

Definition slash_free (s : string) : Prop :=
  Forall (fun c => c <> NodePath.slash) (list_ascii_of_string s).

(** A segment that [normalizeString] keeps as it is. *)
Definition plain (s : string) : Prop :=
  s <> "" /\ s <> "." /\ s <> ".." /\ slash_free s.

(** The stacks [normalize_segments] builds: plain segments on top of the
    [..] segments a relative path may start with. *)
Definition tidy (allowAboveRoot : bool) (stack : list string) : Prop :=
  exists plains dots,
    stack = plains ++ dots /\
    Forall plain plains /\
    Forall (eq "..") dots /\
    (allowAboveRoot = false -> dots = []).

(** ** Notions for the further properties *)

(** The names are the keys of the table, as [Object.keys] lists them. *)
Definition names_sync (st : state) : Prop :=
  moduleAliasNames st = Js.own_keys (moduleAliases st).

(** Every entry of the table has a non-empty name and, as target, a function
    or a non-empty string that [normalize] leaves as it is. *)
Definition table_ok (st : state) : Prop :=
  forall name target, In (name, target) (moduleAliases st) ->
    name <> "" /\
    ((exists f, target = JFun f) \/
     (exists s, target = JStr s /\ s <> "" /\ NodePath.normalize_string s = s)).

Definition table_wf (st : state) : Prop := names_sync st /\ table_ok st.

(** A property that holds before holds after. *)
Definition keeps (P : state -> Prop) (st st' : state) : Prop := P st -> P st'.

(** The table and the names are those from before. *)
Definition table_same (st st' : state) : Prop :=
  moduleAliases st' = moduleAliases st /\
  moduleAliasNames st' = moduleAliasNames st.

(** ** Notions for the counters and the log *)

(** The counters of resolutions and of alias matches stand still and the
    counter of cache hits does not go down. *)
Definition steady (st st' : state) : Prop :=
  resolutions (stats st') = resolutions (stats st) /\
  aliasMatches (stats st') = aliasMatches (stats st) /\
  (cacheHits (stats st) <= cacheHits (stats st'))%Z.

(** With debugging off, nothing is emitted and debugging stays off. *)
Definition quiet (st st' : state) : Prop :=
  debugMode st = false -> debugMode st' = false /\ emitted st' = emitted st.

(** The line [resolveAlias] logs when a custom handler fails. *)
Definition handler_failed_line (alias : string) (msg : jsval) : event :=
  Log "error" "Custom alias resolver failed" [("alias", JStr alias); ("error", msg)].

(** What the lookups of a resolution leave alone: the table and the trace;
    the cache only gains matches computed for the request. *)
Definition only_lookups (now : Z) (request : string) (st st' : state) : Prop :=
  moduleAliases st' = moduleAliases st /\
  emitted st' = emitted st /\
  cache_grows now request st st'.

(** A target as [addAlias] leaves it in the table. *)
Definition stored_target (target : jsval) : Prop :=
  (exists f, target = JFun f) \/ (exists s, target = JStr s /\ s <> "").

(** ** Notions for the loader hook and the reload *)

(** The hook answers as the original loader: the same file, or the same
    error when the loader throws an [Error]. *)
Definition answers_as (hooked answer : result jsval string) : Prop :=
  (forall file, answer = Ok file -> hooked = Ok file) /\
  (forall e, answer = Throw e -> is_error e -> hooked = Throw e).

(** The target [reloadAliases] registers for the string [s] it finds in a
    package file of directory [base]. *)
Definition reloaded_target (base s : string) : string :=
  if NodePath.starts_with_slash s then NodePath.normalize_string s
  else join_strings base s.

(** A loader that finds every string request under [/node_modules]. *)
Definition plain_loader (v : jsval) (parentModule : option string)
  (isMain options : jsval) : result jsval string :=
  match v with
  | JStr s => Ok ("/node_modules/" ++ s)%string
  | _ => Throw (JErr TypeError "request must be a string")
  end.

(** A package file that declares two aliases, one relative. *)
Definition sample_package : jsval :=
  JObj [("name", JStr "app");
        ("_moduleAliases", JObj [("@lib", JStr "src/lib"); ("@etc", JStr "/etc//app")])].

(** Two states that differ at most in what was emitted. *)
Definition same_but_trace (st st' : state) : Prop :=
  modulePaths st' = modulePaths st /\
  moduleAliases st' = moduleAliases st /\
  aliasesProto st' = aliasesProto st /\
  moduleAliasNames st' = moduleAliasNames st /\
  performanceCache st' = performanceCache st /\
  debugMode st' = debugMode st /\
  watchers st' = watchers st /\
  stats st' = stats st /\
  mainPaths st' = mainPaths st /\
  parentPaths st' = parentPaths st.

(** Two computations that, started in states differing at most in the
    trace, end alike: with the same outcome, in states differing at most in
    the trace. *)
Definition alike {A} (m1 m2 : M A) : Prop :=
  forall s1 s2, same_but_trace s1 s2 ->
    fst (m1 s1) = fst (m2 s2) /\ same_but_trace (snd (m1 s1)) (snd (m2 s2)).

(** * Properties *)

(** ** Strings *)

Lemma prefix_nil (s : string) : String.prefix "" s = true.
Proof. destruct s; reflexivity. Qed.

Lemma prefix_app (a rest : string) : String.prefix a (a ++ rest) = true.
Proof.
  induction a as [|c a IH]; simpl.
  - apply prefix_nil.
  - destruct (ascii_dec c c) as [_|n]; [exact IH | contradiction].
Qed.

Lemma prefix_split (a s : string) :
  String.prefix a s = true -> s = (a ++ Js.substr (String.length a) s)%string.
Proof.
  revert s; induction a as [|c a IH]; intros s H; simpl.
  - destruct s; reflexivity.
  - destruct s as [|d s]; simpl in H; [discriminate|].
    destruct (ascii_dec c d) as [e|n]; [subst d|discriminate].
    simpl. f_equal. apply IH, H.
Qed.

Lemma prefix_iff (a s : string) :
  String.prefix a s = true <-> exists rest, s = (a ++ rest)%string.
Proof.
  split.
  - intros H. eexists. apply prefix_split, H.
  - intros [rest ->]. apply prefix_app.
Qed.

Lemma prefix_same_length (a s : string) :
  String.prefix a s = true -> String.length s = String.length a -> s = a.
Proof.
  revert s; induction a as [|c a IH]; intros s H L.
  - destruct s; [reflexivity|discriminate].
  - destruct s as [|d s]; simpl in H; [discriminate|].
    destruct (ascii_dec c d) as [e|n]; [subst d|discriminate].
    simpl in L. f_equal. apply IH; [exact H | lia].
Qed.

Lemma prefixes_same_length (a b s : string) :
  String.prefix a s = true -> String.prefix b s = true ->
  String.length a = String.length b -> a = b.
Proof.
  revert b s; induction a as [|c a IH]; intros b s Ha Hb L.
  - destruct b; [reflexivity|discriminate].
  - destruct b as [|d b]; [discriminate|].
    destruct s as [|e s]; simpl in Ha, Hb; [discriminate|].
    destruct (ascii_dec c e) as [<-|]; [|discriminate].
    destruct (ascii_dec d c) as [->|]; [|discriminate].
    simpl in L. f_equal. apply (IH b s); [assumption|assumption|lia].
Qed.

Lemma indexOf_from_range (needle hay : string) (i : Z) :
  Js.indexOf_from i needle hay = (-1)%Z \/ (i <= Js.indexOf_from i needle hay)%Z.
Proof.
  revert i; induction hay as [|c hay IH]; intros i; cbn [Js.indexOf_from].
  - destruct (String.prefix needle ""); [right; lia | left; reflexivity].
  - destruct (String.prefix needle (String c hay)); [right; lia|].
    destruct (IH (i + 1)%Z) as [E|E]; [left; exact E | right; lia].
Qed.

(** [path.indexOf(alias) === 0] says that [path] starts with [alias]. *)
Lemma indexOf_zero (path alias : string) :
  (Js.indexOf path alias =? 0)%Z = String.prefix alias path.
Proof.
  unfold Js.indexOf. destruct path as [|c path]; cbn [Js.indexOf_from].
  - destruct (String.prefix alias ""); reflexivity.
  - destruct (String.prefix alias (String c path)); [reflexivity|].
    destruct (indexOf_from_range alias path (0 + 1)) as [E|E].
    + rewrite E. reflexivity.
    + apply Z.eqb_neq. lia.
Qed.

Lemma indexOf_from_found (needle pre post : string) (i : Z) :
  (0 <= i)%Z -> (0 <= Js.indexOf_from i needle (pre ++ needle ++ post))%Z.
Proof.
  revert i; induction pre as [|c pre IH]; intros i Hi.
  - cbn [String.append].
    assert (P : String.prefix needle (needle ++ post) = true) by apply prefix_app.
    destruct (needle ++ post)%string; cbn [Js.indexOf_from]; rewrite P; lia.
  - cbn [String.append Js.indexOf_from].
    destruct (String.prefix needle (String c (pre ++ needle ++ post))); [lia|].
    apply IH. lia.
Qed.

Lemma is_str_char_at (path : string) (n : nat) (s : string) :
  Js.is_str (Js.char_at path n) s =
  match String.get n path with
  | Some c => (String c EmptyString =? s)
  | None => false
  end.
Proof. unfold Js.char_at. destruct (String.get n path); reflexivity. Qed.

Lemma matches_spec (path alias : string) :
  matches path alias = true <->
  String.prefix alias path = true /\
  (path = alias \/
   exists c, String.get (String.length alias) path = Some c /\ is_separator c = true).
Proof.
  unfold matches. rewrite indexOf_zero.
  destruct (String.prefix alias path) eqn:P.
  2:{ split; [discriminate | intros [H _]; discriminate]. }
  destruct (Nat.eqb_spec (String.length path) (String.length alias)) as [L|L].
  - split; [|reflexivity]. intros _. split; [reflexivity|].
    left. apply prefix_same_length; assumption.
  - rewrite !is_str_char_at.
    destruct (String.get (String.length alias) path) as [c|] eqn:G.
    + assert (E : ((String c "" =? "/") || (String c "" =? "\"))%bool = is_separator c).
      { unfold is_separator. f_equal.
        - destruct (Ascii.eqb_spec c "/"%char) as [->|n]; [reflexivity|].
          apply String.eqb_neq. congruence.
        - destruct (Ascii.eqb_spec c "\"%char) as [->|n]; [reflexivity|].
          apply String.eqb_neq. congruence. }
      rewrite E. destruct (is_separator c) eqn:S.
      * split; [|reflexivity]. intros _. split; [reflexivity|].
        right. exists c. split; [reflexivity | exact S].
      * split; [discriminate|]. intros [_ [->|[c' [H1 H2]]]].
        -- contradiction L; reflexivity.
        -- congruence.
    + simpl. split; [discriminate|]. intros [_ [->|[c' [H1 _]]]].
      * contradiction L; reflexivity.
      * discriminate.
Qed.

Lemma matches_prefix (path alias : string) :
  matches path alias = true -> String.prefix alias path = true.
Proof. intros H. apply matches_spec in H. tauto. Qed.

Lemma prefix_In (a s : string) : String.prefix a s = true -> In a (prefixes s).
Proof.
  revert a; induction s as [|c s IH]; intros a H.
  - destruct a; [now left | discriminate].
  - destruct a as [|d a]; [now left|]. right. simpl in H.
    destruct (ascii_dec d c) as [->|]; [|discriminate].
    apply in_map, IH, H.
Qed.

Lemma handler_error_names (alias : string) : error_names (handler_error alias) alias = true.
Proof.
  unfold error_names, handler_error, Js.indexOf. apply Z.leb_le.
  apply indexOf_from_found. lia.
Qed.

(** ** The [Map] *)

Module JsMapFacts.
Section WithValue.
Variable V : Type.
Implicit Types (m : JsMap.t V) (k : string) (v : V).

Lemma get_In k v m : JsMap.get k m = Some v -> In (k, v) m.
Proof.
  induction m as [|[k' v'] m IH]; simpl; [discriminate|].
  destruct (String.eqb_spec k' k) as [->|n].
  - intros [= ->]. now left.
  - intros H. right. now apply IH.
Qed.

Lemma get_keys k m : JsMap.get k m = None <-> ~ In k (JsMap.keys m).
Proof.
  induction m as [|[k' v'] m IH]; simpl.
  - tauto.
  - destruct (String.eqb_spec k' k) as [->|n].
    + split; [discriminate | intros H; exfalso; apply H; now left].
    + rewrite IH. split; [intros H [E|E]; [congruence | tauto] | tauto].
Qed.

Lemma In_replace k v m k' v' :
  In (k', v') (JsMap.replace k v m) -> (k' = k /\ v' = v) \/ In (k', v') m.
Proof.
  induction m as [|[k0 v0] m IH]; simpl; [tauto|].
  destruct (String.eqb_spec k0 k) as [->|n]; simpl.
  - intros [[= <- <-]|H]; [left; tauto | right; tauto].
  - intros [H|H]; [right; tauto|].
    destruct (IH H); tauto.
Qed.

Lemma In_set k v m k' v' :
  In (k', v') (JsMap.set k v m) -> (k' = k /\ v' = v) \/ In (k', v') m.
Proof.
  unfold JsMap.set. destruct (JsMap.has k m).
  - apply In_replace.
  - intros H. apply in_app_or in H. destruct H as [H|[[= <- <-]|[]]]; tauto.
Qed.

Lemma In_delete k m x : In x (JsMap.delete k m) -> In x m.
Proof.
  induction m as [|[k0 v0] m IH]; simpl; [tauto|].
  destruct (k0 =? k); simpl; [tauto|]. intros [H|H]; tauto.
Qed.

Lemma get_replace_same k v m :
  JsMap.has k m = true -> JsMap.get k (JsMap.replace k v m) = Some v.
Proof.
  unfold JsMap.has. induction m as [|[k0 v0] m IH]; simpl; [discriminate|].
  destruct (String.eqb_spec k0 k) as [->|n]; simpl.
  - now rewrite String.eqb_refl.
  - intros H. apply String.eqb_neq in n. rewrite n. now apply IH.
Qed.

Lemma get_app_miss k m m' :
  JsMap.get k m = None -> JsMap.get k (m ++ m') = JsMap.get k m'.
Proof.
  induction m as [|[k0 v0] m IH]; simpl; [reflexivity|].
  destruct (k0 =? k); [discriminate | exact IH].
Qed.

Lemma get_set_same k v m : JsMap.get k (JsMap.set k v m) = Some v.
Proof.
  unfold JsMap.set. destruct (JsMap.has k m) eqn:H.
  - now apply get_replace_same.
  - unfold JsMap.has in H. destruct (JsMap.get k m) eqn:G; [discriminate|].
    rewrite get_app_miss by exact G. simpl. now rewrite String.eqb_refl.
Qed.

Lemma size_replace k v m : JsMap.size (JsMap.replace k v m) = JsMap.size m.
Proof.
  unfold JsMap.size. induction m as [|[k0 v0] m IH]; simpl; [reflexivity|].
  destruct (k0 =? k); simpl; congruence.
Qed.

Lemma size_set k v m :
  JsMap.size (JsMap.set k v m)
  = if JsMap.has k m then JsMap.size m else S (JsMap.size m).
Proof.
  unfold JsMap.set. destruct (JsMap.has k m).
  - apply size_replace.
  - unfold JsMap.size. rewrite length_app. simpl. lia.
Qed.

Lemma has_keys k m : JsMap.has k m = false <-> ~ In k (JsMap.keys m).
Proof.
  unfold JsMap.has. rewrite <- get_keys.
  destruct (JsMap.get k m); split; congruence.
Qed.

End WithValue.
End JsMapFacts.

(** ** Relations kept by computations *)

Section Preserves.
Variable R : state -> state -> Prop.
Hypothesis R_refl : forall st, R st st.
Hypothesis R_trans : forall a b c, R a b -> R b c -> R a c.

Lemma preserves_ret {A} (a : A) : preserves R (ret a).
Proof. intros st r st' [= _ <-]. apply R_refl. Qed.

Lemma preserves_throw {A} (e : jsval) : preserves R (@throw A e).
Proof. intros st r st' [= _ <-]. apply R_refl. Qed.

Lemma preserves_lift {A} (x : result jsval A) : preserves R (lift x).
Proof. intros st r st' [= _ <-]. apply R_refl. Qed.

Lemma preserves_gets {A} (f : state -> A) : preserves R (gets f).
Proof. intros st r st' [= _ <-]. apply R_refl. Qed.

Lemma preserves_modify (f : state -> state) :
  (forall st, R st (f st)) -> preserves R (modify f).
Proof. intros H st r st' [= _ <-]. apply H. Qed.

Lemma preserves_bind {A B} (m : M A) (k : A -> M B) :
  preserves R m -> (forall a, preserves R (k a)) -> preserves R (bind m k).
Proof.
  intros Hm Hk st r st'. unfold bind.
  destruct (m st) as [[a|e] st1] eqn:E.
  - intros H. eapply R_trans; [eapply Hm, E | eapply Hk, H].
  - intros [= _ <-]. eapply Hm, E.
Qed.

Lemma preserves_try_catch {A} (m : M A) (h : jsval -> M A) :
  preserves R m -> (forall e, preserves R (h e)) -> preserves R (try_catch m h).
Proof.
  intros Hm Hh st r st'. unfold try_catch.
  destruct (m st) as [[a|e] st1] eqn:E.
  - intros [= _ <-]. eapply Hm, E.
  - intros H. eapply R_trans; [eapply Hm, E | eapply Hh, H].
Qed.

Lemma preserves_when (b : bool) (m : M unit) :
  preserves R m -> preserves R (when b m).
Proof. intros H. destruct b; [exact H | apply preserves_ret]. Qed.

Lemma preserves_for_each {A} (xs : list A) (body : A -> M unit) :
  (forall x, preserves R (body x)) -> preserves R (for_each xs body).
Proof.
  intros H. induction xs as [|x xs IH]; simpl.
  - apply preserves_ret.
  - apply preserves_bind; [apply H | intros _; exact IH].
Qed.

Lemma preserves_if {A} (b : bool) (m1 m2 : M A) :
  preserves R m1 -> preserves R m2 -> preserves R (if b then m1 else m2).
Proof. now destruct b. Qed.

End Preserves.

Unset Implicit Arguments.

(** Walks through a computation, leaving its primitive steps to [leaf]. *)
Ltac keep_step R_refl R_trans leaf :=
  lazymatch goal with
  | |- preserves _ (ret _) => apply (preserves_ret _ R_refl)
  | |- preserves _ (throw _) => apply (@preserves_throw _ R_refl)
  | |- preserves _ (lift _) => apply (preserves_lift _ R_refl)
  | |- preserves _ (gets _) => apply (preserves_gets _ R_refl)
  | |- preserves _ (bind _ _) => apply (preserves_bind R_trans)
  | |- preserves _ (try_catch _ _) => apply (preserves_try_catch R_trans)
  | |- preserves _ (when _ _) => apply (preserves_when R_refl)
  | |- preserves _ (for_each _ _) => apply (preserves_for_each R_refl R_trans)
  | |- preserves _ (if _ then _ else _) => apply preserves_if
  | |- preserves _ _ => leaf
  | |- forall _, _ => intro
  end.

Ltac keep R_refl R_trans leaf := repeat (keep_step R_refl R_trans leaf).

Lemma same_table_refl st : same_table st st.
Proof. unfold same_table; tauto. Qed.

Lemma same_table_trans a b c : same_table a b -> same_table b c -> same_table a c.
Proof. unfold same_table. intuition congruence. Qed.

(** ** The cache *)

Lemma size_cache_put now key v cache :
  (JsMap.size cache <= 1000)%nat -> (JsMap.size (cache_put now key v cache) <= 1000)%nat.
Proof.
  intros H. unfold cache_put.
  set (e := {| value := v; timestamp := now |}).
  pose proof (JsMapFacts.size_set key e cache) as S.
  destruct (Nat.ltb_spec 1000 (JsMap.size (JsMap.set key e cache))) as [L|L]; [|exact L].
  destruct (JsMap.set key e cache) as [|[k0 e0] m'] eqn:E; simpl in *; [lia|].
  rewrite String.eqb_refl. unfold JsMap.size in *.
  destruct (JsMap.has key cache); simpl in *; lia.
Qed.

Lemma In_cache_put now key v cache k e :
  In (k, e) (cache_put now key v cache) ->
  (k = key /\ e = {| value := v; timestamp := now |}) \/ In (k, e) cache.
Proof.
  unfold cache_put.
  set (e0 := {| value := v; timestamp := now |}).
  destruct (1000 <? _)%nat.
  - destruct (JsMap.first_key _) as [fk|].
    + intros H. apply JsMapFacts.In_delete in H. now apply JsMapFacts.In_set in H.
    + apply JsMapFacts.In_set.
  - apply JsMapFacts.In_set.
Qed.

(** A put on a store within its bound leaves the entry it wrote. *)
Lemma get_cache_put now key v cache :
  (JsMap.size cache <= 1000)%nat ->
  JsMap.get key (cache_put now key v cache) = Some {| value := v; timestamp := now |}.
Proof.
  intros H. unfold cache_put.
  set (e := {| value := v; timestamp := now |}).
  pose proof (JsMapFacts.size_set key e cache) as S.
  pose proof (JsMapFacts.get_set_same key e cache) as G.
  destruct (Nat.ltb_spec 1000 (JsMap.size (JsMap.set key e cache))) as [L|L]; [|exact G].
  destruct (JsMap.has key cache) eqn:Hk; [lia|].
  unfold JsMap.set in *. rewrite Hk in *.
  destruct cache as [|[k0 e0] m']; simpl in *; [lia|].
  rewrite String.eqb_refl.
  destruct (String.eqb_spec k0 key) as [->|n].
  - unfold JsMap.has in Hk. simpl in Hk. rewrite String.eqb_refl in Hk. discriminate.
  - exact G.
Qed.

(** ** The resolver *)

Lemma append_cancel_l (p a b : string) : (p ++ a = p ++ b)%string -> a = b.
Proof. induction p as [|c p IH]; simpl; [tauto | intros [= H]; auto]. Qed.

Lemma match_key_inj (request a b : string) :
  match_key request a = match_key request b -> a = b.
Proof.
  unfold match_key. intros H. apply append_cancel_l in H.
  now apply (append_cancel_l ":") in H.
Qed.

(** *** The order in which aliases are tried *)

Lemma In_insert_by_length a l x :
  In x (insert_by_length a l) <-> x = a \/ In x l.
Proof.
  induction l as [|b l IH]; simpl.
  - intuition.
  - destruct (String.length a <? String.length b)%nat; simpl; rewrite ?IH; intuition.
Qed.

Lemma In_sort_by_length l x : In x (sort_by_length l) <-> In x l.
Proof.
  induction l as [|a l IH]; simpl; [tauto|].
  rewrite In_insert_by_length, IH. intuition.
Qed.

Lemma insert_by_length_sorted a l :
  longest_first l -> longest_first (insert_by_length a l).
Proof.
  induction l as [|b l IH]; simpl.
  - intros _. split; [intros ? []|exact I].
  - intros [Hb Hl]. destruct (Nat.ltb_spec (String.length a) (String.length b)) as [L|L]; simpl.
    + split; [|now apply IH].
      intros x Hx. apply In_insert_by_length in Hx. destruct Hx as [->|Hx]; [lia | now apply Hb].
    + split; [|tauto].
      intros x [<-|Hx]; [exact L|]. specialize (Hb x Hx). lia.
Qed.

Lemma sort_by_length_sorted l : longest_first (sort_by_length l).
Proof.
  induction l as [|a l IH]; simpl; [exact I|]. now apply insert_by_length_sorted.
Qed.

(** In a list with longer names first, the first alias that matches is the
    longest alias that matches. *)
Lemma find_longest request alias l :
  longest_first l -> In alias l -> matches request alias = true ->
  (forall a, In a l -> matches request a = true ->
             (String.length a <= String.length alias)%nat) ->
  find (matches request) l = Some alias.
Proof.
  induction l as [|b l IH]; simpl; [tauto|].
  intros [Hb Hl] Hin Hm Hmax.
  destruct (matches request b) eqn:Mb.
  - f_equal. destruct Hin as [E|Hin]; [exact E|].
    apply (prefixes_same_length b alias request).
    + now apply matches_prefix.
    + now apply matches_prefix.
    + specialize (Hb alias Hin). specialize (Hmax b (or_introl eq_refl) Mb). lia.
  - destruct Hin as [E|Hin]; [congruence|].
    apply IH; auto.
Qed.

Lemma find_none request l :
  (forall a, In a l -> matches request a = false) ->
  find (matches request) l = None.
Proof.
  induction l as [|b l IH]; simpl; [reflexivity|].
  intros H. rewrite (H b (or_introl eq_refl)). apply IH. auto.
Qed.

Lemma log_same_table level message data : preserves same_table (log level message data).
Proof.
  apply preserves_modify. intros st. unfold same_table, cache_bounded.
  destruct (negb (debugMode st) && negb (level =? "error")); simpl; tauto.
Qed.

Lemma getCachedResolution_same_table now key :
  preserves same_table (getCachedResolution now key).
Proof.
  intros st r st'. unfold getCachedResolution.
  destruct (JsMap.get key (performanceCache st)) as [c|].
  - destruct (now - timestamp c <? 5000)%Z; intros [= _ <-];
      unfold same_table, cache_bounded; simpl; tauto.
  - intros [= _ <-]. apply same_table_refl.
Qed.

Lemma getCachedResolution_cache now key st :
  performanceCache (snd (getCachedResolution now key st)) = performanceCache st.
Proof.
  unfold getCachedResolution.
  destruct (JsMap.get key (performanceCache st)) as [c|]; [|reflexivity].
  destruct (now - timestamp c <? 5000)%Z; reflexivity.
Qed.

Lemma setCachedResolution_same_table now key v :
  preserves same_table (setCachedResolution now key v).
Proof.
  apply preserves_modify. intros st. unfold same_table, cache_bounded; simpl.
  repeat split; try reflexivity. apply size_cache_put.
Qed.

Lemma isPathMatchesAlias_same_table now path alias :
  preserves same_table (isPathMatchesAlias now path alias).
Proof.
  unfold isPathMatchesAlias.
  apply (preserves_bind same_table_trans).
  - apply getCachedResolution_same_table.
  - intros cached. apply preserves_if.
    + apply (preserves_ret _ same_table_refl).
    + apply (preserves_bind same_table_trans).
      * apply setCachedResolution_same_table.
      * intros _. apply (preserves_ret _ same_table_refl).
Qed.

Lemma isPathMatchesAlias_cache_grows now request alias :
  preserves (cache_grows now request) (isPathMatchesAlias now request alias).
Proof.
  intros st r st'. unfold isPathMatchesAlias, bind.
  pose proof (getCachedResolution_cache now (match_key request alias) st) as C.
  destruct (getCachedResolution now (match_key request alias) st) as [[cached|e] st1];
    simpl in C.
  - destruct (Js.not_null cached).
    + intros [= _ <-]. intros k e H. left. now rewrite <- C.
    + unfold setCachedResolution, modify, ret. intros [= _ <-]. simpl.
      intros k e H. apply In_cache_put in H. destruct H as [[-> ->]|H].
      * right. now exists alias.
      * left. now rewrite <- C.
  - intros [= _ <-]. intros k e' H. left. now rewrite <- C.
Qed.

(** With coherent live entries under its key, [isPathMatchesAlias] answers
    the computed match. *)
Lemma isPathMatchesAlias_value now path alias st :
  (forall e, In (match_key path alias, e) (performanceCache st) ->
             live now e -> value e = JBool (matches path alias)) ->
  fst (isPathMatchesAlias now path alias st) = Ok (JBool (matches path alias)).
Proof.
  intros H. unfold isPathMatchesAlias, bind, getCachedResolution.
  destruct (JsMap.get (match_key path alias) (performanceCache st)) as [c|] eqn:G.
  - destruct (Z.ltb_spec (now - timestamp c) 5000) as [L|L].
    + apply JsMapFacts.get_In in G. rewrite (H c G L). reflexivity.
    + reflexivity.
  - reflexivity.
Qed.

Lemma bump_aliasMatches_same_table st : same_table st (bump_aliasMatches st).
Proof. unfold same_table, cache_bounded; simpl; tauto. Qed.

Lemma bump_resolutions_same_table st : same_table st (bump_resolutions st).
Proof. unfold same_table, cache_bounded; simpl; tauto. Qed.

Section ResolverFacts.
Variable existsSync : string -> bool.
Variable cwd : string.

Lemma call_handler_same_table f request parentModule alias :
  preserves same_table (call_handler cwd f request parentModule alias).
Proof.
  unfold call_handler.
  keep same_table_refl same_table_trans ltac:(apply log_same_table).
Qed.

Lemma resolve_with_same_table request parentModule alias :
  preserves same_table (resolve_with existsSync cwd request parentModule alias).
Proof.
  unfold resolve_with.
  apply (preserves_bind same_table_trans);
    [apply preserves_modify, bump_aliasMatches_same_table|intros _].
  apply (preserves_bind same_table_trans);
    [apply (preserves_gets _ same_table_refl)|intros aliases].
  apply (preserves_bind same_table_trans).
  { destruct (Js.obj_get alias aliases) as [[]|];
      try apply (preserves_ret _ same_table_refl).
    apply call_handler_same_table. }
  intros target.
  keep same_table_refl same_table_trans ltac:(apply log_same_table).
Qed.

Lemma resolve_loop_same_table now request parentModule l :
  preserves same_table (resolve_loop existsSync cwd now request parentModule l).
Proof.
  induction l as [|a l IH]; simpl.
  - apply (preserves_ret _ same_table_refl).
  - apply (preserves_bind same_table_trans).
    + apply isPathMatchesAlias_same_table.
    + intros m. apply preserves_if; [apply resolve_with_same_table | exact IH].
Qed.

Lemma resolveAlias_same_table now request parentModule :
  preserves same_table (resolveAlias existsSync cwd now request parentModule).
Proof.
  unfold resolveAlias.
  apply (preserves_bind same_table_trans);
    [apply preserves_modify, bump_resolutions_same_table|intros _].
  apply (preserves_bind same_table_trans);
    [apply getCachedResolution_same_table|intros cached].
  apply preserves_if; [apply (preserves_ret _ same_table_refl)|].
  apply (preserves_bind same_table_trans);
    [apply (preserves_gets _ same_table_refl)|intros names].
  apply (preserves_bind same_table_trans);
    [apply resolve_loop_same_table|intros r].
  apply (preserves_bind same_table_trans);
    [apply setCachedResolution_same_table|intros _].
  apply (preserves_ret _ same_table_refl).
Qed.

(** The loop of [resolveAlias] on a coherent cache stops at the first alias
    of the list that matches. *)
Lemma resolve_loop_find now request parentModule l : forall st,
  (forall a e, In a l -> In (match_key request a, e) (performanceCache st) ->
               live now e -> value e = JBool (matches request a)) ->
  exists st', same_table st st' /\
    resolve_loop existsSync cwd now request parentModule l st =
    match find (matches request) l with
    | Some alias => resolve_with existsSync cwd request parentModule alias st'
    | None => (Ok (JStr request), st')
    end.
Proof.
  induction l as [|a l IH]; intros st H; simpl.
  - exists st. split; [apply same_table_refl | reflexivity].
  - unfold bind.
    pose proof (isPathMatchesAlias_value now request a st) as V.
    pose proof (@isPathMatchesAlias_same_table now request a st) as T.
    pose proof (@isPathMatchesAlias_cache_grows now request a st) as G.
    destruct (isPathMatchesAlias now request a st) as [r st1].
    simpl in V. rewrite V by (intros e; apply H; now left).
    specialize (T _ _ eq_refl). specialize (G _ _ eq_refl).
    destruct (matches request a) eqn:Ma; simpl.
    + exists st1. split; [exact T | reflexivity].
    + destruct (IH st1) as [st' [T' E]].
      * intros a' e Ha' Hin Hl. destruct (G _ _ Hin) as [Hold|[a2 [K ->]]].
        -- apply (H a' e); [now right | exact Hold | exact Hl].
        -- apply match_key_inj in K. subst a2. reflexivity.
      * exists st'. split; [eapply same_table_trans; eassumption | exact E].
Qed.

(** *** One matched alias *)

Lemma join_two_strings target rest :
  NodePath.join [JStr target; JStr rest] = Ok (join_strings target rest).
Proof.
  unfold NodePath.join, join_strings.
  destruct (NodePath.join_args [JStr target; JStr rest] None) as [[j|]|e] eqn:E;
    try reflexivity.
  simpl in E. destruct (target =? ""), (rest =? ""); discriminate.
Qed.

(** What follows the choice of the target in the matched branch. *)
Lemma resolve_with_target request parentModule alias target st :
  Js.obj_get alias (moduleAliases st) = Some (JStr target) ->
  fst (resolve_with existsSync cwd request parentModule alias st)
  = Ok (JStr (join_strings target (Js.substr (String.length alias) request))).
Proof.
  intros H. unfold resolve_with, bind, modify, gets, ret, lift, when, log; simpl.
  rewrite H. rewrite join_two_strings.
  destruct (negb (validateAliasTarget existsSync (JStr target))); reflexivity.
Qed.

Lemma getCachedResolution_miss now key st :
  (forall e, JsMap.get key (performanceCache st) = Some e -> ~ live now e) ->
  getCachedResolution now key st = (Ok JNull, st).
Proof.
  intros H. unfold getCachedResolution.
  destruct (JsMap.get key (performanceCache st)) as [c|]; [|reflexivity].
  destruct (Z.ltb_spec (now - timestamp c) 5000) as [L|L]; [|reflexivity].
  exfalso. exact (H c eq_refl L).
Qed.

Lemma getCachedResolution_hit now key st v ts :
  JsMap.get key (performanceCache st) = Some {| value := v; timestamp := ts |} ->
  (now - ts < 5000)%Z ->
  getCachedResolution now key st = (Ok v, bump_cacheHits st).
Proof.
  intros H L. unfold getCachedResolution. rewrite H. simpl.
  apply Z.ltb_lt in L. now rewrite L.
Qed.

(** A computed resolution is decided by the first alias, longer names
    first, that matches. *)
Lemma resolveAlias_computed now request parentModule st :
  fresh_for now request parentModule st ->
  exists st', same_table st st' /\
    fst (resolveAlias existsSync cwd now request parentModule st) =
    match find (matches request) (sort_by_length (moduleAliasNames st)) with
    | Some alias => fst (resolve_with existsSync cwd request parentModule alias st')
    | None => Ok (JStr request)
    end.
Proof.
  intros [Hkey Hcoh]. unfold resolveAlias.
  unfold bind at 1. unfold modify at 1. unfold bind at 1.
  rewrite getCachedResolution_miss by exact Hkey.
  cbn [Js.not_null]. unfold bind at 1. unfold gets at 1.
  change (moduleAliasNames (bump_resolutions st)) with (moduleAliasNames st).
  destruct (resolve_loop_find now request parentModule
              (sort_by_length (moduleAliasNames st)) (bump_resolutions st))
    as [st' [T E]].
  { intros a e Ha. apply Hcoh. now apply In_sort_by_length. }
  exists st'. split.
  { eapply same_table_trans; [apply bump_resolutions_same_table | exact T]. }
  unfold bind. rewrite E.
  destruct (find (matches request) (sort_by_length (moduleAliasNames st))).
  - destruct (resolve_with existsSync cwd request parentModule s st') as [[v|e] st2];
      reflexivity.
  - reflexivity.
Qed.

Lemma resolveAlias_longest now request parentModule alias st :
  fresh_for now request parentModule st ->
  longest_match st request alias ->
  exists st', moduleAliases st' = moduleAliases st /\
    fst (resolveAlias existsSync cwd now request parentModule st)
    = fst (resolve_with existsSync cwd request parentModule alias st').
Proof.
  intros F [Hin [Hm Hmax]].
  destruct (resolveAlias_computed now request parentModule st F) as [st' [T E]].
  exists st'. split; [apply T|].
  rewrite E, (find_longest request alias); [reflexivity| | |exact Hm|].
  - apply sort_by_length_sorted.
  - apply In_sort_by_length, Hin.
  - intros a Ha. apply Hmax. apply In_sort_by_length, Ha.
Qed.

(** *** Custom handlers *)

Lemma call_handler_valid f request parentModule alias s st :
  f (filename_or parentModule cwd) request alias = Ok (JStr s) -> s <> "" ->
  call_handler cwd f request parentModule alias st = (Ok (JStr s), st).
Proof.
  intros H Hs. unfold call_handler, try_catch, bind, lift. rewrite H. simpl.
  apply String.eqb_neq in Hs. rewrite Hs. reflexivity.
Qed.

Lemma call_handler_invalid f request parentModule alias v st :
  f (filename_or parentModule cwd) request alias = Ok v ->
  Js.truthy v = false \/ Js.is_string v = false ->
  fst (call_handler cwd f request parentModule alias st) = Throw (handler_error alias).
Proof.
  intros H Hv. unfold call_handler, try_catch, bind, lift. rewrite H.
  assert (E : negb (Js.truthy v) || negb (Js.is_string v) = true).
  { destruct Hv as [-> | ->]; simpl; [reflexivity | apply orb_true_r]. }
  rewrite E. reflexivity.
Qed.

Lemma call_handler_throws f request parentModule alias e m st :
  f (filename_or parentModule cwd) request alias = Throw e ->
  Js.get_prop e "message" = Ok m ->
  fst (call_handler cwd f request parentModule alias st) = Throw e.
Proof.
  intros H Hm. unfold call_handler, try_catch, bind, lift. rewrite H, Hm. reflexivity.
Qed.

Lemma call_handler_fails f request parentModule alias e st :
  f (filename_or parentModule cwd) request alias = Throw e ->
  exists e', fst (call_handler cwd f request parentModule alias st) = Throw e'.
Proof.
  intros H. unfold call_handler, try_catch, bind, lift. rewrite H.
  destruct (Js.get_prop e "message"); eexists; reflexivity.
Qed.

Lemma resolve_with_handler request parentModule alias f st :
  Js.obj_get alias (moduleAliases st) = Some (JFun f) ->
  fst (resolve_with existsSync cwd request parentModule alias st) =
  match call_handler cwd f request parentModule alias (bump_aliasMatches st) with
  | (Ok (JStr s), _) =>
      Ok (JStr (join_strings s (Js.substr (String.length alias) request)))
  | (Ok v, _) =>
      match NodePath.join [v; JStr (Js.substr (String.length alias) request)] with
      | Ok p => Ok (JStr p)
      | Throw e => Throw e
      end
  | (Throw e, _) => Throw e
  end.
Proof.
  intros H. unfold resolve_with.
  unfold bind at 1. unfold modify at 1. unfold bind at 1. unfold gets at 1.
  change (moduleAliases (bump_aliasMatches st)) with (moduleAliases st). rewrite H.
  unfold bind at 1.
  destruct (call_handler cwd f request parentModule alias (bump_aliasMatches st))
    as [[v|e] st1]; [|reflexivity].
  unfold bind, lift, when, log, modify, ret.
  destruct v; try rewrite join_two_strings;
    destruct (negb (validateAliasTarget existsSync _)); simpl; try reflexivity.
Qed.

(** *** Longest match and custom handlers, as claimed *)

(** C1 (as amended): when the resolution is computed (the cache is fresh
    for the request), the alias chosen is the longest registered alias that
    matches, and the result is [nodePath.join] of its target with what is
    left of the request after the alias. For a table that registers [@a]
    as [/x] and [@a/b] as [/y], and registers neither [@a/b/c] nor [@a/z]
    themselves, [@a/b/c] resolves to [/y/c] and [@a/z] to [/x/z]. *)
Theorem resolve_longest_alias_wins :
  (forall now request parentModule alias target st,
      fresh_for now request parentModule st ->
      longest_match st request alias ->
      Js.obj_get alias (moduleAliases st) = Some (JStr target) ->
      let rest := Js.substr (String.length alias) request in
      NodePath.join [JStr target; JStr rest] = Ok (join_strings target rest) /\
      fst (resolveAlias existsSync cwd now request parentModule st)
      = Ok (JStr (join_strings target rest))) /\
  (forall now parentModule st,
      has_alias st "@a" (JStr "/x") ->
      has_alias st "@a/b" (JStr "/y") ->
      ~ In "@a/b/c" (moduleAliasNames st) ->
      ~ In "@a/z" (moduleAliasNames st) ->
      fresh_for now "@a/b/c" parentModule st ->
      fresh_for now "@a/z" parentModule st ->
      fst (resolveAlias existsSync cwd now "@a/b/c" parentModule st) = Ok (JStr "/y/c") /\
      fst (resolveAlias existsSync cwd now "@a/z" parentModule st) = Ok (JStr "/x/z")).
Proof.
  assert (G : forall now request parentModule alias target st,
      fresh_for now request parentModule st ->
      longest_match st request alias ->
      Js.obj_get alias (moduleAliases st) = Some (JStr target) ->
      fst (resolveAlias existsSync cwd now request parentModule st)
      = Ok (JStr (join_strings target (Js.substr (String.length alias) request)))).
  { intros now request parentModule alias target st F L T.
    destruct (resolveAlias_longest now request parentModule alias st F L) as [st' [A E]].
    rewrite E. apply resolve_with_target. now rewrite A. }
  split.
  - intros now request parentModule alias target st F L T rest.
    split; [apply join_two_strings | now apply G].
  - intros now parentModule st [Ia Ta] [Iab Tab] Nabc Naz F1 F2. split.
    + rewrite (G now "@a/b/c" parentModule "@a/b" "/y" st F1); [reflexivity| |exact Tab].
      split; [exact Iab|]. split; [reflexivity|].
      intros a Ha Hm.
      pose proof (prefix_In _ _ (matches_prefix _ _ Hm)) as Hp. simpl in Hp.
      repeat (destruct Hp as [<-|Hp];
              [first [simpl; lia | contradiction | (vm_compute in Hm; discriminate)]|]).
      contradiction.
    + rewrite (G now "@a/z" parentModule "@a" "/x" st F2); [reflexivity| |exact Ta].
      split; [exact Ia|]. split; [reflexivity|].
      intros a Ha Hm.
      pose proof (prefix_In _ _ (matches_prefix _ _ Hm)) as Hp. simpl in Hp.
      repeat (destruct Hp as [<-|Hp];
              [first [simpl; lia | contradiction | (vm_compute in Hm; discriminate)]|]).
      contradiction.
Qed.

(** C3 (as amended): when the longest alias matching a request has a
    custom handler as its target and the resolution is computed, a handler
    returning an empty string or a non-string makes [resolveAlias] throw
    the error that names the alias; a handler that throws makes
    [resolveAlias] fail, and the error is the handler's own error whenever
    its message can be read (so it need not name the alias); no other
    alias is consulted in either case; a handler returning a non-empty
    string makes [resolveAlias] return that string joined with what is
    left of the request after the alias. *)
Theorem resolve_custom_handler now request parentModule alias f st :
  fresh_for now request parentModule st ->
  longest_match st request alias ->
  Js.obj_get alias (moduleAliases st) = Some (JFun f) ->
  let outcome := f (filename_or parentModule cwd) request alias in
  let rest := Js.substr (String.length alias) request in
  let resolved := fst (resolveAlias existsSync cwd now request parentModule st) in
  (forall v, outcome = Ok v -> Js.truthy v = false \/ Js.is_string v = false ->
             resolved = Throw (handler_error alias) /\
             error_names (handler_error alias) alias = true) /\
  (forall e m, outcome = Throw e -> Js.get_prop e "message" = Ok m ->
               resolved = Throw e) /\
  (forall e, outcome = Throw e -> exists e', resolved = Throw e') /\
  (forall s, outcome = Ok (JStr s) -> s <> "" ->
             resolved = Ok (JStr (join_strings s rest))).
Proof.
  intros F L T outcome rest resolved.
  destruct (resolveAlias_longest now request parentModule alias st F L) as [st' [A E]].
  assert (R : resolved =
    match call_handler cwd f request parentModule alias (bump_aliasMatches st') with
    | (Ok (JStr s), _) => Ok (JStr (join_strings s rest))
    | (Ok v, _) =>
        match NodePath.join [v; JStr rest] with
        | Ok p => Ok (JStr p)
        | Throw e => Throw e
        end
    | (Throw e, _) => Throw e
    end).
  { unfold resolved. rewrite E. apply resolve_with_handler. now rewrite A. }
  clear E. repeat split.
  - pose proof (call_handler_invalid f request parentModule alias v
                  (bump_aliasMatches st') H H0) as C.
    rewrite R. destruct (call_handler _ _ _ _ _ _) as [r st2]. simpl in C.
    now rewrite C.
  - apply handler_error_names.
  - intros e m He Hm.
    pose proof (call_handler_throws f request parentModule alias e m
                  (bump_aliasMatches st') He Hm) as C.
    rewrite R. destruct (call_handler _ _ _ _ _ _) as [r st2]. simpl in C.
    now rewrite C.
  - intros e He.
    destruct (call_handler_fails f request parentModule alias e
                (bump_aliasMatches st') He) as [e' C].
    exists e'. rewrite R. destruct (call_handler _ _ _ _ _ _) as [r st2].
    simpl in C. now rewrite C.
  - intros s Hs Hne. rewrite R.
    now rewrite (call_handler_valid f request parentModule alias s _ Hs Hne).
Qed.

End ResolverFacts.

Lemma fresh_for_empty now request parentModule st :
  performanceCache st = [] -> fresh_for now request parentModule st.
Proof.
  intros E. unfold fresh_for. rewrite E. split.
  - intros e H. discriminate.
  - intros alias e _ [].
Qed.

(** A request no registered alias matches comes back unchanged when its
    resolution is computed. *)
Lemma resolveAlias_passthrough existsSync cwd now request parentModule st :
  fresh_for now request parentModule st ->
  (forall a, In a (moduleAliasNames st) -> matches request a = false) ->
  fst (resolveAlias existsSync cwd now request parentModule st) = Ok (JStr request).
Proof.
  intros F H.
  destruct (resolveAlias_computed existsSync cwd now request parentModule st F)
    as [st' [_ E]].
  rewrite E, find_none; [reflexivity|].
  intros a Ha. apply H, In_sort_by_length, Ha.
Qed.

(** ** Concrete runs: longest match and handlers *)

Lemma resolve_longest_alias_wins_witness :
  outcome (resolveAlias all_exist work 0 "@a/b/c" None) table_ab = Ok (JStr "/y/c") /\
  outcome (resolveAlias all_exist work 0 "@a/z" None) table_ab = Ok (JStr "/x/z").
Proof.
  apply (proj2 (resolve_longest_alias_wins all_exist work) 0%Z None table_ab).
  - split; [vm_compute; tauto | reflexivity].
  - split; [vm_compute; tauto | reflexivity].
  - vm_compute. intros [H|[H|[]]]; discriminate.
  - vm_compute. intros [H|[H|[]]]; discriminate.
  - apply fresh_for_empty. reflexivity.
  - apply fresh_for_empty. reflexivity.
Defined.

(** A table containing [@a] as [/x] and [@a/b] as [/y] on which [@a/b/c]
    does not resolve to [/y/c]: it also registers [@a/b/c], which is longer
    and matches. *)
Lemma longer_alias_takes_over :
  has_alias table_abc "@a" (JStr "/x") /\
  has_alias table_abc "@a/b" (JStr "/y") /\
  outcome (resolveAlias all_exist work 0 "@a/b/c" None) table_abc = Ok (JStr "/q") /\
  outcome (resolveAlias all_exist work 0 "@a/b/c" None) table_abc <> Ok (JStr "/y/c").
Proof.
  split; [split; [vm_compute; tauto | reflexivity]|].
  split; [split; [vm_compute; tauto | reflexivity]|].
  split; [reflexivity | vm_compute; discriminate].
Qed.

Lemma resolve_custom_handler_witness :
  outcome (resolveAlias all_exist work 0 "@a/b/c" None) (table_with fixed_handler)
  = Ok (JStr "/y/c").
Proof.
  refine (proj2 (proj2 (proj2
    (resolve_custom_handler all_exist work 0%Z "@a/b/c" None "@a/b" fixed_handler
       (table_with fixed_handler) _ _ _))) "/y" _ _).
  - apply fresh_for_empty. reflexivity.
  - split; [vm_compute; tauto|]. split; [reflexivity|].
    intros a Ha _. vm_compute in Ha. destruct Ha as [<-|[<-|[]]]; simpl; lia.
  - reflexivity.
  - reflexivity.
  - discriminate.
Defined.

(** A handler that throws: [resolveAlias] throws the handler's error, whose
    message does not name the alias. *)
Lemma thrown_error_does_not_name_alias :
  longest_match (table_with failing_handler) "@a/b/c" "@a/b" /\
  Js.obj_get "@a/b" (moduleAliases (table_with failing_handler)) = Some (JFun failing_handler) /\
  outcome (resolveAlias all_exist work 0 "@a/b/c" None) (table_with failing_handler)
  = Throw (JErr PlainError "boom") /\
  error_names (JErr PlainError "boom") "@a/b" = false.
Proof.
  split; [|repeat split].
  split; [vm_compute; tauto|]. split; [reflexivity|].
  intros a Ha _. vm_compute in Ha. destruct Ha as [<-|[<-|[]]]; simpl; lia.
Qed.

(** ** Concrete runs: colliding cache keys *)

(** On a miss, [isPathMatchesAlias] answers [true] exactly when [path] starts
    with [alias] and either is [alias] or has a separator right after it. *)
Lemma isPathMatchesAlias_on_miss now path alias st :
  (forall e, JsMap.get (match_key path alias) (performanceCache st) = Some e ->
             ~ live now e) ->
  exists b, outcome (isPathMatchesAlias now path alias) st = Ok (JBool b) /\
    (b = true <->
     (exists rest, path = (alias ++ rest)%string) /\
     (path = alias \/
      exists c, String.get (String.length alias) path = Some c /\ is_separator c = true)).
Proof.
  intros H. exists (matches path alias). split.
  - unfold outcome, isPathMatchesAlias, bind.
    now rewrite getCachedResolution_miss by exact H.
  - rewrite matches_spec, prefix_iff. reflexivity.
Qed.

Lemma matches_boundary :
  matches "@foobar/x" "@foo" = false /\
  matches "@foo/x" "@foo" = true /\
  matches "@foo" "@foo" = true.
Proof. repeat split. Qed.

(** C2: after [isPathMatchesAlias('a:b', 'a:b')], which stores [true] under
    the key [a:b:a:b], the call [isPathMatchesAlias('a', 'b:a:b')] builds the
    same key and answers [true] from the cache one millisecond later,
    although [a] does not start with [b:a:b]. *)
Theorem isPathMatchesAlias_key_collision :
  let st := exec (isPathMatchesAlias 0 "a:b" "a:b") start in
  outcome (isPathMatchesAlias 1 "a" "b:a:b") st = Ok (JBool true) /\
  match_key "a" "b:a:b" = match_key "a:b" "a:b" /\
  matches "a" "b:a:b" = false /\
  String.prefix "b:a:b" "a" = false.
Proof. repeat split. Qed.

(** C8: with no alias registered, [resolveAlias('a:b', {filename: 'c'})]
    stores its answer under [resolve:a:b:c]; the request [a] from the file
    [b:c] builds the same key and comes back as [a:b], not unchanged.
    Likewise a match stored by [isPathMatchesAlias('resolve:lodash',
    'unknown')] is what [resolveAlias('lodash')] returns. *)
Theorem passthrough_key_collision :
  moduleAliasNames start = [] /\
  (let st := exec (resolveAlias all_exist work 0 "a:b" (Some "c")) start in
   outcome (resolveAlias all_exist work 1 "a" (Some "b:c")) st = Ok (JStr "a:b")) /\
  (let st := exec (isPathMatchesAlias 0 "resolve:lodash" "unknown") start in
   outcome (resolveAlias all_exist work 1 "lodash" None) st = Ok (JBool false)).
Proof. repeat split. Qed.

(** ** Stepping through a computation *)

Lemma bind_modify {B} (f : state -> state) (k : unit -> M B) st :
  bind (modify f) k st = k tt (f st).
Proof. reflexivity. Qed.

Lemma bind_gets {A B} (f : state -> A) (k : A -> M B) st :
  bind (gets f) k st = k (f st) st.
Proof. reflexivity. Qed.

Lemma bind_ret {A B} (a : A) (k : A -> M B) st : bind (ret a) k st = k a st.
Proof. reflexivity. Qed.

Lemma bind_lift_Ok {A B} (a : A) (k : A -> M B) st :
  bind (lift (Ok a)) k st = k a st.
Proof. reflexivity. Qed.

Lemma bind_Ok {A B} (m : M A) (k : A -> M B) st v st' :
  bind m k st = (Ok v, st') ->
  exists a st1, m st = (Ok a, st1) /\ k a st1 = (Ok v, st').
Proof.
  unfold bind. destruct (m st) as [[a|e] st1]; [|discriminate].
  intros H. now exists a, st1.
Qed.

Lemma bind_Throw {A B} (m : M A) (k : A -> M B) st e st' :
  bind m k st = (Throw e, st') ->
  m st = (Throw e, st') \/
  exists a st1, m st = (Ok a, st1) /\ k a st1 = (Throw e, st').
Proof.
  unfold bind. destruct (m st) as [[a|e0] st1].
  - intros H. right. exists a, st1. split; [reflexivity | exact H].
  - intros [= -> ->]. left. reflexivity.
Qed.

Lemma bind_log {B} level message data (k : unit -> M B) st :
  bind (log level message data) k st = k tt (snd (log level message data st)).
Proof. reflexivity. Qed.

Lemma for_each_modify {A} (xs : list A) (f : A -> state -> state) st :
  for_each xs (fun x => modify (f x)) st
  = (Ok tt, fold_left (fun s x => f x s) xs st).
Proof.
  revert st; induction xs as [|x xs IH]; intros st; simpl; [reflexivity|].
  rewrite bind_modify. apply IH.
Qed.

Lemma bind_for_each_modify {A B} (xs : list A) (f : A -> state -> state)
  (k : unit -> M B) st :
  bind (for_each xs (fun x => modify (f x))) k st
  = k tt (fold_left (fun s x => f x s) xs st).
Proof. unfold bind. now rewrite for_each_modify. Qed.

(** ** The alias table *)

Lemma addAlias_valid {refused} name target st :
  valid_alias (JStr name) = true -> valid_target target = true ->
  assignable refused st name ->
  addAlias refused (JStr name) target st = (Ok tt, registered name target st).
Proof.
  unfold valid_alias, valid_target, addAlias, assignable. intros Ha Ht Hr.
  apply andb_prop in Ha. destruct Ha as [Ha1 Ha2].
  apply andb_prop in Ht. destruct Ht as [Ht1 Ht2].
  rewrite Ha1, Ha2, Ht1. cbn [negb orb].
  destruct target; simpl in Ht2; try discriminate;
    cbn [Js.is_string Js.is_function negb andb NodePath.normalize Js.to_key];
    unfold bind, lift, ret, assign; cbn [Js.to_key]; rewrite Hr; reflexivity.
Qed.

Lemma addAlias_invalid {refused} alias target st :
  valid_alias alias = false \/ valid_target target = false ->
  exists m, addAlias refused alias target st = (Throw (JErr TypeError m), st).
Proof.
  unfold valid_alias, valid_target, addAlias. intros H.
  destruct (Js.truthy alias) eqn:A1; cbn [negb orb andb] in *;
    [|eexists; reflexivity].
  destruct (Js.is_string alias) eqn:A2; cbn [negb orb andb] in *;
    [|eexists; reflexivity].
  destruct H as [H|H]; [discriminate|].
  destruct (Js.truthy target) eqn:T1; cbn [negb orb andb] in *;
    [|eexists; reflexivity].
  destruct (Js.is_string target), (Js.is_function target); cbn in *;
    try discriminate; eexists; reflexivity.
Qed.

(** An assignment the prototype refuses: the [TypeError] of the assignment,
    and nothing has changed. *)
Lemma addAlias_refused {refused} name target st message :
  valid_alias (JStr name) = true -> valid_target target = true ->
  assign_refused refused name st = Some message ->
  addAlias refused (JStr name) target st = (Throw (JErr TypeError message), st).
Proof.
  unfold valid_alias, valid_target, addAlias. intros Ha Ht Hr.
  apply andb_prop in Ha. destruct Ha as [Ha1 Ha2].
  apply andb_prop in Ht. destruct Ht as [Ht1 Ht2].
  rewrite Ha1, Ha2, Ht1. cbn [negb orb].
  destruct target; simpl in Ht2; try discriminate;
    cbn [Js.is_string Js.is_function negb andb NodePath.normalize Js.to_key];
    unfold bind, lift, ret, assign; cbn [Js.to_key]; rewrite Hr; reflexivity.
Qed.

Lemma registered_table name target st :
  moduleAliases (registered name target st)
  = Js.obj_set name (normalized target) (moduleAliases st) /\
  moduleAliasNames (registered name target st)
  = Js.own_keys (moduleAliases (registered name target st)) /\
  performanceCache (registered name target st) = [].
Proof.
  unfold registered, assigned, exec, emit, log, modify; simpl.
  destruct (negb (debugMode st) && true); simpl; auto.
Qed.

Lemma registered_proto name target st :
  aliasesProto (registered name target st)
  = proto_after name (normalized target) (aliasesProto st).
Proof.
  unfold registered, assigned, exec, emit, log, modify; simpl.
  destruct (negb (debugMode st) && true); reflexivity.
Qed.

Lemma for_each_app {A} (xs ys : list A) (body : A -> M unit) st :
  for_each (xs ++ ys) body st =
  match for_each xs body st with
  | (Ok _, st') => for_each ys body st'
  | (Throw e, st') => (Throw e, st')
  end.
Proof.
  revert st; induction xs as [|x xs IH]; intros st; simpl; [reflexivity|].
  unfold bind. destruct (body x st) as [[[]|e] st1]; [apply IH | reflexivity].
Qed.

Lemma addAliases_body {refused} props k st :
  (target <- lift (Js.get_prop (JObj props) k) ;; addAlias refused (JStr k) target)%js st
  = addAlias refused (JStr k) (target_of props k) st.
Proof.
  unfold bind, lift, target_of; simpl. destruct (Js.obj_get k props); reflexivity.
Qed.

Lemma for_each_register {refused} props ks : forall st,
  (forall k, In k ks -> valid_entry props k = true) ->
  unrefused refused props ks st ->
  for_each ks (fun alias =>
    target <- lift (Js.get_prop (JObj props) alias) ;;
    addAlias refused (JStr alias) target)%js st
  = (Ok tt, register_keys props ks st).
Proof.
  induction ks as [|k ks IH]; intros st H U; [reflexivity|].
  cbn [for_each]. unfold bind at 1. rewrite addAliases_body.
  specialize (H k (or_introl eq_refl)) as Hk. unfold valid_entry in Hk.
  apply andb_prop in Hk. destruct Hk as [Hk1 Hk2].
  destruct U as [U1 U2].
  rewrite (addAlias_valid k _ st Hk1 Hk2 U1). simpl. apply IH; [|exact U2].
  intros k' Hk'. apply H. now right.
Qed.

Lemma normalized_function target :
  Js.is_function (normalized target) = Js.is_function target.
Proof. now destruct target. Qed.

(** A table that has the prototype it was created with refuses nothing, and
    keeps that prototype as long as no function is assigned to
    [__proto__]. *)
Lemma unrefused_plain refused props ks : forall st,
  aliasesProto st = None ->
  (forall k, In k ks -> keeps_prototype props k) ->
  unrefused refused props ks st.
Proof.
  induction ks as [|k ks IH]; intros st P K; [exact I|]. split.
  - unfold assignable, assign_refused. rewrite P.
    destruct (k =? "__proto__"); [reflexivity|].
    now destruct (Js.has_own k (moduleAliases st)).
  - apply IH; [|intros k' Hk'; apply K; now right].
    rewrite registered_proto, P. unfold proto_after.
    destruct (String.eqb_spec k "__proto__") as [E|E]; [|reflexivity].
    pose proof (K k (or_introl eq_refl) E) as F.
    rewrite <- normalized_function in F.
    now destruct (normalized (target_of props k)).
Qed.

(** C4 (as amended): [addAliases] registers the pairs of its argument in
    enumeration order and stops at the first pair [addAlias] rejects, by
    throwing that [TypeError]: a pair that fails the validation or, once a
    function has been put in the place of the table's prototype, a name that
    function refuses. The pairs enumerated before it are registered and stay
    so, the pairs after it are not applied. With every pair accepted, all
    are registered. On a table that has the prototype it was created with,
    and with an argument that holds no function under [__proto__], no name
    is refused, so that validation alone decides. *)
Theorem addAliases_stops_at_first_invalid :
  (forall refused props pre k post st,
      Js.own_keys props = pre ++ k :: post ->
      (forall k', In k' pre -> valid_entry props k' = true) ->
      unrefused refused props pre st ->
      valid_entry props k = false \/
      ~ assignable refused (register_keys props pre st) k ->
      exists m, addAliases refused (JObj props) st
                = (Throw (JErr TypeError m), register_keys props pre st)) /\
  (forall refused props st,
      (forall k, In k (Js.own_keys props) -> valid_entry props k = true) ->
      unrefused refused props (Js.own_keys props) st ->
      addAliases refused (JObj props) st
      = (Ok tt, register_keys props (Js.own_keys props) st)) /\
  (forall name target st,
      moduleAliases (registered name target st)
      = Js.obj_set name (normalized target) (moduleAliases st)) /\
  (forall refused props ks st,
      aliasesProto st = None ->
      (forall k, In k ks -> keeps_prototype props k) ->
      unrefused refused props ks st).
Proof.
  split; [|split; [|split]].
  - intros refused props pre k post st E Hpre U Hk.
    unfold addAliases. cbn [Js.truthy Js.is_object Js.typeof negb orb Js.for_in_keys].
    rewrite E, for_each_app, (for_each_register props pre st Hpre U).
    cbn [for_each]. unfold bind at 1. rewrite addAliases_body.
    set (st1 := register_keys props pre st) in *.
    destruct (valid_entry props k) eqn:V.
    + destruct Hk as [Hk|Hk]; [discriminate|].
      unfold assignable in Hk.
      destruct (assign_refused refused k st1) as [message|] eqn:R;
        [|contradiction Hk; reflexivity].
      unfold valid_entry in V. apply andb_prop in V. destruct V as [V1 V2].
      exists message. now rewrite (addAlias_refused k _ st1 message V1 V2 R).
    + destruct (@addAlias_invalid refused (JStr k) (target_of props k) st1) as [m Em].
      { unfold valid_entry in V. apply andb_false_iff in V. exact V. }
      exists m. now rewrite Em.
  - intros refused props st H U. unfold addAliases.
    cbn [Js.truthy Js.is_object Js.typeof negb orb Js.for_in_keys].
    now apply for_each_register.
  - intros. apply registered_table.
  - apply unrefused_plain.
Qed.

(** ** Search paths *)

Lemma includes_In x l : includes x l = true -> In x l.
Proof.
  unfold includes. intros H. apply existsb_exists in H.
  destruct H as [y [Hy E]]. apply String.eqb_eq in E. now subst.
Qed.

(** C9: [addPath('')] is accepted. [nodePath.normalize] runs before the
    validation and turns the empty string into ['.'], so the test for a
    non-empty string never fires on a string: the call returns normally and
    ['.'] is among the search paths afterwards. *)
Theorem addPath_accepts_empty_string existsSync st :
  NodePath.normalize (JStr "") = Ok "." /\
  outcome (addPath existsSync (JStr "")) st = Ok tt /\
  In "." (modulePaths (exec (addPath existsSync (JStr "")) st)).
Proof.
  split; [reflexivity|].
  unfold outcome, exec, addPath, bind, lift, when, log, emit, modify, gets, ret.
  destruct st as [paths table proto names cache debug ws sts mainP parentP evs].
  cbn -[includes].
  destruct (existsSync "."), debug; cbn -[includes];
    destruct (includes "." paths) eqn:I; cbn -[includes];
    (split; [reflexivity|]);
    first [ now apply includes_In | apply in_or_app; right; now left ].
Qed.

(** The other malformed inputs of the claim are rejected where they enter. *)
Lemma addPath_rejects_non_string existsSync path st :
  Js.is_string path = false ->
  addPath existsSync path st = (Throw NodePath.invalid_arg, st).
Proof. destruct path; try discriminate; reflexivity. Qed.

(** ** Reset *)

Lemma reset_clears st :
  outcome reset st = Ok tt /\
  modulePaths (exec reset st) = [] /\
  moduleAliases (exec reset st) = [] /\
  moduleAliasNames (exec reset st) = [] /\
  performanceCache (exec reset st) = [] /\
  stats (exec reset st) = zero_stats.
Proof.
  unfold outcome, exec, reset, emit.
  rewrite bind_log, bind_gets, bind_for_each_modify, !bind_modify.
  unfold log, modify. cbn [debugMode set_stats push_event].
  match goal with |- context [fold_left ?f ?l ?s] => generalize (fold_left f l s) end.
  intros st1. simpl.
  destruct (negb (debugMode st1) && true); repeat split; reflexivity.
Qed.

(** C10: [reset] also puts the three counters back to zero, so [getStats]
    right after it reports zero resolutions, cache hits, alias matches,
    cache entries, aliases and paths. *)
Theorem reset_zeroes_stats st :
  outcome reset st = Ok tt /\
  getStats (exec reset st)
  = {| ps_resolutions := 0; ps_cacheHits := 0; ps_aliasMatches := 0;
       ps_cacheSize := 0; ps_aliasCount := 0; ps_pathCount := 0 |}.
Proof.
  destruct (reset_clears st) as [R [P [_ [N [C S]]]]].
  split; [exact R|]. unfold getStats. now rewrite P, N, C, S.
Qed.

(** ** Reload *)

Lemma throws_errors_bind {A B} (m : M A) (k : A -> M B) :
  throws_errors m -> (forall a, throws_errors (k a)) -> throws_errors (bind m k).
Proof.
  intros Hm Hk st e st'. unfold bind.
  destruct (m st) as [[a|e1] st1] eqn:E.
  - apply Hk.
  - intros [= <- <-]. eapply Hm, E.
Qed.

Lemma throws_errors_total {A} (m : M A) :
  (forall st, exists a st', m st = (Ok a, st')) -> throws_errors m.
Proof. intros H st e st' E. destruct (H st) as [a [st1 E1]]. congruence. Qed.

Lemma throws_errors_lift {A} (r : result jsval A) :
  (forall e, r = Throw e -> is_error e) -> throws_errors (lift r).
Proof. intros H st e st' [= E _]. now apply H. Qed.

Lemma throws_errors_for_each {A} (xs : list A) (body : A -> M unit) :
  (forall x, throws_errors (body x)) -> throws_errors (for_each xs body).
Proof.
  intros H. induction xs as [|x xs IH]; simpl.
  - intros st e st' [=].
  - apply throws_errors_bind; [apply H | intros _; exact IH].
Qed.

Lemma get_prop_error v k e : Js.get_prop v k = Throw e -> is_error e.
Proof.
  destruct v as [| | | |s|props|ek em|]; simpl; try discriminate;
    try (intros [= <-]; eexists; eexists; reflexivity).
  - destruct (Js.array_index k); discriminate.
  - destruct (Js.obj_get k props); discriminate.
  - destruct (k =? "message"); discriminate.
Qed.

Lemma join_error args p e : NodePath.join_args args p = Throw e -> is_error e.
Proof.
  revert p; induction args as [|a args IH]; intros p; simpl; [discriminate|].
  destruct a as [| | | |s| | |]; try (intros [= <-]; eexists; eexists; reflexivity).
  destruct (s =? ""); apply IH.
Qed.

Lemma addAlias_cases {refused} alias target st :
  (exists name, alias = JStr name /\
     addAlias refused alias target st = (Ok tt, registered name target st)) \/
  (exists m, addAlias refused alias target st = (Throw (JErr TypeError m), st)).
Proof.
  destruct (valid_alias alias) eqn:A.
  - destruct (valid_target target) eqn:T.
    + pose proof A as A'. unfold valid_alias in A'.
      apply andb_prop in A'. destruct A' as [_ A2].
      destruct alias as [| | | |s| | |]; try discriminate A2.
      destruct (assign_refused refused s st) as [message|] eqn:R.
      * right. exists message. now apply addAlias_refused.
      * left. exists s. split; [reflexivity|]. now apply addAlias_valid.
    + right. apply addAlias_invalid. now right.
  - right. apply addAlias_invalid. now left.
Qed.

Lemma addAlias_throws_errors {refused} alias target : throws_errors (addAlias refused alias target).
Proof.
  intros st e st' E. destruct (@addAlias_cases refused alias target st) as [[n [_ H]]|[m H]].
  - congruence.
  - rewrite H in E. injection E as <- _. (eexists; eexists; reflexivity).
Qed.

Lemma reload_entry_throws_errors {refused} base aliases alias :
  throws_errors (reload_entry refused base aliases alias).
Proof.
  unfold reload_entry.
  apply throws_errors_bind; [apply throws_errors_lift, get_prop_error|intros target].
  apply throws_errors_bind; [apply throws_errors_lift, get_prop_error|intros first].
  apply throws_errors_bind; [|intros t; apply addAlias_throws_errors].
  destruct (negb (Js.is_str first "/")).
  - apply throws_errors_bind.
    + apply throws_errors_lift. unfold NodePath.join. intros e.
      destruct (NodePath.join_args _ _) as [[j|]|e'] eqn:J; try discriminate.
      intros [= <-]. eapply join_error, J.
    + intros t. apply throws_errors_total. intros st1. (eexists; eexists; reflexivity).
  - apply throws_errors_total. intros st1. (eexists; eexists; reflexivity).
Qed.

Lemma readable_error e : is_error e -> readable e.
Proof. intros [k [m ->]]. now exists (JStr m). Qed.

Lemma throws_errors_readable {A} (m : M A) : throws_errors m -> throws_readable m.
Proof. intros H st e st' E. eapply readable_error, H, E. Qed.

Lemma throws_readable_bind {A B} (m : M A) (k : A -> M B) :
  throws_readable m -> (forall a, throws_readable (k a)) -> throws_readable (bind m k).
Proof.
  intros Hm Hk st e st'. unfold bind.
  destruct (m st) as [[a|e1] st1] eqn:E.
  - apply Hk.
  - intros [= <- <-]. eapply Hm, E.
Qed.

Lemma log_error message data st :
  log "error" message data st = (Ok tt, push_event (Log "error" message data) st).
Proof. unfold log, modify. now rewrite andb_false_r. Qed.

Lemma log_total level message data st :
  log level message data st = (Ok tt, snd (log level message data st)).
Proof. reflexivity. Qed.

Lemma table_untouched_refl st : table_untouched st st.
Proof. now repeat split. Qed.

Lemma table_untouched_trans a b c :
  table_untouched a b -> table_untouched b c -> table_untouched a c.
Proof.
  intros [T1 [P1 N1]] [T2 [P2 N2]]. repeat split; congruence.
Qed.

Lemma log_table_untouched level message data :
  preserves table_untouched (log level message data).
Proof.
  intros st r st' [= _ <-].
  destruct (negb (debugMode st) && negb (level =? "error")); now repeat split.
Qed.

Lemma getCachedResolution_table_untouched now key :
  preserves table_untouched (getCachedResolution now key).
Proof.
  intros st r st'. unfold getCachedResolution.
  destruct (JsMap.get key (performanceCache st)) as [c|];
    [destruct (now - timestamp c <? 5000)%Z|]; intros [= _ <-]; now repeat split.
Qed.

Ltac keep_table leaf :=
  keep table_untouched_refl table_untouched_trans
       ltac:(first [ apply log_table_untouched
                   | apply getCachedResolution_table_untouched
                   | apply preserves_modify; intros ?st0; now repeat split
                   | leaf ]).

Lemma isPathMatchesAlias_table_untouched now path alias :
  preserves table_untouched (isPathMatchesAlias now path alias).
Proof. unfold isPathMatchesAlias, setCachedResolution. keep_table fail. Qed.

Lemma call_handler_table_untouched cwd f request parentModule alias :
  preserves table_untouched (call_handler cwd f request parentModule alias).
Proof. unfold call_handler. keep_table fail. Qed.

Lemma resolve_with_table_untouched existsSync cwd request parentModule alias :
  preserves table_untouched (resolve_with existsSync cwd request parentModule alias).
Proof.
  unfold resolve_with.
  apply (preserves_bind table_untouched_trans);
    [apply preserves_modify; intros st0; now repeat split|intros _].
  apply (preserves_bind table_untouched_trans);
    [apply (preserves_gets _ table_untouched_refl)|intros aliases].
  apply (preserves_bind table_untouched_trans).
  { destruct (Js.obj_get alias aliases) as [[]|];
      try apply (preserves_ret _ table_untouched_refl).
    apply call_handler_table_untouched. }
  intros target. keep_table fail.
Qed.

Lemma resolve_loop_table_untouched existsSync cwd now request parentModule l :
  preserves table_untouched (resolve_loop existsSync cwd now request parentModule l).
Proof.
  induction l as [|a l IH]; cbn [resolve_loop].
  - apply (preserves_ret _ table_untouched_refl).
  - apply (preserves_bind table_untouched_trans).
    + apply isPathMatchesAlias_table_untouched.
    + intros m. apply preserves_if; [apply resolve_with_table_untouched | exact IH].
Qed.

Lemma resolveAlias_table_untouched existsSync cwd now request parentModule :
  preserves table_untouched (resolveAlias existsSync cwd now request parentModule).
Proof.
  unfold resolveAlias, setCachedResolution.
  keep_table ltac:(apply resolve_loop_table_untouched).
Qed.

Section ReloadFacts.
Variable existsSync : string -> bool.
Variable cwd : string.
Variable refused : handler -> string -> option string.
Variable oldResolveFilename :
  jsval -> option string -> jsval -> jsval -> result jsval string.
Variable moduleFilename : string.

Local Abbreviation hook := (resolveFilename existsSync cwd oldResolveFilename).
Local Abbreviation read := (read_package existsSync cwd oldResolveFilename moduleFilename).
Local Abbreviation reload :=
  (reloadAliases existsSync cwd refused oldResolveFilename moduleFilename).

(** The hook throws nothing but values whose message can be read: what its
    [catch] cannot read the message of is replaced by the [TypeError] of
    that reading. *)
Lemma resolveFilename_throws_readable now request parentModule isMain options :
  throws_readable (hook now request parentModule isMain options).
Proof.
  intros st e st'. unfold resolveFilename, try_catch.
  match goal with |- context [match ?body st with _ => _ end] =>
    destruct (body st) as [[file|e0] st1]
  end; [discriminate|].
  unfold bind at 1, lift at 1.
  destruct (Js.get_prop e0 "message") as [msg|e1] eqn:G.
  - rewrite bind_log. intros [= <- _]. now exists msg.
  - intros [= <- _]. eapply readable_error, get_prop_error, G.
Qed.

Lemma resolveFilename_table_untouched now request parentModule isMain options :
  preserves table_untouched (hook now request parentModule isMain options).
Proof.
  unfold resolveFilename. keep_table ltac:(apply resolveAlias_table_untouched).
Qed.

Lemma resolveFilename_same_table now request parentModule isMain options :
  preserves same_table (hook now request parentModule isMain options).
Proof.
  unfold resolveFilename.
  keep same_table_refl same_table_trans
       ltac:(first [ apply resolveAlias_same_table | apply log_same_table ]).
Qed.

Lemma read_package_throws_readable now path load : throws_readable (read now path load).
Proof.
  unfold read_package, require_resolve, require.
  apply throws_readable_bind; [apply resolveFilename_throws_readable|intros _].
  destruct (path =? "").
  - intros st e st' [= <- _]. now exists (JStr "The argument 'id' must be a non-empty string. Received ''").
  - apply throws_readable_bind; [apply resolveFilename_throws_readable|intros file].
    destruct (load file) as [exports|message].
    + intros st e st' H. discriminate H.
    + intros st e st' [= <- _]. now exists (JStr message).
Qed.

Lemma read_package_table_untouched now path load :
  preserves table_untouched (read now path load).
Proof.
  unfold read_package, require_resolve, require.
  keep_table ltac:(first [ apply resolveFilename_table_untouched
                         | destruct (load _) ]).
Qed.

Lemma read_package_same_table now path load :
  preserves same_table (read now path load).
Proof.
  unfold read_package, require_resolve, require.
  keep same_table_refl same_table_trans
       ltac:(first [ apply resolveFilename_same_table | destruct (load _) ]).
Qed.

(** [reloadAliases] begins with the reading of the package file. *)
Lemma reloadAliases_read_failed now path load st e s1 :
  read now path load st = (Throw e, s1) ->
  exists msg,
    Js.get_prop e "message" = Ok msg /\
    reload now path load st
    = (Ok tt, push_event (Log "error" "Failed to reload aliases" [("error", msg)]) s1).
Proof.
  intros R. destruct (read_package_throws_readable now path load st e s1 R) as [msg G].
  exists msg. split; [exact G|].
  unfold reloadAliases, try_catch. unfold read_package in R.
  apply bind_Throw in R. unfold bind at 1.
  destruct R as [R|[file [sa [R1 R2]]]].
  - rewrite R. unfold bind, lift. rewrite G. apply log_error.
  - rewrite R1. unfold bind at 1. rewrite R2.
    unfold bind, lift. rewrite G. apply log_error.
Qed.

Lemma reloadAliases_read now path load st pkg s1 :
  read now path load st = (Ok pkg, s1) ->
  reload now path load st = register_package refused path pkg (cleared s1).
Proof.
  intros R. unfold reloadAliases, register_package, try_catch.
  unfold read_package in R. apply bind_Ok in R.
  destruct R as [file [sa [R1 R2]]].
  unfold bind at 1. rewrite R1. unfold bind at 1. rewrite R2.
  rewrite !bind_modify. reflexivity.
Qed.

Lemma register_package_never_throws path pkg st :
  fst (register_package refused path pkg st) = Ok tt.
Proof.
  unfold register_package, try_catch.
  match goal with |- context [match ?body st with _ => _ end] =>
    assert (T : throws_errors body); [|destruct (body st) as [[[]|e] st1] eqn:E]
  end.
  - apply throws_errors_bind; [apply throws_errors_lift, get_prop_error|intros declared].
    apply throws_errors_bind;
      [apply throws_errors_for_each; intros x; apply reload_entry_throws_errors|intros _].
    apply throws_errors_total. intros st0. (eexists; eexists; reflexivity).
  - reflexivity.
  - destruct (T _ _ _ E) as [k [m ->]]. reflexivity.
Qed.

Lemma reload_never_throws now path load st :
  fst (reload now path load st) = Ok tt.
Proof.
  destruct (read now path load st) as [[pkg|e] s1] eqn:R.
  - rewrite (reloadAliases_read now path load st pkg s1 R).
    apply register_package_never_throws.
  - destruct (reloadAliases_read_failed now path load st e s1 R) as [msg [_ H]].
    now rewrite H.
Qed.

End ReloadFacts.

(** An entry that fails changes nothing. *)
Lemma reload_entry_throw_state {refused} base aliases alias st e st' :
  reload_entry refused base aliases alias st = (Throw e, st') -> st' = st.
Proof.
  unfold reload_entry. intros H.
  apply bind_Throw in H. destruct H as [H|[t [s1 [H1 H]]]];
    [now injection H | injection H1 as _ <-].
  apply bind_Throw in H. destruct H as [H|[f [s1 [H1 H]]]];
    [now injection H | injection H1 as _ <-].
  apply bind_Throw in H. destruct H as [H|[t' [s1 [H1 H]]]].
  - destruct (negb (Js.is_str f "/")); [|discriminate H].
    apply bind_Throw in H. destruct H as [H|[j [s2 [_ H]]]];
      [now injection H | discriminate H].
  - assert (s1 = st) as ->.
    { destruct (negb (Js.is_str f "/")); [|now injection H1].
      apply bind_Ok in H1. destruct H1 as [j [s2 [H2 H3]]].
      injection H2 as _ <-. now injection H3. }
    destruct (@addAlias_cases refused (JStr alias) t' st) as [[n [_ E]]|[m E]];
      rewrite E in H; [discriminate H | now injection H].
Qed.

Lemma register_package_stops refused path pkg aliases pre k post s0 st1 e st2 :
  declared_aliases pkg = Ok aliases ->
  Js.for_in_keys aliases = pre ++ k :: post ->
  for_each pre (reload_entry refused (NodePath.dirname path) aliases) s0 = (Ok tt, st1) ->
  reload_entry refused (NodePath.dirname path) aliases k st1 = (Throw e, st2) ->
  exists kind message,
    e = JErr kind message /\
    register_package refused path pkg s0
    = (Ok tt, push_event (Log "error" "Failed to reload aliases"
                            [("error", JStr message)]) st1).
Proof.
  intros D K Hpre Hk.
  pose proof (reload_entry_throw_state _ _ _ _ _ _ Hk) as ->.
  destruct (reload_entry_throws_errors _ _ _ _ _ _ Hk) as [ek [em ->]].
  exists ek, em. split; [reflexivity|].
  unfold declared_aliases in D.
  destruct (Js.get_prop pkg "_moduleAliases") as [declared|] eqn:G; [|discriminate].
  injection D as D.
  unfold register_package, try_catch.
  rewrite G, bind_lift_Ok, D.
  unfold bind at 1. rewrite K, for_each_app, Hpre.
  cbn [for_each]. unfold bind at 1. rewrite Hk.
  unfold bind, lift. cbn [Js.get_prop String.eqb Ascii.eqb Bool.eqb].
  apply log_error.
Qed.

(** C5 (as amended): a reload never throws. The package file is read
    through the manager's own loader hook, which resolves its path like any
    other request and so may count resolutions, fill the cache and log a
    failed resolution. When the file cannot be resolved, read or parsed,
    the alias table, its prototype and the alias names are exactly those
    from before, and the failure is logged as an error on top of what the
    reading left. Once the file has been read, the table, the names and
    the cache are emptied before any entry is added, so that what follows
    is the registration of the package on an empty table: an entry that
    then fails is logged as an error too, and leaves the state the entries
    enumerated before it had built, with none of the old entries. *)
Theorem reload_failure_is_reported :
  (forall existsSync cwd refused oldResolveFilename moduleFilename now path load st,
      outcome (reloadAliases existsSync cwd refused oldResolveFilename moduleFilename
                 now path load) st = Ok tt) /\
  (forall existsSync cwd refused oldResolveFilename moduleFilename now path load st
          e s1,
      read_package existsSync cwd oldResolveFilename moduleFilename now path load st
      = (Throw e, s1) ->
      table_untouched st s1 /\
      exists msg,
        Js.get_prop e "message" = Ok msg /\
        exec (reloadAliases existsSync cwd refused oldResolveFilename moduleFilename
                now path load) st
        = push_event (Log "error" "Failed to reload aliases" [("error", msg)]) s1) /\
  (forall existsSync cwd refused oldResolveFilename moduleFilename now path load st
          pkg s1,
      read_package existsSync cwd oldResolveFilename moduleFilename now path load st
      = (Ok pkg, s1) ->
      reloadAliases existsSync cwd refused oldResolveFilename moduleFilename
        now path load st
      = register_package refused path pkg (cleared s1)) /\
  (forall refused path pkg aliases pre k post s0 st1 e st2,
      declared_aliases pkg = Ok aliases ->
      Js.for_in_keys aliases = pre ++ k :: post ->
      for_each pre (reload_entry refused (NodePath.dirname path) aliases) (cleared s0)
      = (Ok tt, st1) ->
      reload_entry refused (NodePath.dirname path) aliases k st1 = (Throw e, st2) ->
      exists kind message,
        e = JErr kind message /\
        register_package refused path pkg (cleared s0)
        = (Ok tt, push_event (Log "error" "Failed to reload aliases"
                                [("error", JStr message)]) st1)).
Proof.
  split; [|split; [|split]].
  - intros. apply reload_never_throws.
  - intros existsSync cwd refused oldResolveFilename moduleFilename now path load st
           e s1 R.
    split; [exact (read_package_table_untouched _ _ _ _ _ _ _ _ _ _ R)|].
    destruct (reloadAliases_read_failed existsSync cwd refused oldResolveFilename
                moduleFilename now path load st e s1 R) as [msg [G H]].
    exists msg. split; [exact G|]. unfold exec. now rewrite H.
  - intros. now apply reloadAliases_read.
  - intros refused path pkg aliases pre k post s0 st1 e st2.
    apply register_package_stops.
Qed.

Lemma reload_failure_is_reported_witness :
  moduleAliases
    (exec (reloadAliases all_exist work function_refusals plain_loader own_module
             0 "/p/package.json" (fun _ => Ok broken_package)) table_ab)
  = [("@new", JStr "/p/lib")].
Proof.
  pose (read := read_package all_exist work plain_loader own_module
                  0 "/p/package.json" (fun _ => Ok broken_package) table_ab).
  unfold exec.
  rewrite (proj1 (proj2 (proj2 reload_failure_is_reported))
             all_exist work function_refusals plain_loader own_module
             0%Z "/p/package.json" (fun _ => Ok broken_package) table_ab
             broken_package (snd read) eq_refl).
  destruct (proj2 (proj2 (proj2 reload_failure_is_reported))
              function_refusals "/p/package.json" broken_package
              (JObj [("@new", JStr "lib"); ("@bad", JNull)])
              ["@new"] "@bad" [] (snd read)
              (exec (for_each ["@new"]
                       (reload_entry function_refusals "/p"
                          (JObj [("@new", JStr "lib"); ("@bad", JNull)])))
                    (cleared (snd read)))
              (Js.cannot_read "null" "0")
              (exec (for_each ["@new"]
                       (reload_entry function_refusals "/p"
                          (JObj [("@new", JStr "lib"); ("@bad", JNull)])))
                    (cleared (snd read)))
              eq_refl eq_refl eq_refl eq_refl) as [kind [message [_ H]]].
  rewrite H. reflexivity.
Defined.

(** A package file that parses but gives [@bad] no target: the reload logs
    the failure, and the table is neither the old one nor the new one, it
    holds [@new] alone. *)
Lemma reload_partial_replace :
  let run :=
    reloadAliases all_exist work function_refusals plain_loader own_module
      0 "/p/package.json" (fun _ => Ok broken_package) in
  let st := exec run table_ab in
  moduleAliases table_ab = [("@a", JStr "/x"); ("@a/b", JStr "/y")] /\
  outcome run table_ab = Ok tt /\
  moduleAliases st = [("@new", JStr "/p/lib")] /\
  moduleAliases st <> moduleAliases table_ab /\
  In (Log "error" "Failed to reload aliases"
        [("error", JStr "Cannot read properties of null (reading '0')")]) (emitted st).
Proof.
  repeat split; try reflexivity.
  - vm_compute. discriminate.
  - vm_compute. tauto.
Qed.

(** ** Concrete runs: [addAliases] *)

Lemma addAliases_stops_at_first_invalid_witness :
  exists m, addAliases function_refusals (JObj half_valid) start
            = (Throw (JErr TypeError m), register_keys half_valid ["@a"] start).
Proof.
  apply (proj1 addAliases_stops_at_first_invalid function_refusals half_valid
           ["@a"] "@b" [] start).
  - reflexivity.
  - intros k' [<-|[]]. reflexivity.
  - split; [reflexivity | exact I].
  - left. reflexivity.
Defined.

(** A mapping whose second pair is invalid: the call throws and the first
    pair is in the table. *)
Lemma addAliases_partial_commit :
  Js.for_in_keys (JObj half_valid) = ["@a"; "@b"] /\
  valid_target (JStr "") = false /\
  outcome (addAliases function_refusals (JObj half_valid)) start
  = Throw (JErr TypeError "Target must be a non-empty string or function") /\
  moduleAliases start = [] /\
  has_alias (exec (addAliases function_refusals (JObj half_valid)) start) "@a" (JStr "/x").
Proof.
  repeat split. vm_compute. tauto.
Qed.

(** ** Cache hits and invalidation *)

Section CacheFacts.
Variable existsSync : string -> bool.
Variable cwd : string.





End CacheFacts.

Lemma untouched_or_invalidated_refl st : untouched_or_invalidated st st.
Proof. now left. Qed.

Lemma untouched_or_invalidated_trans a b c :
  untouched_or_invalidated a b -> untouched_or_invalidated b c ->
  untouched_or_invalidated a c.
Proof.
  unfold untouched_or_invalidated. intros [->|H1] [->|H2]; auto.
Qed.

Lemma keeps_cache_empty_refl st : keeps_cache_empty st st.
Proof. intros H. exact H. Qed.

Lemma keeps_cache_empty_trans a b c :
  keeps_cache_empty a b -> keeps_cache_empty b c -> keeps_cache_empty a c.
Proof. unfold keeps_cache_empty. auto. Qed.

Lemma addAlias_invalidates {refused} alias target :
  preserves untouched_or_invalidated (addAlias refused alias target).
Proof.
  intros st r st' E.
  destruct (@addAlias_cases refused alias target st) as [[n [_ H]]|[m H]];
    rewrite H in E; injection E as _ <-.
  - right. apply registered_table.
  - now left.
Qed.

Lemma addAlias_keeps_cache_empty {refused} alias target :
  preserves keeps_cache_empty (addAlias refused alias target).
Proof.
  intros st r st' E. destruct (addAlias_invalidates alias target st r st' E) as [->|H].
  - apply keeps_cache_empty_refl.
  - intros _. exact H.
Qed.

Lemma addAliases_invalidates {refused} aliases :
  preserves untouched_or_invalidated (addAliases refused aliases).
Proof.
  unfold addAliases.
  keep untouched_or_invalidated_refl untouched_or_invalidated_trans
       ltac:(apply addAlias_invalidates).
Qed.

Lemma log_keeps_cache_empty level message data :
  preserves keeps_cache_empty (log level message data).
Proof.
  intros st r st' [= _ <-]. unfold keeps_cache_empty.
  destruct (negb (debugMode st) && negb (level =? "error")); auto.
Qed.

Lemma register_package_keeps_cache_empty refused path pkg :
  preserves keeps_cache_empty (register_package refused path pkg).
Proof.
  unfold register_package, reload_entry, emit.
  keep keeps_cache_empty_refl keeps_cache_empty_trans
       ltac:(first [ apply addAlias_keeps_cache_empty
                   | apply log_keeps_cache_empty
                   | apply preserves_modify; intros st0 H0; exact H0 ]).
Qed.

Lemma reload_read_invalidates existsSync cwd refused oldResolveFilename moduleFilename
  now path load st pkg s1 :
  read_package existsSync cwd oldResolveFilename moduleFilename now path load st
  = (Ok pkg, s1) ->
  performanceCache
    (exec (reloadAliases existsSync cwd refused oldResolveFilename moduleFilename
             now path load) st) = [].
Proof.
  intros R. unfold exec.
  rewrite (reloadAliases_read existsSync cwd refused oldResolveFilename moduleFilename
             now path load st pkg s1 R).
  destruct (register_package refused path pkg (cleared s1)) as [r st'] eqn:E.
  exact (register_package_keeps_cache_empty refused path pkg _ _ _ E eq_refl).
Qed.




(** ** The bound of the cache *)

Lemma cache_put_new_room now key v cache :
  JsMap.has key cache = false -> (JsMap.size cache < 1000)%nat ->
  cache_put now key v cache = cache ++ [(key, {| value := v; timestamp := now |})].
Proof.
  intros H L. unfold cache_put, JsMap.set. rewrite H.
  unfold JsMap.size in *. rewrite length_app. simpl.
  destruct (Nat.ltb_spec 1000 (List.length cache + 1)); [lia | reflexivity].
Qed.

Lemma cache_put_new_full now key v k0 e0 rest :
  JsMap.has key ((k0, e0) :: rest) = false ->
  JsMap.size ((k0, e0) :: rest) = 1000%nat ->
  cache_put now key v ((k0, e0) :: rest)
  = rest ++ [(key, {| value := v; timestamp := now |})].
Proof.
  intros H L. unfold cache_put, JsMap.set. rewrite H.
  unfold JsMap.size in *. rewrite length_app, L.
  cbn [List.length Nat.add Nat.ltb Nat.leb].
  replace (1000 <? 1000 + 1)%nat with true by (symmetry; apply Nat.ltb_lt; lia).
  cbn [app JsMap.first_key JsMap.delete]. now rewrite String.eqb_refl.
Qed.

Lemma cache_put_existing now key v cache :
  JsMap.has key cache = true -> (JsMap.size cache <= 1000)%nat ->
  cache_put now key v cache
  = JsMap.replace key {| value := v; timestamp := now |} cache.
Proof.
  intros H L. unfold cache_put, JsMap.set. rewrite H.
  rewrite JsMapFacts.size_replace.
  destruct (Nat.ltb_spec 1000 (JsMap.size cache)); [lia | reflexivity].
Qed.

Lemma put_all_app puts1 puts2 st :
  put_all (puts1 ++ puts2) st = put_all puts2 (put_all puts1 st).
Proof. unfold put_all. apply fold_left_app. Qed.

(** While there is room, distinct new keys line up behind the old ones. *)
Lemma put_all_keys puts : forall st,
  NoDup (JsMap.keys (performanceCache st) ++ map put_key puts) ->
  (JsMap.size (performanceCache st) + List.length puts <= 1000)%nat ->
  JsMap.keys (performanceCache (put_all puts st))
  = JsMap.keys (performanceCache st) ++ map put_key puts.
Proof.
  induction puts as [|[[now key] v] puts IH]; intros st N L.
  - simpl. now rewrite app_nil_r.
  - change (put_all ((now, key, v) :: puts) st)
      with (put_all puts (exec (setCachedResolution now key v) st)).
    set (st1 := exec (setCachedResolution now key v) st).
    assert (C : performanceCache st1
                = performanceCache st ++ [(key, {| value := v; timestamp := now |})]).
    { unfold st1, exec, setCachedResolution, modify; cbn [snd performanceCache set_performanceCache fst].
      apply cache_put_new_room.
      - apply JsMapFacts.has_keys. intros Hin.
        apply NoDup_remove_2 in N. apply N. apply in_or_app. now left.
      - simpl in L. lia. }
    rewrite IH; rewrite C.
    + unfold JsMap.keys. rewrite map_app, <- app_assoc. reflexivity.
    + unfold JsMap.keys. rewrite map_app, <- app_assoc. exact N.
    + unfold JsMap.size. rewrite length_app. simpl in *. unfold JsMap.size in L. lia.
Qed.

(** C7: a put on a store of at most 1000 entries leaves at most 1000
    entries; a put of a new key on a full store evicts exactly the entry at
    the front, the oldest inserted, and admits the new one at the back; a put
    on a key already present replaces its value where it stands and evicts
    nothing, and a lookup does not reorder the store, so age is insertion
    order, not recency of use; 1001 puts of distinct keys into an empty store
    leave 1000 entries, the keys of the last 1000 puts, without the first
    key. *)
Theorem cache_is_bounded_fifo :
  (forall now key v st,
      cache_bounded st -> cache_bounded (exec (setCachedResolution now key v) st)) /\
  (forall now key v st k0 e0 rest,
      performanceCache st = (k0, e0) :: rest ->
      JsMap.size (performanceCache st) = 1000%nat ->
      JsMap.has key (performanceCache st) = false ->
      performanceCache (exec (setCachedResolution now key v) st)
      = rest ++ [(key, {| value := v; timestamp := now |})]) /\
  (forall now key v st,
      cache_bounded st ->
      JsMap.has key (performanceCache st) = true ->
      performanceCache (exec (setCachedResolution now key v) st)
      = JsMap.replace key {| value := v; timestamp := now |} (performanceCache st)) /\
  (forall now key st,
      performanceCache (exec (getCachedResolution now key) st) = performanceCache st) /\
  (forall first puts st,
      performanceCache st = [] ->
      NoDup (map put_key (first :: puts)) ->
      List.length puts = 1000%nat ->
      let st' := put_all (first :: puts) st in
      JsMap.size (performanceCache st') = 1000%nat /\
      JsMap.has (put_key first) (performanceCache st') = false /\
      JsMap.keys (performanceCache st') = map put_key puts).
Proof.
  repeat apply conj.
  - intros now key v st B. apply size_cache_put, B.
  - intros now key v st k0 e0 rest E S H.
    unfold exec, setCachedResolution, modify; cbn [snd performanceCache set_performanceCache].
    rewrite E in *. now apply cache_put_new_full.
  - intros now key v st B H.
    unfold exec, setCachedResolution, modify; cbn [snd performanceCache set_performanceCache].
    now apply cache_put_existing.
  - intros now key st. apply getCachedResolution_cache.
  - intros first puts st E N L st'.
    assert (Hne : puts <> []) by (intros ->; discriminate).
    pose proof (app_removelast_last first Hne) as Hsplit.
    set (body := removelast puts) in *. set (final := last puts first) in *.
    assert (Lb : List.length body = 999%nat).
    { rewrite Hsplit, length_app in L. simpl in L. lia. }
    assert (K : JsMap.keys (performanceCache (put_all (first :: body) st))
                = map put_key (first :: body)).
    { rewrite put_all_keys; rewrite E; simpl.
      - reflexivity.
      - rewrite Hsplit, app_comm_cons, map_app in N.
        apply NoDup_app_remove_r in N. exact N.
      - lia. }
    unfold st'. rewrite Hsplit, app_comm_cons, put_all_app.
    set (st1 := put_all (first :: body) st) in *.
    destruct final as [[now key] v] eqn:F.
    change (put_all [(now, key, v)] st1)
      with (exec (setCachedResolution now key v) st1).
    unfold exec, setCachedResolution, modify; cbn [snd fst performanceCache set_performanceCache].
    destruct (performanceCache st1) as [|[k0 e0] rest] eqn:C; [discriminate K|].
    cbn [JsMap.keys map] in K. injection K as K0 Krest.
    assert (Lrest : List.length rest = 999%nat).
    { apply (f_equal (@List.length _)) in Krest. rewrite !length_map in Krest. lia. }
    assert (Nsplit : NoDup (put_key first :: map put_key body ++ [key])).
    { rewrite Hsplit in N. cbn [map] in N. rewrite map_app in N. exact N. }
    assert (Hnew : JsMap.has key ((k0, e0) :: rest) = false).
    { apply JsMapFacts.has_keys. unfold JsMap.keys. cbn [map fst].
      rewrite Krest, K0. intros Hin.
      rewrite app_comm_cons in Nsplit. apply NoDup_remove_2 in Nsplit.
      apply Nsplit. rewrite app_nil_r. exact Hin. }
    rewrite cache_put_new_full; [|exact Hnew|unfold JsMap.size; simpl; lia].
    repeat split.
    + unfold JsMap.size. rewrite length_app. simpl. lia.
    + apply JsMapFacts.has_keys. unfold JsMap.keys. rewrite map_app, Krest.
      cbn [map fst]. now apply NoDup_cons_iff in Nsplit.
    + unfold JsMap.keys. rewrite map_app, Krest. cbn [map fst].
      now rewrite map_app.
Qed.

Lemma nodupb_NoDup l : nodupb l = true -> NoDup l.
Proof.
  induction l as [|x l IH]; simpl; [constructor|].
  intros H. apply andb_prop in H. destruct H as [H1 H2].
  constructor; [|now apply IH].
  intros Hin. apply negb_true_iff in H1.
  assert (E : includes x l = true).
  { unfold includes. apply existsb_exists. exists x. split; [exact Hin|].
    apply String.eqb_refl. }
  congruence.
Qed.

Lemma cache_is_bounded_fifo_witness :
  let st' := put_all (first_put :: thousand_puts) start in
  JsMap.size (performanceCache st') = 1000%nat /\
  JsMap.has (put_key first_put) (performanceCache st') = false /\
  JsMap.keys (performanceCache st') = map put_key thousand_puts.
Proof.
  apply (proj2 (proj2 (proj2 (proj2 cache_is_bounded_fifo))) first_put thousand_puts start).
  - reflexivity.
  - apply nodupb_NoDup. vm_compute. reflexivity.
  - vm_compute. reflexivity.
Defined.

(** The bound holds in the initial state and every method keeps it. *)
Lemma initial_bounded debug main parents : cache_bounded (initial debug main parents).
Proof. unfold cache_bounded. simpl. lia. Qed.

Lemma invalidated_bounded st st' :
  untouched_or_invalidated st st' -> keeps_bound st st'.
Proof.
  intros [->|E] B; [exact B|]. unfold cache_bounded. rewrite E. simpl. lia.
Qed.

Lemma methods_keep_bound (existsSync : string -> bool) (cwd : string)
  (refused : handler -> string -> option string)
  (oldResolveFilename :
     jsval -> option string -> jsval -> jsval -> result jsval string)
  (moduleFilename : string) :
  (forall now path alias, preserves keeps_bound (isPathMatchesAlias now path alias)) /\
  (forall now request parentModule,
      preserves keeps_bound (resolveAlias existsSync cwd now request parentModule)) /\
  (forall alias target, preserves keeps_bound (addAlias refused alias target)) /\
  (forall aliases, preserves keeps_bound (addAliases refused aliases)) /\
  (forall now path load,
      preserves keeps_bound
        (reloadAliases existsSync cwd refused oldResolveFilename moduleFilename
           now path load)) /\
  preserves keeps_bound reset.
Proof.
  repeat apply conj.
  - intros now path alias st r st' E.
    exact (proj2 (proj2 (proj2 (proj2
      (isPathMatchesAlias_same_table now path alias st r st' E))))).
  - intros now request parentModule st r st' E.
    exact (proj2 (proj2 (proj2 (proj2
      (resolveAlias_same_table existsSync cwd now request parentModule st r st' E))))).
  - intros alias target st r st' E.
    apply invalidated_bounded, (addAlias_invalidates alias target st r st' E).
  - intros aliases st r st' E.
    apply invalidated_bounded, (addAliases_invalidates aliases st r st' E).
  - intros now path load st r st' E B.
    destruct (read_package existsSync cwd oldResolveFilename moduleFilename
                now path load st) as [[pkg|e] s1] eqn:R.
    + pose proof (reload_read_invalidates existsSync cwd refused oldResolveFilename
                    moduleFilename now path load st pkg s1 R) as C.
      unfold exec in C. rewrite E in C. simpl in C.
      unfold cache_bounded. rewrite C. simpl. lia.
    + destruct (reloadAliases_read_failed existsSync cwd refused oldResolveFilename
                  moduleFilename now path load st e s1 R) as [msg [_ H]].
      rewrite H in E. injection E as _ <-.
      exact (proj2 (proj2 (proj2 (proj2
        (read_package_same_table existsSync cwd oldResolveFilename moduleFilename
           now path load st _ _ R)))) B).
  - intros st r st' E B. destruct (reset_clears st) as [_ [_ [_ [_ [C _]]]]].
    unfold exec in C. rewrite E in C. simpl in C.
    unfold cache_bounded. rewrite C. simpl. lia.
Qed.

(** * Further properties *)

(** ** Normalized paths are fixed points of [normalize] *)

Lemma chars_app (a b : string) :
  list_ascii_of_string (a ++ b) = list_ascii_of_string a ++ list_ascii_of_string b.
Proof. induction a as [|c a IH]; simpl; [reflexivity | now rewrite IH]. Qed.

Lemma split_aux_free (cs : list ascii) : forall cur,
  Forall (fun c => c <> NodePath.slash) cs ->
  NodePath.split_aux cur cs = [rev cur ++ cs].
Proof.
  induction cs as [|c cs IH]; intros cur F; simpl.
  - now rewrite app_nil_r.
  - inversion F as [|? ? Hc Hcs]; subst.
    apply Ascii.eqb_neq in Hc. rewrite Hc, IH by exact Hcs.
    simpl. now rewrite <- app_assoc.
Qed.

Lemma split_aux_slash (cs : list ascii) : forall cur rest,
  Forall (fun c => c <> NodePath.slash) cs ->
  NodePath.split_aux cur (cs ++ NodePath.slash :: rest)
  = (rev cur ++ cs) :: NodePath.split_aux [] rest.
Proof.
  induction cs as [|c cs IH]; intros cur rest F; simpl.
  - rewrite ?Ascii.eqb_refl. now rewrite app_nil_r.
  - inversion F as [|? ? Hc Hcs]; subst.
    apply Ascii.eqb_neq in Hc. rewrite Hc, IH by exact Hcs.
    simpl. now rewrite <- app_assoc.
Qed.

Lemma split_aux_slash_free (cs : list ascii) : forall cur,
  Forall (fun c => c <> NodePath.slash) cur ->
  Forall (Forall (fun c => c <> NodePath.slash)) (NodePath.split_aux cur cs).
Proof.
  induction cs as [|c cs IH]; intros cur F; simpl.
  - constructor; [|constructor]. now apply Forall_rev.
  - destruct (Ascii.eqb_spec c NodePath.slash) as [->|n].
    + constructor; [now apply Forall_rev | apply IH; constructor].
    + apply IH. now constructor.
Qed.

Lemma segments_slash_free (path : string) : Forall slash_free (NodePath.segments path).
Proof.
  unfold NodePath.segments. apply Forall_map.
  eapply Forall_impl; [|apply (split_aux_slash_free _ []); constructor].
  intros cs F. unfold slash_free. now rewrite list_ascii_of_string_of_list_ascii.
Qed.

Lemma chars_concat (x y : string) (ys : list string) :
  list_ascii_of_string (String.concat "/" (x :: y :: ys))
  = list_ascii_of_string x
      ++ NodePath.slash :: list_ascii_of_string (String.concat "/" (y :: ys)).
Proof. cbn [String.concat]. now rewrite chars_app. Qed.

Lemma split_concat (S : list string) : forall rest,
  S <> [] -> Forall slash_free S ->
  NodePath.split_aux []
    (list_ascii_of_string (String.concat "/" S) ++ NodePath.slash :: rest)
  = map list_ascii_of_string S ++ NodePath.split_aux [] rest.
Proof.
  induction S as [|x [|y ys] IH]; intros rest Hne F; [contradiction| |].
  - inversion F; subst. cbn [String.concat map app]. now rewrite split_aux_slash.
  - inversion F as [|? ? Hx Hrest]; subst.
    rewrite chars_concat, <- app_assoc. cbn [app].
    rewrite split_aux_slash by exact Hx.
    cbn [rev app map]. f_equal. apply IH; [discriminate | exact Hrest].
Qed.

Lemma split_concat_end (S : list string) :
  S <> [] -> Forall slash_free S ->
  NodePath.split_aux [] (list_ascii_of_string (String.concat "/" S))
  = map list_ascii_of_string S.
Proof.
  induction S as [|x [|y ys] IH]; intros Hne F; [contradiction| |].
  - inversion F; subst. cbn [String.concat map]. now rewrite split_aux_free.
  - inversion F as [|? ? Hx Hrest]; subst.
    rewrite chars_concat, split_aux_slash by exact Hx.
    cbn [rev app map]. f_equal. apply IH; [discriminate | exact Hrest].
Qed.

Lemma map_string_of_chars (S : list string) :
  map string_of_list_ascii (map list_ascii_of_string S) = S.
Proof.
  induction S as [|x S IH]; simpl; [reflexivity|].
  now rewrite string_of_list_ascii_of_string, IH.
Qed.

(** The segments of an assembled path are the segments it was made of. *)
Lemma segments_assembled (S : list string) (absolute trailing : bool) :
  S <> [] -> Forall slash_free S ->
  NodePath.segments
    ((if absolute then "/" else "")
       ++ (if trailing then String.concat "/" S ++ "/" else String.concat "/" S))%string
  = (if absolute then [""] else []) ++ S ++ (if trailing then [""] else []).
Proof.
  intros Hne F. unfold NodePath.segments.
  assert (E : NodePath.split_aux []
                (list_ascii_of_string
                   (if trailing then String.concat "/" S ++ "/" else String.concat "/" S)%string)
              = map list_ascii_of_string S ++ (if trailing then [[]] else [])).
  { destruct trailing.
    - rewrite chars_app. cbn [list_ascii_of_string].
      now rewrite split_concat.
    - rewrite app_nil_r. now apply split_concat_end. }
  destruct absolute.
  - cbn [String.append list_ascii_of_string NodePath.split_aux].
    change ("/"%char =? NodePath.slash)%char with true. cbn [rev map app].
    rewrite E, map_app, map_string_of_chars. f_equal. f_equal. now destruct trailing.
  - cbn [String.append]. rewrite E, map_app, map_string_of_chars.
    cbn [app]. f_equal. now destruct trailing.
Qed.

Lemma normalize_segments_tidy allow (segs : list string) : forall stack,
  Forall slash_free segs -> tidy allow stack ->
  tidy allow (NodePath.normalize_segments allow segs stack).
Proof.
  induction segs as [|seg segs IH]; intros stack F T; [exact T|].
  inversion F as [|? ? Hseg Hsegs]; subst. cbn [NodePath.normalize_segments].
  destruct (String.eqb_spec seg "") as [->|N1]; [now apply IH|].
  destruct (String.eqb_spec seg ".") as [->|N2]; [now apply IH|].
  cbn [orb].
  destruct (String.eqb_spec seg "..") as [->|N3].
  - destruct T as [plains [dots [-> [Hp [Hd Ha]]]]].
    destruct plains as [|top plains]; cbn [app].
    + destruct dots as [|d dots].
      * apply IH; [exact Hsegs|]. destruct allow.
        -- exists [], [".."]. repeat split; auto. discriminate.
        -- exists [], []. repeat split; auto.
      * inversion Hd as [|? ? Hd1 Hd2]; subst. rewrite String.eqb_refl.
        apply IH; [exact Hsegs|]. destruct allow.
        -- exists [], (".." :: ".." :: dots). repeat split; auto. discriminate.
        -- exists [], (".." :: dots). repeat split; auto.
    + inversion Hp as [|? ? Htop Hplains]; subst.
      destruct Htop as [_ [_ [Htop _]]].
      apply String.eqb_neq in Htop. rewrite Htop.
      apply IH; [exact Hsegs|]. exists plains, dots. repeat split; auto.
  - apply IH; [exact Hsegs|].
    destruct T as [plains [dots [-> [Hp [Hd Ha]]]]].
    exists (seg :: plains), dots. repeat split; auto.
    constructor; [|exact Hp]. repeat split; auto.
Qed.

Lemma normalize_segments_dots (D : list string) : forall rest acc,
  Forall (eq "..") D -> Forall (eq "..") acc ->
  NodePath.normalize_segments true (D ++ rest) acc
  = NodePath.normalize_segments true rest (rev D ++ acc).
Proof.
  induction D as [|d D IH]; intros rest acc HD Hacc; [reflexivity|].
  inversion HD as [|? ? Hd HD']; subst. cbn [app NodePath.normalize_segments].
  change (".." =? "") with false. change (".." =? ".") with false.
  cbn [orb]. rewrite String.eqb_refl.
  assert (E : NodePath.normalize_segments true (D ++ rest) (".." :: acc)
              = NodePath.normalize_segments true rest (rev (".." :: D) ++ acc)).
  { rewrite IH by (auto; constructor; auto). cbn [rev]. now rewrite <- app_assoc. }
  destruct acc as [|top acc]; [exact E|].
  inversion Hacc; subst. rewrite String.eqb_refl. exact E.
Qed.

Lemma normalize_segments_plain allow (N : list string) : forall rest acc,
  Forall plain N ->
  NodePath.normalize_segments allow (N ++ rest) acc
  = NodePath.normalize_segments allow rest (rev N ++ acc).
Proof.
  induction N as [|x N IH]; intros rest acc HN; [reflexivity|].
  inversion HN as [|? ? [H1 [H2 [H3 _]]] HN']; subst.
  cbn [app NodePath.normalize_segments].
  apply String.eqb_neq in H1, H2, H3. rewrite H1, H2, H3. cbn [orb].
  rewrite IH by exact HN'. cbn [rev]. now rewrite <- app_assoc.
Qed.

(** Normalizing the segments of a tidy stack, bottom first, rebuilds it. *)
Lemma normalize_segments_rebuild allow (stack rest : list string) :
  tidy allow stack ->
  NodePath.normalize_segments allow (rev stack ++ rest) []
  = NodePath.normalize_segments allow rest stack.
Proof.
  intros [plains [dots [-> [Hp [Hd Ha]]]]].
  rewrite rev_app_distr, <- app_assoc.
  assert (E : NodePath.normalize_segments allow (rev dots ++ rev plains ++ rest) []
              = NodePath.normalize_segments allow (rev plains ++ rest) dots).
  { destruct allow.
    - rewrite normalize_segments_dots; [|now apply Forall_rev|constructor].
      now rewrite rev_involutive, app_nil_r.
    - rewrite (Ha eq_refl). reflexivity. }
  rewrite E, normalize_segments_plain by now apply Forall_rev.
  now rewrite rev_involutive.
Qed.

Lemma tidy_nil allow : tidy allow [].
Proof. exists [], []. repeat split; auto. Qed.

Lemma tidy_segments allow (stack : list string) :
  tidy allow stack -> Forall (fun s => s <> "" /\ slash_free s) stack.
Proof.
  intros [plains [dots [-> [Hp [Hd _]]]]]. apply Forall_app. split.
  - eapply Forall_impl; [|exact Hp]. intros s [H1 [_ [_ H4]]]. now split.
  - eapply Forall_impl; [|exact Hd]. intros s <-. split; [discriminate|].
    repeat constructor; discriminate.
Qed.

Lemma starts_with_slash_app (a b : string) :
  a <> "" -> NodePath.starts_with_slash (a ++ b) = NodePath.starts_with_slash a.
Proof. destruct a; [contradiction | reflexivity]. Qed.

Lemma starts_with_slash_free (s : string) :
  slash_free s -> NodePath.starts_with_slash s = false.
Proof.
  destruct s as [|c s]; [reflexivity|]. intros F. inversion F; subst.
  now apply Ascii.eqb_neq.
Qed.

Lemma ends_with_slash_app (a b : string) :
  b <> "" -> NodePath.ends_with_slash (a ++ b) = NodePath.ends_with_slash b.
Proof.
  intros Hb. induction a as [|c a IH]; [reflexivity|].
  cbn [String.append NodePath.ends_with_slash].
  destruct (a ++ b)%string eqn:E; [|exact IH].
  destruct a; [simpl in E; congruence | discriminate].
Qed.

Lemma ends_with_slash_free (s : string) :
  slash_free s -> NodePath.ends_with_slash s = false.
Proof.
  induction s as [|c s IH]; [reflexivity|]. intros F. inversion F; subst.
  cbn [NodePath.ends_with_slash]. destruct s; [now apply Ascii.eqb_neq | now apply IH].
Qed.

Lemma concat_cons (x : string) (xs : list string) :
  String.concat "/" (x :: xs)
  = (x ++ match xs with [] => "" | _ => "/" ++ String.concat "/" xs end)%string.
Proof.
  destruct xs; cbn [String.concat]; [|reflexivity].
  induction x as [|c x IH]; [reflexivity|]. cbn [String.append]. now rewrite <- IH.
Qed.

Lemma concat_not_empty (S : list string) :
  S <> [] -> Forall (fun s => s <> "" /\ slash_free s) S -> String.concat "/" S <> "".
Proof.
  destruct S as [|x xs]; [contradiction|]. intros _ F. inversion F as [|? ? [Hx _] _]; subst.
  rewrite concat_cons. destruct x; [contradiction | discriminate].
Qed.

Lemma concat_starts (S : list string) :
  S <> [] -> Forall (fun s => s <> "" /\ slash_free s) S ->
  NodePath.starts_with_slash (String.concat "/" S) = false.
Proof.
  destruct S as [|x xs]; [contradiction|]. intros _ F.
  inversion F as [|? ? [Hx Fx] _]; subst.
  rewrite concat_cons, starts_with_slash_app by exact Hx.
  now apply starts_with_slash_free.
Qed.

Lemma concat_ends (S : list string) :
  S <> [] -> Forall (fun s => s <> "" /\ slash_free s) S ->
  NodePath.ends_with_slash (String.concat "/" S) = false.
Proof.
  induction S as [|x [|y ys] IH]; intros Hne F; [contradiction| |].
  - inversion F as [|? ? [_ Fx] _]; subst. now apply ends_with_slash_free.
  - inversion F as [|? ? _ F']; subst.
    change (String.concat "/" (x :: y :: ys))
      with (x ++ "/" ++ String.concat "/" (y :: ys))%string.
    rewrite ends_with_slash_app by discriminate.
    rewrite (ends_with_slash_app "/").
    + apply IH; [discriminate | exact F'].
    + apply concat_not_empty; [discriminate | exact F'].
Qed.

(** [normalize] leaves what it returned as it is: a second normalization
    changes nothing. *)
Lemma normalize_string_idempotent (path : string) :
  NodePath.normalize_string (NodePath.normalize_string path)
  = NodePath.normalize_string path.
Proof.
  unfold NodePath.normalize_string at 2 3.
  destruct (path =? ""); [reflexivity|].
  set (absolute := NodePath.starts_with_slash path).
  set (trailing := NodePath.ends_with_slash path).
  unfold NodePath.normalizeString.
  set (stack := NodePath.normalize_segments (negb absolute) (NodePath.segments path) []).
  assert (T : tidy (negb absolute) stack).
  { apply normalize_segments_tidy; [apply segments_slash_free | apply tidy_nil]. }
  destruct (rev stack) as [|x xs] eqn:R.
  { cbn [String.concat String.eqb]. destruct absolute, trailing; reflexivity. }
  assert (Hne : rev stack <> []) by (rewrite R; discriminate).
  assert (F : Forall (fun s => s <> "" /\ slash_free s) (rev stack)).
  { apply Forall_rev. eapply tidy_segments, T. }
  rewrite <- R.
  set (p := String.concat "/" (rev stack)).
  assert (Hp : p <> "") by (apply concat_not_empty; assumption).
  apply String.eqb_neq in Hp. rewrite Hp.
  assert (A : (if absolute
               then ("/" ++ (if trailing then p ++ "/" else p))%string
               else if trailing then (p ++ "/")%string else p)
              = ((if absolute then "/" else "")
                   ++ (if trailing then p ++ "/" else p))%string).
  { now destruct absolute. }
  rewrite A. set (r := ((if absolute then "/" else "")
                          ++ (if trailing then p ++ "/" else p))%string).
  assert (Hs : NodePath.starts_with_slash r = absolute).
  { unfold r. destruct absolute; [reflexivity|]. cbn [String.append].
    destruct trailing.
    - rewrite starts_with_slash_app by (now apply String.eqb_neq).
      now apply concat_starts.
    - now apply concat_starts. }
  assert (Hp' : (if trailing then p ++ "/" else p)%string <> "").
  { apply String.eqb_neq in Hp. destruct trailing; [|exact Hp].
    destruct p; [contradiction | discriminate]. }
  assert (He : NodePath.ends_with_slash r = trailing).
  { unfold r. rewrite ends_with_slash_app by exact Hp'. destruct trailing.
    - now rewrite ends_with_slash_app by discriminate.
    - now apply concat_ends. }
  assert (Hr : r <> "").
  { unfold r. destruct absolute; [discriminate | exact Hp']. }
  assert (Hseg : NodePath.normalize_segments (negb absolute) (NodePath.segments r) []
                 = stack).
  { unfold r, p. rewrite segments_assembled.
    - assert (E : NodePath.normalize_segments (negb absolute)
                    (rev stack ++ (if trailing then [""] else [])) [] = stack).
      { rewrite normalize_segments_rebuild by exact T. now destruct trailing. }
      destruct absolute; exact E.
    - exact Hne.
    - eapply Forall_impl; [|exact F]. now intros s [_ H]. }
  unfold NodePath.normalize_string, NodePath.normalizeString.
  apply String.eqb_neq in Hr. rewrite Hr, Hs, He, Hseg.
  fold p. rewrite Hp. exact A.
Qed.

(** ** Plain objects *)

Lemma obj_get_In {A} k (v : A) props : Js.obj_get k props = Some v -> In (k, v) props.
Proof.
  induction props as [|[k' v'] props IH]; simpl; [discriminate|].
  destruct (String.eqb_spec k' k) as [->|n].
  - intros [= ->]. now left.
  - intros H. right. now apply IH.
Qed.

Lemma obj_get_none {A} k (props : list (string * A)) :
  Js.obj_get k props = None <-> ~ In k (map fst props).
Proof.
  induction props as [|[k' v'] props IH]; simpl; [tauto|].
  destruct (String.eqb_spec k' k) as [->|n].
  - split; [discriminate | intros H; exfalso; apply H; now left].
  - rewrite IH. split; [intros H [E|E]; [congruence | tauto] | tauto].
Qed.

Lemma obj_get_replace_same {A} k (v : A) props :
  Js.has_own k props = true -> Js.obj_get k (Js.obj_replace k v props) = Some v.
Proof.
  unfold Js.has_own. induction props as [|[k0 v0] props IH]; simpl; [discriminate|].
  destruct (String.eqb_spec k0 k) as [->|n]; simpl.
  - now rewrite String.eqb_refl.
  - intros H. apply String.eqb_neq in n. rewrite n. now apply IH.
Qed.

Lemma obj_get_replace_other {A} k (v : A) props k' :
  k' <> k -> Js.obj_get k' (Js.obj_replace k v props) = Js.obj_get k' props.
Proof.
  intros n. induction props as [|[k0 v0] props IH]; simpl; [reflexivity|].
  destruct (String.eqb_spec k0 k) as [->|n0]; simpl.
  - apply not_eq_sym, String.eqb_neq in n. now rewrite n.
  - destruct (k0 =? k'); [reflexivity | exact IH].
Qed.

Lemma obj_get_app {A} k (props props' : list (string * A)) :
  Js.obj_get k (props ++ props')
  = match Js.obj_get k props with Some v => Some v | None => Js.obj_get k props' end.
Proof.
  induction props as [|[k0 v0] props IH]; simpl; [reflexivity|].
  destruct (k0 =? k); [reflexivity | exact IH].
Qed.

Lemma obj_get_set_same {A} k (v : A) props :
  k <> "__proto__" -> Js.obj_get k (Js.obj_set k v props) = Some v.
Proof.
  intros n. unfold Js.obj_set. apply String.eqb_neq in n. rewrite n.
  destruct (Js.has_own k props) eqn:H.
  - now apply obj_get_replace_same.
  - unfold Js.has_own in H. rewrite obj_get_app.
    destruct (Js.obj_get k props); [discriminate|]. simpl. now rewrite String.eqb_refl.
Qed.

Lemma obj_get_set_other {A} k (v : A) props k' :
  k' <> k -> Js.obj_get k' (Js.obj_set k v props) = Js.obj_get k' props.
Proof.
  intros n. unfold Js.obj_set. destruct (k =? "__proto__"); [reflexivity|].
  destruct (Js.has_own k props).
  - now apply obj_get_replace_other.
  - rewrite obj_get_app. destruct (Js.obj_get k' props); [reflexivity|].
    simpl. apply not_eq_sym, String.eqb_neq in n. now rewrite n.
Qed.

Lemma In_obj_replace {A} k (v : A) props k' v' :
  In (k', v') (Js.obj_replace k v props) -> (k' = k /\ v' = v) \/ In (k', v') props.
Proof.
  induction props as [|[k0 v0] props IH]; simpl; [tauto|].
  destruct (String.eqb_spec k0 k) as [->|n]; simpl.
  - intros [[= <- <-]|H]; [left; tauto | right; tauto].
  - intros [H|H]; [right; tauto|]. destruct (IH H); tauto.
Qed.

Lemma In_obj_set {A} k (v : A) props k' v' :
  In (k', v') (Js.obj_set k v props) -> (k' = k /\ v' = v) \/ In (k', v') props.
Proof.
  unfold Js.obj_set. destruct (k =? "__proto__"); [tauto|].
  destruct (Js.has_own k props).
  - apply In_obj_replace.
  - intros H. apply in_app_or in H. destruct H as [H|[[= <- <-]|[]]]; tauto.
Qed.

Lemma In_insert_index x y l : In x (Js.insert_index y l) <-> x = y \/ In x l.
Proof.
  induction l as [|z l IH]; simpl.
  - intuition.
  - destruct (fst y <=? fst z)%N; simpl; rewrite ?IH; intuition.
Qed.

Lemma In_index_keys n k ks :
  In (n, k) (Js.index_keys ks) <-> In k ks /\ Js.array_index k = Some n.
Proof.
  induction ks as [|k0 ks IH]; simpl; [tauto|].
  destruct (Js.array_index k0) as [n0|] eqn:E.
  - rewrite In_insert_index, IH. split.
    + intros [[= -> ->]|[H1 H2]]; [split; [now left | exact E] | tauto].
    + intros [[->|H1] H2]; [left; congruence | tauto].
  - rewrite IH. split; [tauto|]. intros [[->|H1] H2]; [congruence | tauto].
Qed.

(** [Object.keys] lists every own key, and nothing else. *)
Lemma In_own_keys {A} k (props : list (string * A)) :
  In k (Js.own_keys props) <-> In k (map fst props).
Proof.
  unfold Js.own_keys. rewrite in_app_iff, filter_In, in_map_iff. split.
  - intros [[[n k'] [E H]]|[H _]]; [|exact H].
    simpl in E. subst k'. now apply In_index_keys in H.
  - intros H. unfold Js.is_named. destruct (Js.array_index k) as [n|] eqn:E.
    + left. exists (n, k). split; [reflexivity|]. now apply In_index_keys.
    + right. now split.
Qed.

(** ** The invariant of the table *)

Lemma keeps_refl (P : state -> Prop) st : keeps P st st.
Proof. intros H. exact H. Qed.

Lemma keeps_trans (P : state -> Prop) a b c :
  keeps P a b -> keeps P b c -> keeps P a c.
Proof. unfold keeps. auto. Qed.

Lemma table_same_refl st : table_same st st.
Proof. now split. Qed.

Lemma table_same_trans a b c : table_same a b -> table_same b c -> table_same a c.
Proof. unfold table_same. intuition congruence. Qed.

Lemma table_same_wf st st' : table_same st st' -> keeps table_wf st st'.
Proof.
  intros [T N] [S O]. split.
  - unfold names_sync. now rewrite N, T.
  - unfold table_ok. now rewrite T.
Qed.

Lemma normalize_string_not_empty path : NodePath.normalize_string path <> "".
Proof.
  unfold NodePath.normalize_string.
  destruct (path =? ""); [discriminate|].
  destruct (NodePath.normalizeString path _ =? "") eqn:E.
  - destruct (NodePath.starts_with_slash path), (NodePath.ends_with_slash path);
      discriminate.
  - apply String.eqb_neq in E.
    destruct (NodePath.starts_with_slash path); [discriminate|].
    destruct (NodePath.ends_with_slash path); [|exact E].
    destruct (NodePath.normalizeString path _); [contradiction | discriminate].
Qed.

Lemma valid_alias_name alias :
  valid_alias alias = true <-> exists s, alias = JStr s /\ s <> "".
Proof.
  unfold valid_alias. split.
  - intros H. apply andb_prop in H. destruct H as [H1 H2].
    destruct alias as [| | | |s| | |]; try discriminate. exists s. split; [reflexivity|].
    simpl in H1. apply negb_true_iff in H1. now apply String.eqb_neq.
  - intros [s [-> H]]. simpl. apply String.eqb_neq in H. now rewrite H.
Qed.

Lemma valid_target_shape target :
  valid_target target = true <->
  (exists s, target = JStr s /\ s <> "") \/ (exists f, target = JFun f).
Proof.
  unfold valid_target. split.
  - intros H. apply andb_prop in H. destruct H as [H1 H2].
    destruct target as [| | | |s| | |f]; try discriminate.
    + left. exists s. split; [reflexivity|].
      simpl in H1. apply negb_true_iff in H1. now apply String.eqb_neq.
    + right. now exists f.
  - intros [[s [-> H]]|[f ->]]; simpl; [|reflexivity].
    apply String.eqb_neq in H. now rewrite H.
Qed.

Lemma registered_wf name target st :
  valid_alias (JStr name) = true -> valid_target target = true ->
  table_wf st -> table_wf (registered name target st).
Proof.
  intros Ha Ht [S O]. destruct (registered_table name target st) as [T [N _]].
  split; [exact N|]. unfold table_ok. rewrite T. intros n t H.
  apply In_obj_set in H. destruct H as [[-> ->]|H]; [|now apply O].
  apply valid_alias_name in Ha. destruct Ha as [s [[= <-] Hs]].
  split; [exact Hs|].
  apply valid_target_shape in Ht. destruct Ht as [[t [-> Hne]]|[f ->]].
  - right. exists (NodePath.normalize_string t). split; [reflexivity|]. split.
    + apply normalize_string_not_empty.
    + apply normalize_string_idempotent.
  - left. now exists f.
Qed.

Lemma addAlias_keeps_wf {refused} alias target :
  preserves (keeps table_wf) (addAlias refused alias target).
Proof.
  intros st r st' E W.
  destruct (valid_alias alias) eqn:A; [destruct (valid_target target) eqn:T|].
  - pose proof A as A'. apply valid_alias_name in A'. destruct A' as [s [-> _]].
    destruct (assign_refused refused s st) as [message|] eqn:R.
    + rewrite (addAlias_refused s target st message A T R) in E.
      injection E as _ <-. exact W.
    + rewrite (addAlias_valid s target st A T R) in E. injection E as _ <-.
      now apply registered_wf.
  - destruct (@addAlias_invalid refused alias target st (or_intror T)) as [m H].
    rewrite H in E. injection E as _ <-. exact W.
  - destruct (@addAlias_invalid refused alias target st (or_introl A)) as [m H].
    rewrite H in E. injection E as _ <-. exact W.
Qed.

Lemma log_table_same level message data : preserves table_same (log level message data).
Proof.
  intros st r st' [= _ <-]. unfold table_same.
  destruct (negb (debugMode st) && negb (level =? "error")); split; reflexivity.
Qed.

Lemma log_keeps_wf level message data : preserves (keeps table_wf) (log level message data).
Proof.
  intros st r st' E. eapply table_same_wf, log_table_same, E.
Qed.

Ltac keep_wf leaf :=
  keep (keeps_refl table_wf) (keeps_trans table_wf)
       ltac:(first [ apply addAlias_keeps_wf
                   | apply log_keeps_wf
                   | apply preserves_modify; intros ?st0; apply table_same_wf;
                     split; reflexivity
                   | leaf ]).

Lemma addAliases_keeps_wf {refused} aliases :
  preserves (keeps table_wf) (addAliases refused aliases).
Proof. unfold addAliases. keep_wf fail. Qed.

Lemma cleared_wf st : table_wf (cleared st).
Proof. split; [reflexivity | intros n t []]. Qed.

Lemma register_package_keeps_wf refused path pkg :
  preserves (keeps table_wf) (register_package refused path pkg).
Proof. unfold register_package, reload_entry, emit. keep_wf fail. Qed.

Lemma same_table_wf st st' : same_table st st' -> keeps table_wf st st'.
Proof. intros [T [N _]]. apply table_same_wf. now split. Qed.

Lemma resolveAlias_keeps_wf existsSync cwd now request parentModule :
  preserves (keeps table_wf) (resolveAlias existsSync cwd now request parentModule).
Proof.
  intros st r st' E. eapply same_table_wf, resolveAlias_same_table, E.
Qed.

Lemma isPathMatchesAlias_keeps_wf now path alias :
  preserves (keeps table_wf) (isPathMatchesAlias now path alias).
Proof.
  intros st r st' E. eapply same_table_wf, isPathMatchesAlias_same_table, E.
Qed.

Lemma addPath_keeps_wf existsSync path : preserves (keeps table_wf) (addPath existsSync path).
Proof. unfold addPath, emit. keep_wf fail. Qed.

Lemma reset_wf st : table_wf (exec reset st).
Proof.
  destruct (reset_clears st) as [_ [_ [T [N _]]]]. split.
  - unfold names_sync. now rewrite T, N.
  - unfold table_ok. rewrite T. intros n t [].
Qed.

Lemma setDebugMode_keeps_wf enabled : preserves (keeps table_wf) (setDebugMode enabled).
Proof. unfold setDebugMode. keep_wf fail. Qed.

Lemma watchPackageJson_keeps_wf path watch :
  preserves (keeps table_wf) (watchPackageJson path watch).
Proof. unfold watchPackageJson. keep_wf ltac:(destruct watch). Qed.

Lemma reloadAliases_keeps_wf existsSync cwd refused oldResolveFilename moduleFilename
  now path load :
  preserves (keeps table_wf)
    (reloadAliases existsSync cwd refused oldResolveFilename moduleFilename
       now path load).
Proof.
  intros st r st' E W.
  destruct (read_package existsSync cwd oldResolveFilename moduleFilename
              now path load st) as [[pkg|e] s1] eqn:R.
  - rewrite (reloadAliases_read existsSync cwd refused oldResolveFilename
               moduleFilename now path load st pkg s1 R) in E.
    exact (register_package_keeps_wf refused path pkg _ _ _ E (cleared_wf s1)).
  - destruct (reloadAliases_read_failed existsSync cwd refused oldResolveFilename
                moduleFilename now path load st e s1 R) as [msg [_ H]].
    rewrite H in E. injection E as _ <-.
    assert (W1 : table_wf s1).
    { revert W. eapply same_table_wf, read_package_same_table, R. }
    revert W1. apply table_same_wf. split; reflexivity.
Qed.

Lemma on_watch_event_keeps_wf existsSync cwd refused oldResolveFilename moduleFilename
  now path eventType load :
  preserves (keeps table_wf)
    (on_watch_event existsSync cwd refused oldResolveFilename moduleFilename
       now path eventType load).
Proof. unfold on_watch_event. keep_wf ltac:(apply reloadAliases_keeps_wf). Qed.

Lemma resolveFilename_keeps_wf existsSync cwd oldResolveFilename now request
  parentModule isMain options :
  preserves (keeps table_wf)
    (resolveFilename existsSync cwd oldResolveFilename now request parentModule
       isMain options).
Proof. unfold resolveFilename. keep_wf ltac:(apply resolveAlias_keeps_wf). Qed.

(** X1: the table is well formed in the initial state and every method
    keeps it so, whether it returns or throws: the alias names are exactly
    the keys of the table, every name is a non-empty string, and every
    target is a function or a non-empty string that [normalize] leaves
    unchanged. *)
Theorem table_stays_well_formed :
  (forall debug main parents, table_wf (initial debug main parents)) /\
  (forall refused alias target st r st',
      addAlias refused alias target st = (r, st') -> table_wf st -> table_wf st') /\
  (forall refused aliases st r st',
      addAliases refused aliases st = (r, st') -> table_wf st -> table_wf st') /\
  (forall existsSync cwd refused oldResolveFilename moduleFilename now path load
          st r st',
      reloadAliases existsSync cwd refused oldResolveFilename moduleFilename
        now path load st = (r, st') ->
      table_wf st -> table_wf st') /\
  (forall st, table_wf (exec reset st)) /\
  (forall existsSync cwd now request parentModule st r st',
      resolveAlias existsSync cwd now request parentModule st = (r, st') ->
      table_wf st -> table_wf st') /\
  (forall now path alias st r st',
      isPathMatchesAlias now path alias st = (r, st') -> table_wf st -> table_wf st') /\
  (forall existsSync path st r st',
      addPath existsSync path st = (r, st') -> table_wf st -> table_wf st') /\
  (forall enabled st r st',
      setDebugMode enabled st = (r, st') -> table_wf st -> table_wf st') /\
  (forall path watch st r st',
      watchPackageJson path watch st = (r, st') -> table_wf st -> table_wf st') /\
  (forall existsSync cwd refused oldResolveFilename moduleFilename now path
          eventType load st r st',
      on_watch_event existsSync cwd refused oldResolveFilename moduleFilename
        now path eventType load st = (r, st') ->
      table_wf st -> table_wf st') /\
  (forall existsSync cwd oldResolveFilename now request parentModule isMain options
          st r st',
      resolveFilename existsSync cwd oldResolveFilename now request parentModule
        isMain options st = (r, st') ->
      table_wf st -> table_wf st').
Proof.
  repeat apply conj.
  - intros. split; [reflexivity | intros n t []].
  - intros refused alias target. apply addAlias_keeps_wf.
  - intros refused aliases. apply addAliases_keeps_wf.
  - intros existsSync cwd refused oldResolveFilename moduleFilename now path load.
    apply reloadAliases_keeps_wf.
  - apply reset_wf.
  - intros existsSync cwd now request parentModule. apply resolveAlias_keeps_wf.
  - intros now path alias. apply isPathMatchesAlias_keeps_wf.
  - intros existsSync path. apply addPath_keeps_wf.
  - intros enabled. apply setDebugMode_keeps_wf.
  - intros path watch. apply watchPackageJson_keeps_wf.
  - intros existsSync cwd refused oldResolveFilename moduleFilename now path
           eventType load.
    apply on_watch_event_keeps_wf.
  - intros existsSync cwd oldResolveFilename now request parentModule isMain options.
    apply resolveFilename_keeps_wf.
Qed.

Lemma table_stays_well_formed_witness : table_wf table_ab.
Proof.
  refine (proj1 (proj2 table_stays_well_formed) function_refusals
            (JStr "@a/b") (JStr "/y")
            (exec (addAlias function_refusals (JStr "@a") (JStr "/x")) start)
            (Ok tt) table_ab _ _).
  - reflexivity.
  - refine (proj1 (proj2 table_stays_well_formed) function_refusals
              (JStr "@a") (JStr "/x") start (Ok tt) _ _ _).
    + reflexivity.
    + apply (proj1 table_stays_well_formed).
Defined.

(** ** [addAlias]: what is accepted, what is found afterwards *)

(** A table that has the prototype it was created with takes every
    assignment. *)
Lemma assignable_plain refused st name :
  aliasesProto st = None -> assignable refused st name.
Proof.
  intros P. unfold assignable, assign_refused. rewrite P.
  destruct (name =? "__proto__"); [reflexivity|].
  now destruct (Js.has_own name (moduleAliases st)).
Qed.

(** X2: [addAlias] accepts exactly a non-empty string as name together with
    a non-empty string or a function as target, provided the table takes the
    assignment, and then leaves the state [registered] describes; every
    other input makes it throw a [TypeError] and leaves the whole state,
    cache included, as it was. A table that has the prototype it was created
    with takes every assignment. Once a function has been registered under
    [__proto__], that function is the table's prototype, and a valid name
    the table does not own and the function refuses (such as [name] or
    [length]) is rejected with the [TypeError] of the assignment. *)
Theorem addAlias_accepts_exactly refused alias target st :
  ((exists name,
       alias = JStr name /\ name <> "" /\
       ((exists t, target = JStr t /\ t <> "") \/ (exists f, target = JFun f)) /\
       assignable refused st name /\
       addAlias refused alias target st = (Ok tt, registered name target st))
   \/
   (~ (exists name,
         alias = JStr name /\ name <> "" /\
         ((exists t, target = JStr t /\ t <> "") \/ (exists f, target = JFun f)) /\
         assignable refused st name) /\
    exists m, addAlias refused alias target st = (Throw (JErr TypeError m), st)))
  /\
  (aliasesProto st = None -> forall name, assignable refused st name)
  /\
  (forall name f message,
      alias = JStr name -> name <> "" -> name <> "__proto__" ->
      valid_target target = true ->
      aliasesProto st = Some f ->
      Js.has_own name (moduleAliases st) = false ->
      refused f name = Some message ->
      addAlias refused alias target st = (Throw (JErr TypeError message), st)).
Proof.
  split; [|split].
  - destruct (valid_alias alias) eqn:A; [destruct (valid_target target) eqn:T|].
    + pose proof A as A'. apply valid_alias_name in A'.
      destruct A' as [s [-> Hs]].
      destruct (assign_refused refused s st) as [message|] eqn:R.
      * right. split; [|exists message; now apply addAlias_refused].
        intros [name [E [_ [_ H]]]]. injection E as <-.
        unfold assignable in H. congruence.
      * left. exists s. repeat split; auto.
        -- now apply valid_target_shape.
        -- now apply addAlias_valid.
    + right. split; [|apply addAlias_invalid; now right].
      intros [name [_ [_ [H _]]]]. apply valid_target_shape in H. congruence.
    + right. split; [|apply addAlias_invalid; now left].
      intros [name [E [Hn _]]].
      assert (valid_alias alias = true) by (apply valid_alias_name; eauto).
      congruence.
  - intros P name. now apply assignable_plain.
  - intros name f message -> Hn Hp Ht P O R.
    apply addAlias_refused; [apply valid_alias_name; eauto | exact Ht |].
    unfold assign_refused. apply String.eqb_neq in Hp. now rewrite Hp, O, P.
Qed.

Lemma addAlias_accepts_exactly_witness :
  let st := exec (addAlias function_refusals (JStr "__proto__") (JFun fixed_handler))
              start in
  exists message,
    addAlias function_refusals (JStr "name") (JStr "/x") st
    = (Throw (JErr TypeError message), st).
Proof.
  intros st. eexists.
  refine (proj2 (proj2 (addAlias_accepts_exactly function_refusals
                          (JStr "name") (JStr "/x") st))
            "name" fixed_handler _ _ _ _ _ _ _ _).
  - reflexivity.
  - discriminate.
  - discriminate.
  - reflexivity.
  - reflexivity.
  - reflexivity.
  - reflexivity.
Defined.

Lemma substr_length s : Js.substr (String.length s) s = "".
Proof. induction s as [|c s IH]; [reflexivity | exact IH]. Qed.

Lemma addAlias_registers {refused} name target st :
  name <> "" -> name <> "__proto__" -> valid_target target = true ->
  assignable refused st name ->
  has_alias (exec (addAlias refused (JStr name) target) st) name (normalized target) /\
  performanceCache (exec (addAlias refused (JStr name) target) st) = [].
Proof.
  intros Hn Hp Ht Hr.
  assert (A : valid_alias (JStr name) = true) by (apply valid_alias_name; eauto).
  unfold exec. rewrite (addAlias_valid name target st A Ht Hr). cbn [snd].
  destruct (registered_table name target st) as [T [N C]].
  split; [split|exact C].
  - rewrite N. apply In_own_keys. rewrite T.
    apply (in_map fst _ (name, normalized target)).
    apply obj_get_In. now apply obj_get_set_same.
  - rewrite T. now apply obj_get_set_same.
Qed.

(** X3: after [addAlias(name, target)] with valid arguments, on a table that
    takes the assignment: for a name other than [__proto__] the table
    registers [name] with the target (normalized when it is a string) and
    keeps its prototype; every other name keeps the target it had, and no
    name is lost. The name [__proto__] is accepted too, but the assignment
    creates no own property: the own properties are left as they were, a
    function target becomes the table's prototype, and a string target is
    dropped. *)
Theorem addAlias_then_lookup refused name target st :
  name <> "" -> valid_target target = true -> assignable refused st name ->
  let st' := exec (addAlias refused (JStr name) target) st in
  (name <> "__proto__" ->
     has_alias st' name (normalized target) /\
     aliasesProto st' = aliasesProto st) /\
  (forall other, other <> name ->
     Js.obj_get other (moduleAliases st') = Js.obj_get other (moduleAliases st)) /\
  (forall other v, Js.obj_get other (moduleAliases st) = Some v ->
     In other (moduleAliasNames st')) /\
  (name = "__proto__" ->
     moduleAliases st' = moduleAliases st /\
     aliasesProto st' = match target with
                        | JFun f => Some f
                        | _ => aliasesProto st
                        end).
Proof.
  intros Hn Ht Hr st'.
  assert (A : valid_alias (JStr name) = true) by (apply valid_alias_name; eauto).
  assert (E : st' = registered name target st).
  { unfold st', exec. now rewrite (addAlias_valid name target st A Ht Hr). }
  destruct (registered_table name target st) as [T [N _]].
  pose proof (registered_proto name target st) as P.
  rewrite E. split; [|split; [|split]].
  - intros Hp. split; [split|].
    + rewrite N. apply In_own_keys. rewrite T.
      apply (in_map fst _ (name, normalized target)).
      apply obj_get_In. now apply obj_get_set_same.
    + rewrite T. now apply obj_get_set_same.
    + rewrite P. unfold proto_after. apply String.eqb_neq in Hp. now rewrite Hp.
  - intros other Ho. rewrite T. now apply obj_get_set_other.
  - intros other v Ho. rewrite N. apply In_own_keys. rewrite T.
    destruct (String.eqb_spec other name) as [->|n].
    + destruct (String.eqb_spec name "__proto__") as [Q|Q].
      * unfold Js.obj_set. apply String.eqb_eq in Q. rewrite Q.
        apply (in_map fst _ (name, v)). now apply obj_get_In.
      * apply (in_map fst _ (name, normalized target)).
        apply obj_get_In. now apply obj_get_set_same.
    + apply (in_map fst _ (other, v)). apply obj_get_In.
      rewrite obj_get_set_other by exact n. exact Ho.
  - intros ->. split; [rewrite T; reflexivity|].
    rewrite P. unfold proto_after. cbn [String.eqb Ascii.eqb Bool.eqb].
    now destruct target.
Qed.

Lemma addAlias_then_lookup_witness :
  has_alias (exec (addAlias function_refusals (JStr "@lib") (JStr "/srv//lib/")) table_ab)
    "@lib" (JStr "/srv/lib/") /\
  aliasesProto
    (exec (addAlias function_refusals (JStr "__proto__") (JFun fixed_handler)) table_ab)
  = Some fixed_handler.
Proof.
  split.
  - refine (proj1 (proj1 (addAlias_then_lookup function_refusals
                            "@lib" (JStr "/srv//lib/") table_ab _ _ _) _)).
    + discriminate.
    + reflexivity.
    + reflexivity.
    + discriminate.
  - refine (proj2 (proj2 (proj2 (proj2
              (addAlias_then_lookup function_refusals
                 "__proto__" (JFun fixed_handler) table_ab _ _ _))) _)).
    + discriminate.
    + reflexivity.
    + reflexivity.
    + reflexivity.
Defined.

Lemma append_empty_r (s : string) : (s ++ "")%string = s.
Proof. induction s as [|c s IH]; [reflexivity | simpl; now rewrite IH]. Qed.

Lemma prefix_refl (s : string) : String.prefix s s = true.
Proof. rewrite <- (append_empty_r s) at 2. apply prefix_app. Qed.

Lemma prefix_shorter (a s : string) :
  String.prefix a s = true -> (String.length a <= String.length s)%nat.
Proof.
  revert a. induction s as [|c s IH]; intros a H.
  - destruct a; [simpl; lia | discriminate].
  - destruct a as [|d a]; [simpl; lia|]. simpl in H.
    destruct (ascii_dec d c); [|discriminate]. simpl. apply IH in H. lia.
Qed.

(** A registered name is its own longest match. *)
Lemma own_name_is_longest_match st name :
  In name (moduleAliasNames st) -> longest_match st name name.
Proof.
  intros H. split; [exact H|]. split.
  - apply matches_spec. split; [apply prefix_refl | now left].
  - intros a _ Hm. now apply prefix_shorter, matches_prefix.
Qed.

(** X4: once registered with a string target, a name resolves to that
    target: for every table that takes the assignment, [resolveAlias(name)]
    right after [addAlias(name, target)] returns [normalize(target)],
    whatever other aliases are registered. *)
Theorem alias_resolves_to_its_target refused existsSync cwd now parentModule name target st :
  name <> "" -> name <> "__proto__" -> target <> "" ->
  assignable refused st name ->
  outcome (resolveAlias existsSync cwd now name parentModule)
    (exec (addAlias refused (JStr name) (JStr target)) st)
  = Ok (JStr (NodePath.normalize_string target)).
Proof.
  intros Hn Hp Ht Hr.
  assert (V : valid_target (JStr target) = true).
  { apply valid_target_shape. left. eauto. }
  destruct (@addAlias_registers refused name (JStr target) st Hn Hp V Hr)
    as [[Hin Hget] C].
  set (st' := exec (addAlias refused (JStr name) (JStr target)) st) in *.
  destruct (resolveAlias_longest existsSync cwd now name parentModule name st'
              (fresh_for_empty now name parentModule st' C)
              (own_name_is_longest_match st' name Hin)) as [st2 [T E]].
  unfold outcome. rewrite E.
  rewrite (resolve_with_target existsSync cwd name parentModule name
             (NodePath.normalize_string target) st2) by (rewrite T; exact Hget).
  rewrite substr_length. unfold join_strings. cbn [NodePath.join_args].
  pose proof (normalize_string_not_empty target) as Hne.
  apply String.eqb_neq in Hne. rewrite Hne. cbn [String.eqb].
  now rewrite normalize_string_idempotent.
Qed.

Lemma alias_resolves_to_its_target_witness :
  outcome (resolveAlias all_exist work 0 "@lib" None)
    (exec (addAlias function_refusals (JStr "@lib") (JStr "/srv//lib/")) table_ab)
  = Ok (JStr "/srv/lib/").
Proof.
  apply (alias_resolves_to_its_target function_refusals all_exist work 0%Z None
           "@lib" "/srv//lib/" table_ab); try discriminate.
  reflexivity.
Defined.

(** ** The cache: a stored value and its five seconds *)

(** X5: on a store within its bound, a value put under a key at time [now]
    is what [getCachedResolution] returns for that key, counting one hit,
    at every time less than 5000 ms after [now]; from 5000 ms on the lookup
    returns [null] and changes nothing, not even the stale entry, which
    stays in the store. *)
Theorem cached_value_expires now key v st :
  cache_bounded st ->
  let st1 := exec (setCachedResolution now key v) st in
  (forall now', (now' - now < 5000)%Z ->
     getCachedResolution now' key st1 = (Ok v, bump_cacheHits st1)) /\
  (forall now', (5000 <= now' - now)%Z ->
     getCachedResolution now' key st1 = (Ok JNull, st1)) /\
  JsMap.get key (performanceCache st1) = Some {| value := v; timestamp := now |}.
Proof.
  intros B st1.
  assert (G : JsMap.get key (performanceCache st1)
              = Some {| value := v; timestamp := now |}).
  { unfold st1, exec, setCachedResolution, modify.
    cbn [snd performanceCache set_performanceCache]. now apply get_cache_put. }
  repeat split; [| |exact G].
  - intros now' L. now apply (getCachedResolution_hit now' key st1 v now).
  - intros now' L. apply getCachedResolution_miss. intros e He.
    rewrite G in He. injection He as <-. unfold live. simpl. lia.
Qed.

Lemma cached_value_expires_witness :
  let st1 := exec (setCachedResolution 100 "k" (JStr "v")) table_ab in
  getCachedResolution 5099 "k" st1 = (Ok (JStr "v"), bump_cacheHits st1) /\
  getCachedResolution 5100 "k" st1 = (Ok JNull, st1).
Proof.
  intros st1.
  destruct (cached_value_expires 100%Z "k" (JStr "v") table_ab) as [H1 [H2 _]].
  - unfold cache_bounded. simpl. lia.
  - split; [apply H1 | apply H2]; lia.
Defined.

(** ** The matcher *)

Lemma get_substr (n : nat) : forall s c,
  String.get n s = Some c -> exists rest, Js.substr n s = String c rest.
Proof.
  induction n as [|n IH]; intros s c H.
  - destruct s as [|d s]; [discriminate|]. injection H as ->. now exists s.
  - destruct s as [|d s]; [discriminate|]. simpl in H. now apply IH.
Qed.

(** X6: what [matches] (the computation inside [isPathMatchesAlias]) says.
    Every path matches itself; when a path matches an alias, the path is the
    alias followed by a remainder that is empty or begins with [/] or [\];
    two aliases of the same length that match the same path are the same
    alias; and the empty alias matches exactly the empty path and the paths
    that begin with a separator. *)
Theorem matches_facts :
  (forall path, matches path path = true) /\
  (forall path alias, matches path alias = true ->
     let rest := Js.substr (String.length alias) path in
     path = (alias ++ rest)%string /\
     (rest = "" \/ exists c rest', rest = String c rest' /\ is_separator c = true)) /\
  (forall path a b, matches path a = true -> matches path b = true ->
     String.length a = String.length b -> a = b) /\
  (forall path, matches path "" = true <->
     path = "" \/ exists c rest, path = String c rest /\ is_separator c = true).
Proof.
  repeat apply conj.
  - intros path. apply matches_spec. split; [apply prefix_refl | now left].
  - intros path alias H rest. apply matches_spec in H. destruct H as [P H].
    split; [now apply prefix_split|]. unfold rest. destruct H as [->|[c [G S]]].
    + left. apply substr_length.
    + right. destruct (get_substr _ _ _ G) as [rest' E]. now exists c, rest'.
  - intros path a b Ha Hb L.
    apply (prefixes_same_length a b path); auto using matches_prefix.
  - intros path. rewrite matches_spec. split.
    + intros [_ [->|[c [G S]]]]; [now left|]. right.
      destruct path as [|d path]; [discriminate|]. injection G as ->. now exists c, path.
    + intros H. split; [apply prefix_nil|].
      destruct H as [->|[c [rest [-> S]]]]; [now left|]. right. now exists c.
Qed.

Lemma matches_facts_witness :
  "@foo/x" = ("@foo" ++ "/x")%string /\
  ("/x" = "" \/ exists c rest', "/x" = String c rest' /\ is_separator c = true).
Proof.
  exact (proj1 (proj2 matches_facts) "@foo/x" "@foo" eq_refl).
Defined.

(** ** The order in which aliases are tried *)

Lemma insert_by_length_perm a l : Permutation (a :: l) (insert_by_length a l).
Proof.
  induction l as [|b l IH]; simpl; [reflexivity|].
  destruct (String.length a <? String.length b)%nat; [|reflexivity].
  rewrite perm_swap. now constructor.
Qed.

Lemma insert_by_length_filter n a l :
  filter (fun x => (String.length x =? n)%nat) (insert_by_length a l)
  = filter (fun x => (String.length x =? n)%nat) (a :: l).
Proof.
  induction l as [|b l IH]; [reflexivity|]. cbn [insert_by_length].
  destruct (Nat.ltb_spec (String.length a) (String.length b)) as [L|L]; [|reflexivity].
  cbn [filter] in *. rewrite IH.
  destruct (Nat.eqb_spec (String.length a) n) as [Ea|Ea];
    destruct (Nat.eqb_spec (String.length b) n) as [Eb|Eb]; try reflexivity.
  lia.
Qed.

(** X7: the list [resolveAlias] walks through, [names.slice().sort((a, b) =>
    b.length - a.length)], is a rearrangement of the list [names] it is
    given, with longer names before shorter ones, and names of equal length
    in the order they have in [names]. For the manager [names] is
    [moduleAliasNames], that is [Object.keys] of the table: index-like names
    first, in ascending order, then the others as they were created, which
    need not be the order in which the aliases were registered. *)
Theorem sorted_aliases_order names :
  Permutation names (sort_by_length names) /\
  longest_first (sort_by_length names) /\
  (forall n,
     filter (fun x => (String.length x =? n)%nat) (sort_by_length names)
     = filter (fun x => (String.length x =? n)%nat) names).
Proof.
  repeat apply conj.
  - induction names as [|a l IH]; simpl; [constructor|].
    rewrite <- insert_by_length_perm. now constructor.
  - apply sort_by_length_sorted.
  - intros n. induction names as [|a l IH]; [reflexivity|].
    cbn [sort_by_length]. rewrite insert_by_length_filter.
    cbn [filter]. now rewrite IH.
Qed.

(** [addAlias('b', '/bee'); addAlias('1', '/one')]: the name registered last
    is listed, and tried, first. *)
Lemma sorted_aliases_order_witness :
  let st := exec (addAlias function_refusals (JStr "1") (JStr "/one"))
              (exec (addAlias function_refusals (JStr "b") (JStr "/bee")) start) in
  moduleAliasNames st = ["1"; "b"] /\
  filter (fun x => (String.length x =? 1)%nat) (sort_by_length (moduleAliasNames st))
  = ["1"; "b"].
Proof.
  intros st. split; [reflexivity|].
  rewrite (proj2 (proj2 (sorted_aliases_order (moduleAliasNames st))) 1%nat).
  reflexivity.
Defined.

(** ** What a resolution counts, emits and caches *)

Lemma steady_refl st : steady st st.
Proof. unfold steady. repeat split; lia. Qed.

Lemma steady_trans a b c : steady a b -> steady b c -> steady a c.
Proof. unfold steady. intros [R1 [A1 H1]] [R2 [A2 H2]]. repeat split; lia. Qed.

Lemma log_steady level message data : preserves steady (log level message data).
Proof.
  intros st r st' [= _ <-].
  destruct (negb (debugMode st) && negb (level =? "error"));
    unfold steady; simpl; repeat split; lia.
Qed.

Lemma getCachedResolution_steady now key : preserves steady (getCachedResolution now key).
Proof.
  intros st r st'. unfold getCachedResolution.
  destruct (JsMap.get key (performanceCache st)) as [c|].
  - destruct (now - timestamp c <? 5000)%Z; intros [= _ <-];
      unfold steady; simpl; repeat split; lia.
  - intros [= _ <-]. apply steady_refl.
Qed.

Lemma setCachedResolution_steady now key v : preserves steady (setCachedResolution now key v).
Proof. intros st r st' [= _ <-]. unfold steady; simpl; repeat split; lia. Qed.

Ltac keep_steady leaf :=
  keep steady_refl steady_trans
       ltac:(first [ apply log_steady
                   | apply getCachedResolution_steady
                   | apply setCachedResolution_steady
                   | leaf ]).

Lemma isPathMatchesAlias_steady now path alias :
  preserves steady (isPathMatchesAlias now path alias).
Proof. unfold isPathMatchesAlias. keep_steady fail. Qed.

Lemma call_handler_steady cwd f request parentModule alias :
  preserves steady (call_handler cwd f request parentModule alias).
Proof. unfold call_handler. keep_steady fail. Qed.

Lemma resolve_with_counts existsSync cwd request parentModule alias st r st' :
  resolve_with existsSync cwd request parentModule alias st = (r, st') ->
  steady (bump_aliasMatches st) st'.
Proof.
  unfold resolve_with. rewrite bind_modify.
  match goal with |- ?m _ = _ -> _ => assert (P : preserves steady m) end.
  { apply (preserves_bind steady_trans);
      [apply (preserves_gets _ steady_refl)|intros aliases].
    apply (preserves_bind steady_trans).
    { destruct (Js.obj_get alias aliases) as [[]|];
        try apply (preserves_ret _ steady_refl).
      apply call_handler_steady. }
    intros target. keep_steady fail. }
  apply P.
Qed.

Lemma resolve_loop_counts existsSync cwd now request parentModule l : forall st r st',
  resolve_loop existsSync cwd now request parentModule l st = (r, st') ->
  steady st st' \/ exists st1, steady st st1 /\ steady (bump_aliasMatches st1) st'.
Proof.
  induction l as [|a l IH]; intros st r st'; cbn [resolve_loop].
  - intros [= _ <-]. left. apply steady_refl.
  - unfold bind at 1.
    pose proof (@isPathMatchesAlias_steady now request a st) as S.
    destruct (isPathMatchesAlias now request a st) as [[m|e] st1].
    + specialize (S _ _ eq_refl). destruct (Js.truthy m).
      * intros H. right. exists st1. split; [exact S|].
        eapply resolve_with_counts, H.
      * intros H. destruct (IH _ _ _ H) as [S2|[st2 [S2 S3]]].
        -- left. eapply steady_trans; eassumption.
        -- right. exists st2. split; [eapply steady_trans; eassumption | exact S3].
    + intros [= _ <-]. left. exact (S _ _ eq_refl).
Qed.

(** X8: what [getStats] reports after a call of [resolveAlias], whether the
    call returns or throws and whether it is answered from the cache or
    not: one more resolution, the same number of alias matches or one
    more, no fewer cache hits, the same numbers of aliases and paths, and
    a cache size within the bound when it was before. *)
Theorem resolveAlias_counts existsSync cwd now request parentModule st :
  let before := getStats st in
  let after := getStats (exec (resolveAlias existsSync cwd now request parentModule) st) in
  ps_resolutions after = (ps_resolutions before + 1)%Z /\
  (ps_aliasMatches after = ps_aliasMatches before \/
   ps_aliasMatches after = (ps_aliasMatches before + 1)%Z) /\
  (ps_cacheHits before <= ps_cacheHits after)%Z /\
  ps_aliasCount after = ps_aliasCount before /\
  ps_pathCount after = ps_pathCount before /\
  ((ps_cacheSize before <= 1000)%Z -> (ps_cacheSize after <= 1000)%Z).
Proof.
  intros before after. unfold before, after, getStats, exec. cbn [ps_resolutions
    ps_aliasMatches ps_cacheHits ps_aliasCount ps_pathCount ps_cacheSize].
  pose proof (@resolveAlias_same_table existsSync cwd now request parentModule st) as T.
  assert (C : forall r st',
              resolveAlias existsSync cwd now request parentModule st = (r, st') ->
              steady (bump_resolutions st) st' \/
              exists st1, steady (bump_resolutions st) st1 /\
                          steady (bump_aliasMatches st1) st').
  { intros r st'. unfold resolveAlias. rewrite bind_modify. unfold bind at 1.
    pose proof (@getCachedResolution_steady now (resolve_key request parentModule)
                  (bump_resolutions st)) as S.
    destruct (getCachedResolution _ _ _) as [[cached|e] st1];
      specialize (S _ _ eq_refl); [|intros [= _ <-]; left; exact S].
    destruct (Js.not_null cached); [intros [= _ <-]; left; exact S|].
    rewrite bind_gets. unfold bind at 1.
    pose proof (resolve_loop_counts existsSync cwd now request parentModule
                  (sort_by_length (moduleAliasNames st1)) st1) as L.
    destruct (resolve_loop _ _ _ _ _ _ _) as [[v|e] st2]; specialize (L _ _ eq_refl);
      intros [= _ <-]; cbn [set_performanceCache];
      (destruct L as [L|[st3 [L1 L2]]];
       [left; eapply steady_trans; [exact S|];
        eapply steady_trans; [exact L|]; unfold steady; simpl; repeat split; lia
       |right; exists st3; split; [eapply steady_trans; eassumption|];
        eapply steady_trans; [exact L2|]; unfold steady; simpl; repeat split; lia]). }
  specialize (C (fst (resolveAlias existsSync cwd now request parentModule st))
                (snd (resolveAlias existsSync cwd now request parentModule st))).
  specialize (T (fst (resolveAlias existsSync cwd now request parentModule st))
                (snd (resolveAlias existsSync cwd now request parentModule st))).
  destruct (resolveAlias existsSync cwd now request parentModule st) as [r st'].
  specialize (C eq_refl).
  specialize (T eq_refl). destruct T as [_ [N [P [_ B]]]].
  cbn [snd] in *. rewrite N, P. unfold cache_bounded in B.
  unfold steady in C. cbn in C.
  destruct C as [C|[st1 [C1 C2]]]; repeat split; try lia.
Qed.

(** The lookups of a resolution. *)

Lemma cache_grows_refl now request st : cache_grows now request st st.
Proof. intros k e H. now left. Qed.

Lemma cache_grows_trans now request a b c :
  cache_grows now request a b -> cache_grows now request b c ->
  cache_grows now request a c.
Proof.
  intros H1 H2 k e H. destruct (H2 k e H) as [H'|H']; [now apply H1 | now right].
Qed.

Lemma only_lookups_refl now request st : only_lookups now request st st.
Proof. repeat split. apply cache_grows_refl. Qed.

Lemma only_lookups_trans now request a b c :
  only_lookups now request a b -> only_lookups now request b c ->
  only_lookups now request a c.
Proof.
  intros [T1 [E1 G1]] [T2 [E2 G2]]. repeat split; try congruence.
  eapply cache_grows_trans; eassumption.
Qed.

Lemma getCachedResolution_only_lookups now request key :
  preserves (only_lookups now request) (getCachedResolution now key).
Proof.
  intros st r st'. unfold getCachedResolution.
  destruct (JsMap.get key (performanceCache st)) as [c|].
  - destruct (now - timestamp c <? 5000)%Z; intros [= _ <-];
      repeat split; intros k e H; now left.
  - intros [= _ <-]. apply only_lookups_refl.
Qed.

Lemma isPathMatchesAlias_only_lookups now request alias :
  preserves (only_lookups now request) (isPathMatchesAlias now request alias).
Proof.
  intros st r st' E. split; [|split].
  - now destruct (isPathMatchesAlias_same_table _ _ _ _ _ _ E).
  - revert E. unfold isPathMatchesAlias, bind, getCachedResolution.
    destruct (JsMap.get _ _) as [c|];
      [destruct (now - timestamp c <? 5000)%Z|]; cbn;
      try destruct (Js.not_null (value c)); now intros [= _ <-].
  - exact (isPathMatchesAlias_cache_grows _ _ _ _ _ _ E).
Qed.

Lemma isPathMatchesAlias_returns now path alias st :
  exists v, fst (isPathMatchesAlias now path alias st) = Ok v.
Proof.
  unfold isPathMatchesAlias, bind, getCachedResolution.
  destruct (JsMap.get _ _) as [c|];
    [destruct (now - timestamp c <? 5000)%Z|]; cbn;
    try destruct (Js.not_null (value c)); eexists; reflexivity.
Qed.

(** The handler: what each of its outcomes leaves. *)

Lemma call_handler_Ok cwd f request parentModule alias st v st' :
  call_handler cwd f request parentModule alias st = (Ok v, st') ->
  st' = st /\ exists s, v = JStr s /\ s <> "".
Proof.
  unfold call_handler, try_catch, bind, lift.
  destruct (f (filename_or parentModule cwd) request alias) as [t|e0].
  - destruct (negb (Js.truthy t) || negb (Js.is_string t)) eqn:V.
    + unfold throw. cbn [Js.get_prop handler_error String.eqb Ascii.eqb Bool.eqb].
      rewrite log_error. discriminate.
    + intros [= <- <-]. split; [reflexivity|].
      apply orb_false_elim in V. destruct V as [V1 V2].
      apply negb_false_iff in V1, V2.
      destruct t as [| | | |s| | |]; try discriminate.
      exists s. split; [reflexivity|]. simpl in V1.
      apply negb_true_iff in V1. now apply String.eqb_neq.
  - destruct (Js.get_prop e0 "message") as [msg|e1]; [|discriminate].
    rewrite log_error. discriminate.
Qed.

Lemma call_handler_Throw cwd f request parentModule alias st e st' :
  call_handler cwd f request parentModule alias st = (Throw e, st') ->
  (forall s, s <> "" -> f (filename_or parentModule cwd) request alias <> Ok (JStr s)) /\
  (st' = st \/ exists msg, st' = push_event (handler_failed_line alias msg) st).
Proof.
  unfold call_handler, try_catch, bind, lift.
  destruct (f (filename_or parentModule cwd) request alias) as [t|e0].
  - destruct (negb (Js.truthy t) || negb (Js.is_string t)) eqn:V; [|discriminate].
    unfold throw. cbn [Js.get_prop handler_error String.eqb Ascii.eqb Bool.eqb].
    rewrite log_error. intros [= _ <-]. split.
    + intros s Hs [= ->]. simpl in V. apply String.eqb_neq in Hs. rewrite Hs in V.
      discriminate.
    + right. eexists. reflexivity.
  - intros H. split; [discriminate|]. revert H.
    destruct (Js.get_prop e0 "message") as [msg|e1].
    + rewrite log_error. intros [= _ <-]. right. now exists msg.
    + intros [= _ <-]. now left.
Qed.

Lemma log_quiet level message data :
  level <> "error" -> preserves quiet (log level message data).
Proof.
  intros L st r st' [= _ <-] D. rewrite D. apply String.eqb_neq in L. rewrite L.
  simpl. now split.
Qed.

Lemma quiet_refl st : quiet st st.
Proof. intros D. now split. Qed.

Lemma quiet_trans a b c : quiet a b -> quiet b c -> quiet a c.
Proof.
  intros H1 H2 D. destruct (H1 D) as [D1 E1]. destruct (H2 D1) as [D2 E2].
  split; congruence.
Qed.

Ltac keep_quiet leaf :=
  keep quiet_refl quiet_trans
       ltac:(first [ apply log_quiet; discriminate
                   | apply preserves_modify; intros ?st0 ?D; now split
                   | leaf ]).

Lemma only_lookups_quiet now request st st' :
  only_lookups now request st st' -> same_table st st' -> quiet st st'.
Proof. intros [_ [E _]] [_ [_ [_ [D _]]]] H. split; congruence. Qed.

Section ResolutionOutcomes.
Variable existsSync : string -> bool.
Variable cwd : string.

(** What is left of the matched branch once the target is chosen. *)
Lemma resolve_with_Ok request parentModule alias st v st' :
  resolve_with existsSync cwd request parentModule alias st = (Ok v, st') ->
  quiet st st'.
Proof.
  unfold resolve_with. rewrite bind_modify, bind_gets. intros H.
  apply bind_Ok in H. destruct H as [target [st1 [H1 H2]]].
  assert (Q1 : quiet st st1).
  { destruct (Js.obj_get alias (moduleAliases (bump_aliasMatches st))) as [[]|];
      try (injection H1 as _ <-; intros D; now split).
    apply call_handler_Ok in H1. destruct H1 as [-> _]. intros D; now split. }
  eapply quiet_trans; [exact Q1|]. revert H2.
  match goal with |- ?m _ = _ -> _ => assert (P : preserves quiet m) end.
  { keep_quiet fail. }
  apply P.
Qed.

Lemma resolve_with_Throw request parentModule alias st e st' :
  (exists target, Js.obj_get alias (moduleAliases st) = Some target /\
                  stored_target target) ->
  resolve_with existsSync cwd request parentModule alias st = (Throw e, st') ->
  (exists f, Js.obj_get alias (moduleAliases st) = Some (JFun f) /\
     forall s, s <> "" -> f (filename_or parentModule cwd) request alias <> Ok (JStr s)) /\
  (st' = bump_aliasMatches st \/
   exists msg, st' = push_event (handler_failed_line alias msg) (bump_aliasMatches st)).
Proof.
  intros [target [G W]] H. destruct W as [[f ->]|[s [-> Hs]]].
  - pose proof (resolve_with_handler existsSync cwd request parentModule alias f st G) as R.
    revert H. unfold resolve_with. rewrite bind_modify, bind_gets.
    change (moduleAliases (bump_aliasMatches st)) with (moduleAliases st). rewrite G.
    intros H. apply bind_Throw in H. destruct H as [H|[t [st1 [H1 H2]]]].
    + apply call_handler_Throw in H. destruct H as [H1 H2].
      split; [exists f; now split | exact H2].
    + exfalso. apply call_handler_Ok in H1. destruct H1 as [-> [s [-> Hs]]].
      revert H2. unfold bind, when, lift, log, modify, ret.
      rewrite join_two_strings.
      destruct (negb (validateAliasTarget existsSync (JStr s))); discriminate.
  - exfalso.
    pose proof (resolve_with_target existsSync cwd request parentModule alias s st G) as R.
    rewrite H in R. discriminate.
Qed.

Lemma resolve_loop_Ok now request parentModule l : forall st v st',
  resolve_loop existsSync cwd now request parentModule l st = (Ok v, st') ->
  quiet st st'.
Proof.
  induction l as [|a l IH]; intros st v st'; cbn [resolve_loop].
  - intros [= _ <-]. apply quiet_refl.
  - intros H. apply bind_Ok in H. destruct H as [m [st1 [H1 H2]]].
    assert (Q : quiet st st1).
    { eapply only_lookups_quiet;
        [exact (isPathMatchesAlias_only_lookups _ _ _ _ _ _ H1)
        |exact (isPathMatchesAlias_same_table _ _ _ _ _ _ H1)]. }
    eapply quiet_trans; [exact Q|].
    destruct (Js.truthy m); [eapply resolve_with_Ok, H2 | eapply IH, H2].
Qed.

Lemma resolve_loop_Throw now request parentModule l : forall st e st',
  (forall a, In a l -> exists target,
       Js.obj_get a (moduleAliases st) = Some target /\ stored_target target) ->
  resolve_loop existsSync cwd now request parentModule l st = (Throw e, st') ->
  exists alias f st1,
    In alias l /\
    Js.obj_get alias (moduleAliases st) = Some (JFun f) /\
    (forall s, s <> "" -> f (filename_or parentModule cwd) request alias <> Ok (JStr s)) /\
    only_lookups now request st st1 /\
    (st' = bump_aliasMatches st1 \/
     exists msg, st' = push_event (handler_failed_line alias msg) (bump_aliasMatches st1)).
Proof.
  induction l as [|a l IH]; intros st e st' W; cbn [resolve_loop].
  - discriminate.
  - intros H. apply bind_Throw in H. destruct H as [H|[m [st1 [H1 H2]]]].
    + destruct (isPathMatchesAlias_returns now request a st) as [v V].
      rewrite H in V. discriminate.
    + pose proof (isPathMatchesAlias_only_lookups _ _ _ _ _ _ H1) as L.
      pose proof L as [T _].
      destruct (Js.truthy m).
      * apply resolve_with_Throw in H2.
        -- destruct H2 as [[f [G F]] S]. exists a, f, st1.
           rewrite T in G.
           split; [now left|]. split; [exact G|]. split; [exact F|].
           split; [exact L | exact S].
        -- rewrite T. apply W. now left.
      * apply IH in H2.
        -- destruct H2 as [alias [f [st2 [I [G [F [L2 S]]]]]]].
           exists alias, f, st2. rewrite T in G.
           split; [now right|]. split; [exact G|]. split; [exact F|].
           split; [eapply only_lookups_trans; eassumption | exact S].
        -- intros a' Ha'. rewrite T. apply W. now right.
Qed.

Lemma table_wf_stored st name :
  table_wf st -> In name (moduleAliasNames st) ->
  exists target, Js.obj_get name (moduleAliases st) = Some target /\ stored_target target.
Proof.
  intros [S O] H. rewrite S in H. apply In_own_keys in H.
  destruct (Js.obj_get name (moduleAliases st)) as [target|] eqn:G.
  - exists target. split; [reflexivity|]. apply obj_get_In in G.
    destruct (O _ _ G) as [_ [F|[s [-> [Hs _]]]]]; [now left | right; eauto].
  - apply obj_get_none in G. contradiction.
Qed.

Lemma resolveAlias_Throw now request parentModule st e st' :
  table_wf st ->
  resolveAlias existsSync cwd now request parentModule st = (Throw e, st') ->
  (exists alias f,
     has_alias st alias (JFun f) /\
     forall s, s <> "" -> f (filename_or parentModule cwd) request alias <> Ok (JStr s)) /\
  cache_grows now request st st' /\
  (emitted st' = emitted st \/
   exists alias msg, emitted st' = emitted st ++ [handler_failed_line alias msg]).
Proof.
  intros W. unfold resolveAlias. rewrite bind_modify. intros H.
  apply bind_Throw in H. destruct H as [H|[cached [st1 [H1 H2]]]].
  { exfalso. revert H. unfold getCachedResolution.
    destruct (JsMap.get _ _) as [c|]; [destruct (_ <? _)%Z|]; discriminate. }
  pose proof (getCachedResolution_only_lookups now request _ _ _ _ H1) as L1.
  destruct (Js.not_null cached); [discriminate|].
  rewrite bind_gets in H2.
  apply bind_Throw in H2. destruct H2 as [H2|[v [st2 [_ H3]]]]; [|discriminate].
  destruct L1 as [T1 [E1 G1]]. cbn in T1, E1.
  assert (N1 : moduleAliasNames st1 = moduleAliasNames st).
  { now destruct (getCachedResolution_same_table _ _ _ _ _ H1) as [_ [N _]]. }
  apply resolve_loop_Throw in H2.
  - destruct H2 as [alias [f [st3 [I [G [F [[T3 [E3 G3]] S]]]]]]].
    apply (proj1 (In_sort_by_length _ _)) in I. rewrite N1 in I. rewrite T1 in G.
    split; [exists alias, f; repeat split; assumption|]. split.
    + intros k c Hin.
      assert (Hin3 : In (k, c) (performanceCache st3)).
      { destruct S as [-> | [msg ->]]; exact Hin. }
      destruct (G3 _ _ Hin3) as [Hold|Hnew]; [|now right].
      destruct (G1 _ _ Hold) as [Hold1|Hnew]; [now left | now right].
    + destruct S as [-> | [msg ->]]; cbn; rewrite E3, E1.
      * now left.
      * right. now exists alias, msg.
  - intros a Ha. apply (proj1 (In_sort_by_length _ _)) in Ha. rewrite N1 in Ha. rewrite T1.
    change (moduleAliases (bump_resolutions st)) with (moduleAliases st).
    now apply table_wf_stored.
Qed.

End ResolutionOutcomes.

Lemma table_with_wf h : table_wf (table_with h).
Proof.
  unfold table_with, exec.
  eapply addAlias_keeps_wf; [apply surjective_pairing|].
  eapply addAlias_keeps_wf; [apply surjective_pairing|].
  split; [reflexivity | intros n t []].
Qed.

(** X9: in a well-formed table [resolveAlias] can only fail inside a custom
    handler. When it throws, some registered alias has a function as target
    and that function did not return a non-empty string for the request;
    the cache has gained nothing but matches computed for the request, so
    no resolution was stored; and the trace has gained at most the one
    error line of the failed handler, whatever the debug mode. *)
Theorem resolveAlias_fails_only_in_a_handler existsSync cwd now request parentModule
  st e st' :
  table_wf st ->
  resolveAlias existsSync cwd now request parentModule st = (Throw e, st') ->
  (exists alias f,
     has_alias st alias (JFun f) /\
     forall s, s <> "" -> f (filename_or parentModule cwd) request alias <> Ok (JStr s)) /\
  cache_grows now request st st' /\
  (emitted st' = emitted st \/
   exists alias msg, emitted st' = emitted st ++ [handler_failed_line alias msg]).
Proof. apply resolveAlias_Throw. Qed.

Lemma resolveAlias_fails_only_in_a_handler_witness :
  let st := table_with failing_handler in
  let st' := exec (resolveAlias all_exist work 0 "@a/b/c" None) st in
  (exists alias f,
     has_alias st alias (JFun f) /\
     forall s, s <> "" -> f (filename_or None work) "@a/b/c" alias <> Ok (JStr s)) /\
  cache_grows 0 "@a/b/c" st st' /\
  (emitted st' = emitted st \/
   exists alias msg, emitted st' = emitted st ++ [handler_failed_line alias msg]).
Proof.
  intros st st'.
  apply (resolveAlias_fails_only_in_a_handler all_exist work 0%Z "@a/b/c" None
           st (JErr PlainError "boom") st').
  - apply table_with_wf.
  - reflexivity.
Defined.

(** X10: a table without function targets never makes [resolveAlias] throw:
    when the table is well formed and every target is a string, every
    request is answered, from the cache or by the aliases. *)
Theorem resolveAlias_returns_without_handlers existsSync cwd now request parentModule st :
  table_wf st ->
  (forall name f, Js.obj_get name (moduleAliases st) <> Some (JFun f)) ->
  exists v, outcome (resolveAlias existsSync cwd now request parentModule) st = Ok v.
Proof.
  intros W N. unfold outcome.
  destruct (resolveAlias existsSync cwd now request parentModule st) as [[v|e] st'] eqn:E.
  - now exists v.
  - exfalso. apply resolveAlias_Throw in E; [|exact W].
    destruct E as [[alias [f [[_ G] _]]] _]. exact (N _ _ G).
Qed.

Lemma resolveAlias_returns_without_handlers_witness :
  exists v, outcome (resolveAlias all_exist work 0 "@a/b/c" None) table_ab = Ok v.
Proof.
  apply (resolveAlias_returns_without_handlers all_exist work 0%Z "@a/b/c" None table_ab).
  - unfold table_ab, exec.
    eapply addAlias_keeps_wf; [apply surjective_pairing|].
    eapply addAlias_keeps_wf; [apply surjective_pairing|].
    split; [reflexivity | intros n t []].
  - intros name f H. apply obj_get_In in H. simpl in H.
    destruct H as [H|[H|[]]]; discriminate.
Defined.

(** X11: with debugging off, a call of [resolveAlias] that returns emits
    nothing: no log line (the warning about a target that does not exist
    is suppressed too) and no event. *)
Theorem resolveAlias_is_quiet_without_debug existsSync cwd now request parentModule
  st v st' :
  debugMode st = false ->
  resolveAlias existsSync cwd now request parentModule st = (Ok v, st') ->
  emitted st' = emitted st /\ debugMode st' = false.
Proof.
  intros D. unfold resolveAlias. rewrite bind_modify. intros H.
  apply bind_Ok in H. destruct H as [cached [st1 [H1 H2]]].
  assert (Q1 : quiet st st1).
  { apply (quiet_trans st (bump_resolutions st) st1); [intros D'; now split|].
    eapply only_lookups_quiet;
      [exact (getCachedResolution_only_lookups now request _ _ _ _ H1)
      |exact (getCachedResolution_same_table _ _ _ _ _ H1)]. }
  assert (Q2 : quiet st1 st').
  { destruct (Js.not_null cached); [injection H2 as _ <-; apply quiet_refl|].
    rewrite bind_gets in H2. apply bind_Ok in H2. destruct H2 as [r [st2 [H2 H3]]].
    apply resolve_loop_Ok in H2. eapply quiet_trans; [exact H2|].
    injection H3 as _ <-. intros D'. now split. }
  destruct (quiet_trans _ _ _ Q1 Q2 D) as [D' E']. now split.
Qed.

Lemma resolveAlias_is_quiet_without_debug_witness :
  let st' := exec (resolveAlias (fun _ => false) work 0 "@a/b/c" None) table_ab in
  emitted st' = emitted table_ab /\ debugMode st' = false.
Proof.
  intros st'.
  apply (resolveAlias_is_quiet_without_debug (fun _ => false) work 0%Z "@a/b/c" None
           table_ab (JStr "/y/c") st'); reflexivity.
Defined.

(** ** Search paths: [addPath], [reset] and the hook that lists them *)

Lemma includes_true_iff x l : includes x l = true <-> In x l.
Proof.
  unfold includes. rewrite existsb_exists. split.
  - intros [y [H E]]. apply String.eqb_eq in E. now subst.
  - intros H. exists x. split; [exact H | apply String.eqb_refl].
Qed.

Lemma includes_false_iff x l : includes x l = false <-> ~ In x l.
Proof.
  rewrite <- includes_true_iff. destruct (includes x l); split; congruence.
Qed.

Lemma addPathHelper_normalized q arr :
  NodePath.normalize_string q = q ->
  addPathHelper q (Some arr) = Some (if includes q arr then arr else q :: arr).
Proof. intros E. unfold addPathHelper. rewrite E. now destruct (includes q arr). Qed.

(** The two ways [addPath] ends on a string. *)
Lemma addPath_string existsSync p st :
  let q := NodePath.normalize_string p in
  exists st0,
    (st0 = st \/
     st0 = push_event (Log "warn" "Adding non-existent path" [("path", JStr q)]) st) /\
    addPath existsSync (JStr p) st =
    (Ok tt,
     if includes q (modulePaths st) then st0
     else push_event (PathAdded q)
            (set_hostPaths (addPathHelper q (mainPaths st))
               (map (addPathHelper q) (parentPaths st))
               (exec (log "debug" "Path added" [("path", JStr q)])
                  (set_modulePaths (modulePaths st ++ [q]) st0)))).
Proof.
  intros q.
  assert (Hq : (q =? "") = false) by apply String.eqb_neq, normalize_string_not_empty.
  exists (exec (when (negb (existsSync q))
                  (log "warn" "Adding non-existent path" [("path", JStr q)])) st).
  unfold addPath, exec, bind, lift, when, log, emit, modify, gets, ret, throw.
  destruct st as [paths table proto names cache debug ws sts mainP parentP evs].
  cbn -[includes NodePath.normalize_string addPathHelper]. fold q. rewrite Hq.
  cbn -[includes NodePath.normalize_string addPathHelper].
  destruct (existsSync q), debug; cbn -[includes NodePath.normalize_string addPathHelper];
    (split; [first [left; reflexivity | right; reflexivity]|]);
    destruct (includes q paths); reflexivity.
Qed.

(** X12: [addPath] on a string always returns, and afterwards the normalized
    path is among the search paths. A path that is already registered is
    not registered again: the search paths and the host's arrays stay as
    they are, and nothing but the warning about a missing directory can be
    emitted, so no [pathAdded] event. A new path goes to the end of the
    search paths and to the front of every host array that does not hold
    it yet, and [pathAdded] is emitted. Search paths without duplicates
    stay without duplicates. *)
Theorem addPath_registers_once existsSync p st :
  let q := NodePath.normalize_string p in
  let st' := exec (addPath existsSync (JStr p)) st in
  outcome (addPath existsSync (JStr p)) st = Ok tt /\
  In q (modulePaths st') /\
  (NoDup (modulePaths st) -> NoDup (modulePaths st')) /\
  (In q (modulePaths st) ->
     modulePaths st' = modulePaths st /\
     mainPaths st' = mainPaths st /\
     parentPaths st' = parentPaths st /\
     (emitted st' = emitted st \/
      emitted st' = emitted st
                    ++ [Log "warn" "Adding non-existent path" [("path", JStr q)]])) /\
  (~ In q (modulePaths st) ->
     modulePaths st' = modulePaths st ++ [q] /\
     (forall arr, mainPaths st = Some arr ->
        mainPaths st' = Some (if includes q arr then arr else q :: arr)) /\
     parentPaths st'
     = map (option_map (fun arr => if includes q arr then arr else q :: arr))
           (parentPaths st) /\
     In (PathAdded q) (emitted st')).
Proof.
  intros q st'. unfold st', outcome, exec.
  destruct (addPath_string existsSync p st) as [st0 [S E]]. fold q in S, E.
  rewrite E. cbn [fst snd].
  assert (P0 : modulePaths st0 = modulePaths st /\ mainPaths st0 = mainPaths st /\
               parentPaths st0 = parentPaths st).
  { destruct S as [-> | ->]; repeat split. }
  destruct P0 as [P0 [M0 R0]].
  assert (N : NodePath.normalize_string q = q) by apply normalize_string_idempotent.
  split; [reflexivity|].
  destruct (includes q (modulePaths st)) eqn:I.
  - apply includes_true_iff in I. rewrite P0.
    split; [exact I|]. split; [tauto|]. split; [|tauto].
    intros _. repeat split; try assumption.
    destruct S as [-> | ->]; [now left | now right].
  - apply includes_false_iff in I.
    assert (P1 : forall s, modulePaths (exec (log "debug" "Path added" [("path", JStr q)]) s)
                           = modulePaths s).
    { intros s. unfold exec, log, modify. cbn [snd].
      now destruct (negb (debugMode s) && _). }
    cbn [modulePaths push_event set_hostPaths mainPaths parentPaths emitted].
    rewrite P1. cbn [modulePaths set_modulePaths].
    split; [apply in_or_app; right; now left|].
    split.
    { intros D. apply NoDup_app; repeat split; auto.
      - constructor; [intros []|constructor].
      - intros x Hx [<-|[]]. contradiction. }
    split; [tauto|]. intros _.
    split; [reflexivity|]. split; [|split].
    + intros arr Harr. rewrite Harr. now apply addPathHelper_normalized.
    + apply map_ext. intros [arr|]; [now apply addPathHelper_normalized | reflexivity].
    + apply in_or_app. right. now left.
Qed.

Lemma remove_first_notin x l : ~ In x l -> remove_first x l = l.
Proof.
  induction l as [|y l IH]; [reflexivity|]. intros H. simpl.
  destruct (String.eqb_spec y x) as [->|n].
  - exfalso. apply H. now left.
  - f_equal. apply IH. intros H'. apply H. now right.
Qed.

Lemma remove_first_added q arr :
  remove_first q (if includes q arr then arr else q :: arr) = remove_first q arr.
Proof.
  destruct (includes q arr) eqn:I; [reflexivity|].
  apply includes_false_iff in I. simpl. rewrite String.eqb_refl.
  symmetry. now apply remove_first_notin.
Qed.

Lemma fold_remove_hostPaths paths : forall st,
  let st' :=
    fold_left (fun s path =>
                 set_hostPaths (removePathHelper path (mainPaths s))
                   (map (removePathHelper path) (parentPaths s)) s) paths st in
  mainPaths st' = fold_left (fun m path => removePathHelper path m) paths (mainPaths st) /\
  parentPaths st'
  = fold_left (fun ps path => map (removePathHelper path) ps) paths (parentPaths st).
Proof.
  induction paths as [|path paths IH]; intros st; [now split|].
  cbn [fold_left]. apply (IH (set_hostPaths _ _ st)).
Qed.

(** What [reset] leaves of the host's arrays: the first occurrence of each
    registered path is taken out of each of them. *)
Lemma reset_hostPaths st :
  mainPaths (exec reset st)
  = fold_left (fun m path => removePathHelper path m) (modulePaths st) (mainPaths st) /\
  parentPaths (exec reset st)
  = fold_left (fun ps path => map (removePathHelper path) ps) (modulePaths st)
      (parentPaths st).
Proof.
  unfold exec, reset, emit.
  rewrite bind_log, bind_gets, bind_for_each_modify, !bind_modify.
  set (st0 := snd (log "debug" "Resetting module alias manager" [] st)).
  assert (E : modulePaths st0 = modulePaths st /\ mainPaths st0 = mainPaths st /\
              parentPaths st0 = parentPaths st).
  { unfold st0, log, modify. cbn [snd]. now destruct (negb (debugMode st) && _). }
  destruct E as [E1 [E2 E3]]. rewrite E1.
  destruct (fold_remove_hostPaths (modulePaths st) st0) as [F1 F2].
  rewrite E2 in F1. rewrite E3 in F2. rewrite <- F1, <- F2.
  match goal with |- context [fold_left ?f ?l ?s] => generalize (fold_left f l s) end.
  intros st1. unfold log, modify. cbn [snd].
  match goal with |- context [if ?b then _ else _] => destruct b end; now split.
Qed.

(** X13: [addPath] followed by [reset], starting without search paths. The
    reset takes the first occurrence of the normalized path out of every
    host array, so an array that did not hold the path is back as it was;
    an array that held it already, where [addPath] added nothing, loses the
    entry it had on its own. *)
Theorem addPath_then_reset existsSync p st :
  modulePaths st = [] ->
  let q := NodePath.normalize_string p in
  let st2 := exec reset (exec (addPath existsSync (JStr p)) st) in
  modulePaths st2 = [] /\
  mainPaths st2 = option_map (remove_first q) (mainPaths st) /\
  parentPaths st2 = map (option_map (remove_first q)) (parentPaths st) /\
  (forall arr, mainPaths st = Some arr -> ~ In q arr -> mainPaths st2 = Some arr) /\
  (forall arr, mainPaths st = Some arr -> In q arr ->
     exists arr', mainPaths st2 = Some arr' /\ List.length arr = S (List.length arr')).
Proof.
  intros P q st2.
  assert (N : NodePath.normalize_string q = q) by apply normalize_string_idempotent.
  assert (Nq : ~ In q (modulePaths st)) by (rewrite P; intros []).
  assert (S1 : modulePaths (exec (addPath existsSync (JStr p)) st) = [q] /\
               mainPaths (exec (addPath existsSync (JStr p)) st)
               = addPathHelper q (mainPaths st) /\
               parentPaths (exec (addPath existsSync (JStr p)) st)
               = map (addPathHelper q) (parentPaths st)).
  { unfold exec. destruct (addPath_string existsSync p st) as [st0 [S E]].
    fold q in S, E. rewrite E. apply includes_false_iff in Nq. rewrite Nq.
    cbn [snd modulePaths mainPaths parentPaths push_event set_hostPaths].
    split; [|now split].
    unfold exec, log, modify. cbn [snd].
    destruct (negb _ && _); cbn [modulePaths set_modulePaths];
      destruct S as [-> | ->]; cbn [modulePaths push_event]; now rewrite P. }
  destruct S1 as [S1 [S2 S3]].
  destruct (reset_hostPaths (exec (addPath existsSync (JStr p)) st)) as [R1 R2].
  rewrite S1, S2 in R1. rewrite S1, S3 in R2. cbn [fold_left] in R1, R2.
  fold st2 in R1, R2.
  assert (M : mainPaths st2 = option_map (remove_first q) (mainPaths st)).
  { rewrite R1. destruct (mainPaths st) as [arr|]; [|reflexivity].
    rewrite (addPathHelper_normalized q arr N). cbn [removePathHelper option_map].
    now rewrite remove_first_added. }
  split; [apply reset_clears|]. split; [exact M|]. split; [|split].
  - rewrite R2, map_map. apply map_ext. intros [arr|]; [|reflexivity].
    rewrite (addPathHelper_normalized q arr N). cbn [removePathHelper option_map].
    now rewrite remove_first_added.
  - intros arr Harr Hn. rewrite M, Harr. cbn [option_map].
    now rewrite remove_first_notin.
  - intros arr Harr Hin. rewrite M, Harr. cbn [option_map]. eexists. split; [reflexivity|].
    clear -Hin. induction arr as [|y arr IH]; [destruct Hin|]. simpl.
    destruct (String.eqb_spec y q) as [->|n]; [reflexivity|].
    simpl. f_equal. apply IH. destruct Hin as [->|H]; [contradiction | exact H].
Qed.

Lemma addPath_then_reset_witness :
  let st := initial false (Some ["/app/node_modules"; "/srv/lib"]) [] in
  let st2 := exec reset (exec (addPath all_exist (JStr "/srv//lib")) st) in
  mainPaths st2 = Some ["/app/node_modules"].
Proof.
  intros st st2.
  destruct (addPath_then_reset all_exist "/srv//lib" st eq_refl) as [_ [M _]].
  exact M.
Defined.

(** X14: what the replacement of [Module._nodeModulePaths] lists once a path
    is added. For a module whose file name does not contain [node_modules]
    the manager's search paths come first, the added path among them,
    followed by the paths of the original function; for a file name that
    contains [node_modules] anywhere, as a directory or as part of any
    name, the original list is returned untouched; and after [reset] the
    original list is returned for every module. *)
Theorem hook_lists_search_paths existsSync oldNodeModulePaths p st :
  let q := NodePath.normalize_string p in
  let st' := exec (addPath existsSync (JStr p)) st in
  (forall from, Js.indexOf from "node_modules" = (-1)%Z ->
     nodeModulePaths oldNodeModulePaths from st'
     = modulePaths st' ++ oldNodeModulePaths from /\
     In q (nodeModulePaths oldNodeModulePaths from st')) /\
  (forall pre post,
     nodeModulePaths oldNodeModulePaths (pre ++ "node_modules" ++ post)%string st'
     = oldNodeModulePaths (pre ++ "node_modules" ++ post)%string) /\
  (forall from,
     nodeModulePaths oldNodeModulePaths from (exec reset st') = oldNodeModulePaths from).
Proof.
  intros q st'. split; [|split].
  - intros from H. unfold nodeModulePaths. rewrite H. cbn [Z.eqb Pos.eqb].
    split; [reflexivity|]. apply in_or_app. left.
    unfold st', exec. destruct (addPath_string existsSync p st) as [st0 [S E]].
    fold q in S, E. rewrite E. cbn [snd].
    destruct (includes q (modulePaths st)) eqn:I.
    + apply includes_true_iff in I. destruct S as [-> | ->]; exact I.
    + cbn [modulePaths push_event set_hostPaths]. unfold exec, log, modify. cbn [snd].
      destruct (negb _ && _); cbn [modulePaths set_modulePaths push_event];
        apply in_or_app; right; now left.
  - intros pre post. unfold nodeModulePaths, Js.indexOf.
    pose proof (indexOf_from_found "node_modules" pre post (Z.le_refl 0)) as F.
    destruct (Z.eqb_spec
                (Js.indexOf_from 0 "node_modules" (pre ++ "node_modules" ++ post)%string)
                (-1)) as [E|E]; [lia | reflexivity].
  - intros from. unfold nodeModulePaths.
    destruct (reset_clears st') as [_ [P _]]. rewrite P.
    now destruct (_ =? _)%Z.
Qed.

Lemma hook_lists_search_paths_witness :
  In "/srv/lib"
    (nodeModulePaths (fun _ => ["/app/node_modules"]) "/app/src/index.js"
       (exec (addPath all_exist (JStr "/srv//lib")) start)).
Proof.
  apply (proj1 (hook_lists_search_paths all_exist (fun _ => ["/app/node_modules"])
                  "/srv//lib" start) "/app/src/index.js").
  reflexivity.
Defined.

(** ** The watcher *)

(** X15: [watchPackageJson] never throws and never registers a file twice.
    A file that is already watched changes nothing; when [fs.watch] fails
    the file is not registered and the one thing that happens is the error
    line, logged whatever the debug mode; otherwise the file is registered.
    The callback never throws either, and does nothing on any event other
    than ['change']. *)
Theorem watcher_never_throws path st :
  (forall watch,
     outcome (watchPackageJson path watch) st = Ok tt /\
     (NoDup (watchers st) -> NoDup (watchers (exec (watchPackageJson path watch) st)))) /\
  (forall watch, In path (watchers st) -> exec (watchPackageJson path watch) st = st) /\
  (forall msg, ~ In path (watchers st) ->
     exec (watchPackageJson path (Throw msg)) st
     = push_event (Log "error" "Failed to watch package.json"
                     [("path", JStr path); ("error", JStr msg)]) st) /\
  (~ In path (watchers st) ->
     watchers (exec (watchPackageJson path (Ok tt)) st) = watchers st ++ [path]) /\
  (forall existsSync cwd refused oldResolveFilename moduleFilename now
          eventType load,
     let event := on_watch_event existsSync cwd refused oldResolveFilename
                    moduleFilename now path eventType load in
     outcome event st = Ok tt /\
     (eventType <> "change" -> exec event st = st)).
Proof.
  assert (W : forall watch,
    watchPackageJson path watch st =
    (Ok tt,
     if includes path (watchers st) then st
     else match watch with
          | Ok _ => exec (log "debug" "Watching package.json for changes"
                            [("path", JStr path)])
                      (set_watchers (watchers st ++ [path]) st)
          | Throw msg => push_event (Log "error" "Failed to watch package.json"
                                       [("path", JStr path); ("error", JStr msg)]) st
          end)).
  { intros watch. unfold watchPackageJson. rewrite bind_gets.
    destruct (includes path (watchers st)); [reflexivity|].
    destruct watch as [u|msg]; unfold try_catch, exec.
    - rewrite bind_ret, bind_modify. unfold log, modify. reflexivity.
    - unfold bind at 1. unfold throw at 1.
      cbn [Js.get_prop String.eqb Ascii.eqb Bool.eqb]. rewrite bind_lift_Ok.
      apply log_error. }
  split; [|split; [|split; [|split]]].
  - intros watch. unfold outcome, exec. rewrite W. cbn [fst snd].
    split; [reflexivity|]. intros D.
    destruct (includes path (watchers st)) eqn:I; [exact D|].
    apply includes_false_iff in I. destruct watch as [u|msg]; [|exact D].
    unfold exec, log, modify. cbn [snd].
    destruct (negb _ && _); cbn [watchers set_watchers push_event];
      (apply NoDup_app; repeat split; auto;
       [constructor; [intros []|constructor] | intros x Hx [<-|[]]; contradiction]).
  - intros watch H. unfold exec. rewrite W. cbn [snd].
    apply includes_true_iff in H. now rewrite H.
  - intros msg H. unfold exec. rewrite W. cbn [snd].
    apply includes_false_iff in H. now rewrite H.
  - intros H. unfold exec. rewrite W. cbn [snd].
    apply includes_false_iff in H. rewrite H.
    unfold exec, log, modify. cbn [snd]. now destruct (negb _ && _).
  - intros existsSync cwd refused oldResolveFilename moduleFilename now
           eventType load event.
    unfold event, outcome, exec, on_watch_event.
    destruct (String.eqb_spec eventType "change") as [->|n].
    + rewrite bind_log. split; [apply reload_never_throws | congruence].
    + split; reflexivity.
Qed.

Lemma watcher_never_throws_witness :
  exec (watchPackageJson "/app/package.json" (Throw "ENOENT")) start
  = push_event (Log "error" "Failed to watch package.json"
                  [("path", JStr "/app/package.json"); ("error", JStr "ENOENT")]) start.
Proof.
  apply (proj1 (proj2 (proj2 (watcher_never_throws "/app/package.json" start))) "ENOENT").
  intros [].
Defined.

(** ** The hook on [Module._resolveFilename] *)

Section HookFacts.
Variable existsSync : string -> bool.
Variable cwd : string.
Variable oldResolveFilename :
  jsval -> option string -> jsval -> jsval -> result jsval string.

Lemma resolveFilename_answers now request parentModule isMain options st v :
  outcome (resolveAlias existsSync cwd now request parentModule) st = Ok v ->
  answers_as
    (outcome (resolveFilename existsSync cwd oldResolveFilename now request parentModule
                isMain options) st)
    (oldResolveFilename v parentModule isMain options).
Proof.
  unfold outcome, resolveFilename, try_catch, bind.
  destruct (resolveAlias existsSync cwd now request parentModule st) as [r st1].
  cbn [fst]. intros ->. unfold lift.
  destruct (oldResolveFilename v parentModule isMain options) as [file|e]; split.
  - now intros f [= <-].
  - discriminate.
  - discriminate.
  - intros e' [= <-] [k [m ->]].
    cbn [Js.get_prop String.eqb Ascii.eqb Bool.eqb]. rewrite log_error. reflexivity.
Qed.

Lemma resolveFilename_rethrows now request parentModule isMain options st e :
  outcome (resolveAlias existsSync cwd now request parentModule) st = Throw e ->
  is_error e ->
  outcome (resolveFilename existsSync cwd oldResolveFilename now request parentModule
             isMain options) st = Throw e.
Proof.
  unfold outcome, resolveFilename, try_catch, bind.
  destruct (resolveAlias existsSync cwd now request parentModule st) as [r st1].
  cbn [fst]. intros -> [k [m ->]]. unfold lift.
  cbn [Js.get_prop String.eqb Ascii.eqb Bool.eqb]. rewrite log_error. reflexivity.
Qed.

End HookFacts.

(** X16: what the replacement of [Module._resolveFilename] asks of the
    original loader when the resolution is computed. A request that no
    registered alias matches is handed over unchanged, so the hook answers
    as the loader did without it; a request whose longest matching alias
    has a string target is handed over as [join(target, rest)]; and an
    [Error] thrown by the resolution itself, such as the one of a failed
    handler, is thrown on by the hook without the loader's help. *)
Theorem hook_hands_resolved_request_to_loader existsSync cwd oldResolveFilename now
  request parentModule isMain options st :
  let hooked :=
    outcome (resolveFilename existsSync cwd oldResolveFilename now request parentModule
               isMain options) st in
  (fresh_for now request parentModule st ->
   (forall a, In a (moduleAliasNames st) -> matches request a = false) ->
   answers_as hooked (oldResolveFilename (JStr request) parentModule isMain options)) /\
  (forall alias target,
     fresh_for now request parentModule st ->
     longest_match st request alias ->
     Js.obj_get alias (moduleAliases st) = Some (JStr target) ->
     answers_as hooked
       (oldResolveFilename
          (JStr (join_strings target (Js.substr (String.length alias) request)))
          parentModule isMain options)) /\
  (forall e,
     outcome (resolveAlias existsSync cwd now request parentModule) st = Throw e ->
     is_error e -> hooked = Throw e).
Proof.
  intros hooked. split; [|split].
  - intros F N. apply resolveFilename_answers.
    now apply resolveAlias_passthrough.
  - intros alias target F L T. apply resolveFilename_answers. unfold outcome.
    destruct (resolveAlias_longest existsSync cwd now request parentModule alias st F L)
      as [st' [A E]].
    rewrite E. apply resolve_with_target. now rewrite A.
  - intros e H1 H2. now apply resolveFilename_rethrows.
Qed.

Lemma hook_hands_resolved_request_to_loader_witness :
  outcome (resolveFilename all_exist work plain_loader 0 "lodash" None JUndefined JUndefined)
    table_ab
  = Ok "/node_modules/lodash"
  /\
  outcome (resolveFilename all_exist work plain_loader 0 "@a/b/c" None JUndefined JUndefined)
    table_ab
  = Ok "/node_modules//y/c".
Proof.
  split.
  - refine (proj1 (proj1 (hook_hands_resolved_request_to_loader all_exist work plain_loader
                             0%Z "lodash" None JUndefined JUndefined table_ab) _ _)
              "/node_modules/lodash" eq_refl).
    + now apply fresh_for_empty.
    + intros a [<-|[<-|[]]]; reflexivity.
  - refine (proj1 (proj1 (proj2 (hook_hands_resolved_request_to_loader all_exist work
                                   plain_loader 0%Z "@a/b/c" None JUndefined JUndefined
                                   table_ab)) "@a/b" "/y" _ _ _)
              "/node_modules//y/c" eq_refl).
    + now apply fresh_for_empty.
    + split; [right; now left|]. split; [reflexivity|].
      intros a [<-|[<-|[]]] _; simpl; lia.
    + reflexivity.
Defined.

(** ** The debug switch *)

(** X17: [setDebugMode] sets the flag first and logs afterwards, so the
    line ['Debug mode disabled'] is never emitted: switching debugging off
    is silent, switching it on emits ['Debug mode enabled'], also when it
    was on already. Table, search paths, cache and counters are left
    alone. *)
Theorem setDebugMode_logs_only_when_enabling enabled st :
  let st' := exec (setDebugMode enabled) st in
  outcome (setDebugMode enabled) st = Ok tt /\
  debugMode st' = enabled /\
  emitted st'
  = (if enabled then emitted st ++ [Log "info" "Debug mode enabled" []] else emitted st) /\
  table_same st st' /\
  modulePaths st' = modulePaths st /\
  performanceCache st' = performanceCache st /\
  stats st' = stats st.
Proof.
  intros st'. unfold st', outcome, exec, setDebugMode.
  rewrite bind_modify. unfold log, modify.
  destruct enabled; cbn; repeat split; reflexivity.
Qed.

(** ** A reload that goes through *)

Lemma join_strings_normalized a b :
  NodePath.normalize_string (join_strings a b) = join_strings a b.
Proof.
  unfold join_strings.
  destruct (NodePath.join_args [JStr a; JStr b] None) as [[j|]|e]; try reflexivity.
  apply normalize_string_idempotent.
Qed.

Lemma starts_with_slash_char_at s :
  Js.is_str (Js.char_at s 0) "/" = NodePath.starts_with_slash s.
Proof.
  destruct s as [|c s]; [reflexivity|]. unfold Js.char_at. cbn.
  destruct (Ascii.eqb_spec c NodePath.slash) as [->|n]; [reflexivity|].
  destruct (Ascii.eqb_spec c "/") as [->|n']; [contradiction|reflexivity].
Qed.

Lemma obj_get_set_proto {A} k (v : A) props :
  Js.obj_get "__proto__" (Js.obj_set k v props) = Js.obj_get "__proto__" props.
Proof.
  destruct (String.eqb_spec k "__proto__") as [->|n].
  - reflexivity.
  - apply obj_get_set_other. congruence.
Qed.

Lemma obj_get_own_key {A} k (props : list (string * A)) :
  In k (Js.own_keys props) -> exists v, Js.obj_get k props = Some v /\ In (k, v) props.
Proof.
  intros H. apply In_own_keys in H.
  destruct (Js.obj_get k props) as [v|] eqn:G.
  - exists v. split; [reflexivity | now apply obj_get_In].
  - apply obj_get_none in G. contradiction.
Qed.

(** One entry with a string target: the target is taken as it is when it
    begins with [/] and joined to the directory of the file otherwise. *)
Lemma reload_entry_string {refused} base props k s st :
  Js.obj_get k props = Some (JStr s) -> k <> "" ->
  assignable refused st k ->
  exists raw,
    normalized (JStr raw) = JStr (reloaded_target base s) /\
    valid_target (JStr raw) = true /\
    reload_entry refused base (JObj props) k st = (Ok tt, registered k (JStr raw) st).
Proof.
  intros G Hk Hr.
  assert (A : valid_alias (JStr k) = true) by (apply valid_alias_name; eauto).
  unfold reload_entry. unfold bind at 1. unfold lift at 1.
  replace (Js.get_prop (JObj props) k) with (Ok (JStr s) : result jsval jsval)
    by (cbn [Js.get_prop]; now rewrite G).
  cbv beta iota. unfold bind at 1. unfold lift at 1.
  replace (Js.get_prop (JStr s) "0") with (Ok (Js.char_at s 0) : result jsval jsval)
    by reflexivity.
  cbv beta iota. rewrite starts_with_slash_char_at. unfold reloaded_target.
  destruct (NodePath.starts_with_slash s) eqn:S; cbn [negb].
  - exists s. split; [reflexivity|].
    assert (V : valid_target (JStr s) = true).
    { apply valid_target_shape. left. exists s. split; [reflexivity|].
      intros ->. discriminate. }
    split; [exact V|]. rewrite bind_ret. now apply addAlias_valid.
  - exists (join_strings base s). split; [cbn; now rewrite join_strings_normalized|].
    assert (V : valid_target (JStr (join_strings base s)) = true).
    { apply valid_target_shape. left. exists (join_strings base s). split; [reflexivity|].
      rewrite <- join_strings_normalized. apply normalize_string_not_empty. }
    split; [exact V|].
    rewrite join_two_strings. unfold bind at 2. unfold lift at 1. rewrite !bind_ret.
    now apply addAlias_valid.
Qed.

Lemma for_each_reload {refused} base props ks : forall st,
  (forall k, In k ks -> k <> "" /\ exists s, Js.obj_get k props = Some (JStr s)) ->
  aliasesProto st = None ->
  exists st',
    for_each ks (reload_entry refused base (JObj props)) st = (Ok tt, st') /\
    (forall k s, In k ks -> k <> "__proto__" -> Js.obj_get k props = Some (JStr s) ->
       Js.obj_get k (moduleAliases st') = Some (JStr (reloaded_target base s))) /\
    (forall k, ~ In k ks \/ k = "__proto__" ->
       Js.obj_get k (moduleAliases st') = Js.obj_get k (moduleAliases st)) /\
    (performanceCache st = [] -> performanceCache st' = []) /\
    (table_wf st -> table_wf st').
Proof.
  induction ks as [|k0 ks IH]; intros st H P.
  - exists st. split; [reflexivity|]. split; [intros k s []|].
    split; [intros; reflexivity|]. split; auto.
  - destruct (H k0 (or_introl eq_refl)) as [Hk0 [s0 G0]].
    destruct (@reload_entry_string refused base props k0 s0 st G0 Hk0
                (assignable_plain refused st k0 P)) as [raw [Nraw [V E]]].
    destruct (IH (registered k0 (JStr raw) st)) as [st' [F [L1 [L2 [C W]]]]].
    { intros k Hk. apply H. now right. }
    { rewrite registered_proto, P. unfold proto_after.
      now destruct (k0 =? "__proto__"). }
    destruct (registered_table k0 (JStr raw) st) as [T [_ C1]].
    rewrite Nraw in T.
    exists st'. split; [|split; [|split; [|split]]].
    + cbn [for_each]. unfold bind at 1. now rewrite E.
    + intros k s Hin Hp G. destruct (in_dec string_dec k ks) as [I|I].
      * now apply L1.
      * destruct Hin as [->|Hin]; [|contradiction].
        rewrite L2 by now left. rewrite T.
        assert (s = s0) as -> by congruence. now apply obj_get_set_same.
    + intros k Hk. rewrite L2.
      * rewrite T. destruct Hk as [Hk | ->]; [|apply obj_get_set_proto].
        apply obj_get_set_other. intros ->. apply Hk. now left.
      * destruct Hk as [Hk | ->]; [left | now right].
        intros Hin. apply Hk. now right.
    + intros _. now apply C.
    + intros Wst. apply W. apply registered_wf; [apply valid_alias_name; eauto|exact V|exact Wst].
Qed.

(** X18: once the package file has been read, a reload of a file whose
    [_moduleAliases] object has only non-empty names and string targets
    goes through. Afterwards the alias
    names are exactly the declared names (but [__proto__], which is never
    registered), whatever the table held before; every declared name has as
    target the declared string, normalized, when it begins with [/], and
    the declared string joined to the directory of the package file
    otherwise, an empty string giving that directory itself; the cache is
    empty; and [aliasesReloaded] is emitted with the new table. *)
Theorem reload_registers_declared_aliases existsSync cwd refused oldResolveFilename
  moduleFilename now path load pkg props st s1 :
  read_package existsSync cwd oldResolveFilename moduleFilename now path load st
  = (Ok pkg, s1) ->
  Js.get_prop pkg "_moduleAliases" = Ok (JObj props) ->
  (forall k v, In (k, v) props -> k <> "" /\ exists s, v = JStr s) ->
  let st' := exec (reloadAliases existsSync cwd refused oldResolveFilename
                     moduleFilename now path load) st in
  let base := NodePath.dirname path in
  (forall k, In k (moduleAliasNames st') <-> In k (map fst props) /\ k <> "__proto__") /\
  (forall k s, Js.obj_get k props = Some (JStr s) -> k <> "__proto__" ->
     has_alias st' k (JStr (reloaded_target base s))) /\
  performanceCache st' = [] /\
  In (AliasesReloaded (moduleAliases st')) (emitted st').
Proof.
  intros R G P st' base.
  assert (K : forall k, In k (Js.own_keys props) ->
                k <> "" /\ exists s, Js.obj_get k props = Some (JStr s)).
  { intros k Hk. destruct (obj_get_own_key k props Hk) as [v [Gv Iv]].
    destruct (P _ _ Iv) as [Hk' [s ->]]. eauto. }
  destruct (@for_each_reload refused base props (Js.own_keys props) (cleared s1) K
              eq_refl)
    as [s2 [F [L1 [L2 [C W]]]]].
  specialize (C eq_refl). specialize (W (cleared_wf s1)).
  assert (E : st' = exec (log "info" "Aliases reloaded successfully"
                            [("count", JNum (Z.of_nat (List.length (moduleAliasNames s2))))])
                      (push_event (AliasesReloaded (moduleAliases s2)) s2)).
  { unfold st', exec.
    rewrite (reloadAliases_read existsSync cwd refused oldResolveFilename
               moduleFilename now path load st pkg s1 R).
    unfold register_package, try_catch.
    rewrite G, bind_lift_Ok. cbn [Js.truthy Js.for_in_keys]. fold base.
    unfold bind at 1. rewrite F. cbv beta iota.
    unfold emit. rewrite bind_gets, bind_modify, bind_gets.
    unfold log, modify. reflexivity. }
  assert (S : moduleAliases st' = moduleAliases s2 /\
              moduleAliasNames st' = moduleAliasNames s2 /\
              performanceCache st' = performanceCache s2 /\
              In (AliasesReloaded (moduleAliases s2)) (emitted st')).
  { rewrite E. unfold exec, log, modify. cbn [snd].
    destruct (negb _ && _); cbn; repeat split;
      rewrite ?in_app_iff; simpl; tauto. }
  destruct S as [S1 [S2 [S3 S4]]]. destruct W as [Sync _].
  assert (Names : forall k, In k (moduleAliasNames st') <->
                            In k (map fst props) /\ k <> "__proto__").
  { intros k. rewrite S2, Sync, In_own_keys. split.
    - intros H.
      destruct (in_dec string_dec k (Js.own_keys props)) as [I|I];
        [destruct (string_dec k "__proto__") as [Q|Q]|].
      + exfalso. assert (N : Js.obj_get k (moduleAliases s2) = None).
        { rewrite L2 by now right. reflexivity. }
        apply obj_get_none in N. contradiction.
      + split; [now apply In_own_keys | exact Q].
      + exfalso. assert (N : Js.obj_get k (moduleAliases s2) = None).
        { rewrite L2 by now left. reflexivity. }
        apply obj_get_none in N. contradiction.
    - intros [H Q]. apply In_own_keys in H. destruct (K k H) as [_ [s Gs]].
      apply (in_map fst _ (k, JStr (reloaded_target base s))).
      apply obj_get_In. now apply L1. }
  split; [exact Names|]. split; [|split].
  - intros k s Gk Q.
    assert (I : In k (map fst props)).
    { apply (in_map fst _ (k, JStr s)). now apply obj_get_In. }
    split; [apply Names; now split|].
    rewrite S1. apply L1; [now apply In_own_keys | exact Q | exact Gk].
  - now rewrite S3.
  - now rewrite S1.
Qed.

Lemma reload_registers_declared_aliases_witness :
  let st' := exec (reloadAliases all_exist work function_refusals plain_loader
                     own_module 0 "/app/package.json"
                     (fun _ => Ok sample_package)) table_ab in
  has_alias st' "@lib" (JStr "/app/src/lib") /\
  has_alias st' "@etc" (JStr "/etc/app") /\
  ~ In "@a" (moduleAliasNames st').
Proof.
  intros st'.
  destruct (reload_registers_declared_aliases all_exist work function_refusals
              plain_loader own_module 0%Z "/app/package.json"
              (fun _ => Ok sample_package) sample_package
              [("@lib", JStr "src/lib"); ("@etc", JStr "/etc//app")] table_ab
              (exec (read_package all_exist work plain_loader own_module 0
                       "/app/package.json" (fun _ => Ok sample_package)) table_ab))
    as [N [H _]].
  - reflexivity.
  - reflexivity.
  - intros k v [[= <- <-]|[[= <- <-]|[]]]; (split; [discriminate | eexists; reflexivity]).
  - split; [|split].
    + apply (H "@lib" "src/lib"); [reflexivity | discriminate].
    + apply (H "@etc" "/etc//app"); [reflexivity | discriminate].
    + intros I. apply N in I. destruct I as [[I|[I|[]]] _]; discriminate.
Defined.

(** ** The exported matcher and its cache *)

(** X19: [isPathMatchesAlias] on a store within its bound that holds no
    live entry under the key of the pair: the answer is the computed match
    and no counter moves; the answer is stored, a negative one too, so that
    the same question within the next 5000 ms is answered from the cache
    with the same value and counts as one cache hit. *)
Theorem isPathMatchesAlias_answer_is_cached now path alias st :
  cache_bounded st ->
  (forall e, JsMap.get (match_key path alias) (performanceCache st) = Some e ->
             ~ live now e) ->
  let st1 := exec (isPathMatchesAlias now path alias) st in
  outcome (isPathMatchesAlias now path alias) st = Ok (JBool (matches path alias)) /\
  stats st1 = stats st /\
  (forall now', (now' - now < 5000)%Z ->
     isPathMatchesAlias now' path alias st1
     = (Ok (JBool (matches path alias)), bump_cacheHits st1)).
Proof.
  intros B F st1.
  assert (E : isPathMatchesAlias now path alias st
              = (Ok (JBool (matches path alias)),
                 set_performanceCache
                   (cache_put now (match_key path alias) (JBool (matches path alias))
                      (performanceCache st)) st)).
  { unfold isPathMatchesAlias, bind. now rewrite (getCachedResolution_miss _ _ _ F). }
  unfold st1, outcome, exec. rewrite E. cbn [fst snd].
  split; [reflexivity|]. split; [reflexivity|].
  intros now' L. unfold isPathMatchesAlias, bind.
  rewrite (getCachedResolution_hit now' (match_key path alias) _
             (JBool (matches path alias)) now).
  - reflexivity.
  - cbn [performanceCache set_performanceCache]. now apply get_cache_put.
  - exact L.
Qed.

Lemma isPathMatchesAlias_answer_is_cached_witness :
  let st1 := exec (isPathMatchesAlias 0 "@a/bc" "@a/b") start in
  outcome (isPathMatchesAlias 0 "@a/bc" "@a/b") start = Ok (JBool false) /\
  isPathMatchesAlias 4999 "@a/bc" "@a/b" st1 = (Ok (JBool false), bump_cacheHits st1).
Proof.
  intros st1.
  destruct (isPathMatchesAlias_answer_is_cached 0%Z "@a/bc" "@a/b" start) as [H1 [_ H2]].
  - unfold cache_bounded. simpl. lia.
  - intros e H. discriminate.
  - split; [exact H1 | apply H2; lia].
Defined.

(** ** The file system is asked for the warning only *)

Lemma same_but_trace_refl st : same_but_trace st st.
Proof. unfold same_but_trace. tauto. Qed.

Lemma alike_ret {A} (a : A) : alike (ret a) (ret a).
Proof. intros s1 s2 H. now split. Qed.

Lemma alike_throw {A} (e : jsval) : alike (@throw A e) (throw e).
Proof. intros s1 s2 H. now split. Qed.

Lemma alike_lift {A} (r : result jsval A) : alike (lift r) (lift r).
Proof. intros s1 s2 H. now split. Qed.

Lemma alike_bind {A B} (m1 m2 : M A) (k1 k2 : A -> M B) :
  alike m1 m2 -> (forall a, alike (k1 a) (k2 a)) -> alike (bind m1 k1) (bind m2 k2).
Proof.
  intros Hm Hk s1 s2 H. unfold bind. destruct (Hm s1 s2 H) as [E T].
  destruct (m1 s1) as [[a1|e1] t1], (m2 s2) as [[a2|e2] t2]; cbn [fst snd] in *;
    try discriminate.
  - injection E as <-. now apply Hk.
  - injection E as <-. now split.
Qed.

Lemma alike_try_catch {A} (m1 m2 : M A) (h1 h2 : jsval -> M A) :
  alike m1 m2 -> (forall e, alike (h1 e) (h2 e)) ->
  alike (try_catch m1 h1) (try_catch m2 h2).
Proof.
  intros Hm Hh s1 s2 H. unfold try_catch. destruct (Hm s1 s2 H) as [E T].
  destruct (m1 s1) as [[a1|e1] t1], (m2 s2) as [[a2|e2] t2]; cbn [fst snd] in *;
    try discriminate.
  - now split.
  - injection E as <-. now apply Hh.
Qed.

Lemma alike_if {A} (b : bool) (m1 m2 n1 n2 : M A) :
  alike m1 m2 -> alike n1 n2 ->
  alike (if b then m1 else n1) (if b then m2 else n2).
Proof. now destruct b. Qed.

Lemma alike_modify (f : state -> state) :
  (forall s1 s2, same_but_trace s1 s2 -> same_but_trace (f s1) (f s2)) ->
  alike (modify f) (modify f).
Proof. intros Hf s1 s2 H. split; [reflexivity | now apply Hf]. Qed.

Lemma alike_gets {A} (f : state -> A) :
  (forall s1 s2, same_but_trace s1 s2 -> f s1 = f s2) -> alike (gets f) (gets f).
Proof. intros Hf s1 s2 H. split; [cbn; f_equal; now apply Hf | exact H]. Qed.

(** Whether a line is logged or not makes no difference. *)
Lemma alike_when_log b1 b2 level message data :
  alike (when b1 (log level message data)) (when b2 (log level message data)).
Proof.
  intros s1 s2 H. split; [now destruct b1, b2|].
  unfold same_but_trace in *.
  destruct b1, b2; unfold when, log, modify, ret; cbn [snd];
    repeat match goal with |- context [if ?c then _ else _] => destruct c end;
    cbn; tauto.
Qed.

Lemma alike_log level message data : alike (log level message data) (log level message data).
Proof. apply (alike_when_log true true). Qed.

Lemma alike_getCachedResolution now key :
  alike (getCachedResolution now key) (getCachedResolution now key).
Proof.
  intros s1 s2 H. unfold getCachedResolution.
  destruct H as [H1 [H2 [Hp [H3 [H4 [H5 [H6 [H7 [H8 H9]]]]]]]]]. rewrite H4.
  destruct (JsMap.get key (performanceCache s1)) as [c|];
    [destruct (now - timestamp c <? 5000)%Z|];
    (split; [reflexivity|]); unfold same_but_trace; cbn; rewrite ?H7; tauto.
Qed.

Lemma alike_setCachedResolution now key v :
  alike (setCachedResolution now key v) (setCachedResolution now key v).
Proof.
  apply alike_modify. intros s1 s2 H.
  destruct H as [H1 [H2 [Hp [H3 [H4 [H5 [H6 [H7 [H8 H9]]]]]]]]].
  unfold same_but_trace. cbn. rewrite H4. tauto.
Qed.

Lemma alike_bump (f : stats_t -> stats_t) :
  alike (modify (fun st => set_stats (f (stats st)) st))
        (modify (fun st => set_stats (f (stats st)) st)).
Proof.
  apply alike_modify. intros s1 s2 H.
  destruct H as [H1 [H2 [Hp [H3 [H4 [H5 [H6 [H7 [H8 H9]]]]]]]]].
  unfold same_but_trace. cbn. rewrite H7. tauto.
Qed.

Ltac alike_step :=
  lazymatch goal with
  | |- alike (ret _) _ => apply alike_ret
  | |- alike (throw _) _ => apply alike_throw
  | |- alike (lift _) _ => apply alike_lift
  | |- alike (bind _ _) _ => apply alike_bind
  | |- alike (try_catch _ _) _ => apply alike_try_catch
  | |- alike (when _ (log _ _ _)) _ => apply alike_when_log
  | |- alike (log _ _ _) _ => apply alike_log
  | |- alike (getCachedResolution _ _) _ => apply alike_getCachedResolution
  | |- alike (setCachedResolution _ _ _) _ => apply alike_setCachedResolution
  | |- alike (if _ then _ else _) _ => apply alike_if
  | |- forall _, _ => intro
  end.

Lemma alike_isPathMatchesAlias now path alias :
  alike (isPathMatchesAlias now path alias) (isPathMatchesAlias now path alias).
Proof. unfold isPathMatchesAlias. repeat alike_step. Qed.

Lemma alike_call_handler cwd f request parentModule alias :
  alike (call_handler cwd f request parentModule alias)
        (call_handler cwd f request parentModule alias).
Proof. unfold call_handler. repeat alike_step. Qed.

Lemma alike_resolve_with ex1 ex2 cwd request parentModule alias :
  alike (resolve_with ex1 cwd request parentModule alias)
        (resolve_with ex2 cwd request parentModule alias).
Proof.
  unfold resolve_with. apply alike_bind; [apply (alike_bump (fun s =>
    {| resolutions := resolutions s; cacheHits := cacheHits s;
       aliasMatches := aliasMatches s + 1 |}))|intros _].
  apply alike_bind; [apply alike_gets; intros s1 s2 H; symmetry; apply H|intros aliases].
  apply alike_bind.
  { destruct (Js.obj_get alias aliases) as [[]|]; try apply alike_ret.
    apply alike_call_handler. }
  intros target. repeat alike_step.
Qed.

Lemma alike_resolve_loop ex1 ex2 cwd now request parentModule l :
  alike (resolve_loop ex1 cwd now request parentModule l)
        (resolve_loop ex2 cwd now request parentModule l).
Proof.
  induction l as [|a l IH]; cbn [resolve_loop]; [apply alike_ret|].
  apply alike_bind; [apply alike_isPathMatchesAlias|intros m].
  apply alike_if; [apply alike_resolve_with | exact IH].
Qed.

Lemma alike_resolveAlias ex1 ex2 cwd now request parentModule :
  alike (resolveAlias ex1 cwd now request parentModule)
        (resolveAlias ex2 cwd now request parentModule).
Proof.
  unfold resolveAlias. apply alike_bind; [apply (alike_bump (fun s =>
    {| resolutions := resolutions s + 1; cacheHits := cacheHits s;
       aliasMatches := aliasMatches s |}))|intros _].
  apply alike_bind; [apply alike_getCachedResolution|intros cached].
  apply alike_if; [apply alike_ret|].
  apply alike_bind; [apply alike_gets; intros s1 s2 H; symmetry; apply H|intros names].
  apply alike_bind; [apply alike_resolve_loop|intros r].
  repeat alike_step.
Qed.

(** X20: the file system decides nothing in a resolution. Whatever
    [fs.existsSync] answers, [resolveAlias] has the same outcome and leaves
    the same table, cache, counters and search paths: a target that does
    not exist is resolved like one that does, and only the warning in the
    trace tells them apart. *)
Theorem resolution_ignores_the_file_system ex1 ex2 cwd now request parentModule st :
  outcome (resolveAlias ex1 cwd now request parentModule) st
  = outcome (resolveAlias ex2 cwd now request parentModule) st /\
  same_but_trace (exec (resolveAlias ex1 cwd now request parentModule) st)
                 (exec (resolveAlias ex2 cwd now request parentModule) st).
Proof.
  apply alike_resolveAlias. apply same_but_trace_refl.
Qed.

(** ** [addAliases] on a valid object *)

Lemma register_keys_sync props ks : forall st,
  ks <> [] -> names_sync (register_keys props ks st) /\
              performanceCache (register_keys props ks st) = [].
Proof.
  induction ks as [|k ks IH]; intros st H; [contradiction|].
  destruct ks as [|k' ks'].
  - cbn. destruct (registered_table k (target_of props k) st) as [_ [N C]]. now split.
  - apply (IH (registered k (target_of props k) st)). discriminate.
Qed.

Lemma register_keys_lookup props ks : forall st,
  (forall k, In k ks -> k <> "__proto__" ->
     Js.obj_get k (moduleAliases (register_keys props ks st))
     = Some (normalized (target_of props k))) /\
  (forall k, ~ In k ks \/ k = "__proto__" ->
     Js.obj_get k (moduleAliases (register_keys props ks st))
     = Js.obj_get k (moduleAliases st)).
Proof.
  induction ks as [|k0 ks IH]; intros st.
  - split; [intros k []|reflexivity].
  - destruct (IH (registered k0 (target_of props k0) st)) as [L1 L2].
    destruct (registered_table k0 (target_of props k0) st) as [T _].
    change (register_keys props (k0 :: ks) st)
      with (register_keys props ks (registered k0 (target_of props k0) st)).
    split.
    + intros k Hin Hp. destruct (in_dec string_dec k ks) as [I|I]; [now apply L1|].
      destruct Hin as [->|Hin]; [|contradiction].
      rewrite L2 by now left. rewrite T. now apply obj_get_set_same.
    + intros k Hk. rewrite L2.
      * rewrite T. destruct Hk as [Hk | ->]; [|apply obj_get_set_proto].
        apply obj_get_set_other. intros ->. apply Hk. now left.
      * destruct Hk as [Hk | ->]; [left | now right].
        intros Hin. apply Hk. now right.
Qed.

(** X21: [addAliases] on an object all of whose entries are valid. When the
    table refuses none of the assignments made one after the other, the
    call returns normally; afterwards every key of the object other than
    [__proto__] is registered with its target (normalized when it is a
    string), names that are not keys of the object keep the targets they
    had, and, unless the object has no key at all, the cache is empty. No
    assignment is refused when the table has the prototype it was created
    with and the object holds no function under an own key [__proto__]. *)
Theorem addAliases_registers_all refused props st :
  (forall k, In k (Js.own_keys props) -> valid_entry props k = true) ->
  (unrefused refused props (Js.own_keys props) st ->
   let st' := exec (addAliases refused (JObj props)) st in
   outcome (addAliases refused (JObj props)) st = Ok tt /\
   (forall k v, Js.obj_get k props = Some v -> k <> "__proto__" ->
      has_alias st' k (normalized v)) /\
   (forall k, ~ In k (map fst props) ->
      Js.obj_get k (moduleAliases st') = Js.obj_get k (moduleAliases st)) /\
   (props <> [] -> performanceCache st' = [])) /\
  (aliasesProto st = None ->
   (forall k, In k (Js.own_keys props) -> keeps_prototype props k) ->
   unrefused refused props (Js.own_keys props) st).
Proof.
  intros V. split; [|apply unrefused_plain]. intros U st'.
  assert (E : addAliases refused (JObj props) st
              = (Ok tt, register_keys props (Js.own_keys props) st)).
  { unfold addAliases. cbn [Js.truthy Js.is_object Js.typeof negb orb Js.for_in_keys].
    now apply for_each_register. }
  unfold st', outcome, exec. rewrite E. cbn [fst snd].
  destruct (register_keys_lookup props (Js.own_keys props) st) as [L1 L2].
  split; [reflexivity|]. split; [|split].
  - intros k v G Hp.
    assert (I : In k (Js.own_keys props)).
    { apply In_own_keys. apply (in_map fst _ (k, v)). now apply obj_get_In. }
    assert (Gk : Js.obj_get k (moduleAliases (register_keys props (Js.own_keys props) st))
                 = Some (normalized v)).
    { rewrite (L1 k I Hp). unfold target_of. now rewrite G. }
    split; [|exact Gk].
    destruct (register_keys_sync props (Js.own_keys props) st) as [S _].
    { intros N. rewrite N in I. destruct I. }
    rewrite S. apply In_own_keys. apply (in_map fst _ (k, normalized v)).
    now apply obj_get_In.
  - intros k Hk. apply L2. left. intros I. apply In_own_keys in I. contradiction.
  - intros N. apply register_keys_sync. intros K.
    destruct props as [|[k v] props]; [contradiction|].
    assert (I : In k (Js.own_keys ((k, v) :: props))) by (apply In_own_keys; now left).
    rewrite K in I. destruct I.
Qed.

Lemma addAliases_registers_all_witness :
  let st' := exec (addAliases function_refusals
                     (JObj [("@b", JStr "/srv//b/"); ("7", JStr "seven")])) table_ab in
  has_alias st' "@b" (JStr "/srv/b/") /\
  has_alias st' "7" (JStr "seven") /\
  Js.obj_get "@a" (moduleAliases st') = Js.obj_get "@a" (moduleAliases table_ab).
Proof.
  intros st'.
  destruct (addAliases_registers_all function_refusals
              [("@b", JStr "/srv//b/"); ("7", JStr "seven")] table_ab)
    as [R P].
  - intros k [<-|[<-|[]]]; reflexivity.
  - destruct R as [_ [H [K _]]].
    + apply P; [reflexivity|]. intros k [<-|[<-|[]]] E; discriminate E.
    + split; [|split].
      * apply (H "@b" (JStr "/srv//b/")); [reflexivity | discriminate].
      * apply (H "7" (JStr "seven")); [reflexivity | discriminate].
      * apply K. intros [I|[I|[]]]; discriminate.
Defined.

(** ** What [reset] leaves *)

Lemma fold_remove_debugMode paths : forall st,
  debugMode
    (fold_left (fun s path =>
                  set_hostPaths (removePathHelper path (mainPaths s))
                    (map (removePathHelper path) (parentPaths s)) s) paths st)
  = debugMode st.
Proof.
  induction paths as [|path paths IH]; intros st; [reflexivity|].
  cbn [fold_left]. now rewrite IH.
Qed.

(** X22: after [reset] the manager is the one the constructor builds, but
    for three things that are kept: the debug flag, the host's arrays as
    the removal of the search paths left them, and the trace, to which the
    [reset] event is added. No search path, alias, name, cache entry or
    watcher is left and the counters are zero. *)
Theorem reset_gives_fresh_manager st :
  let st' := exec reset st in
  outcome reset st = Ok tt /\
  same_but_trace (initial (debugMode st) (mainPaths st') (parentPaths st')) st' /\
  In ResetDone (emitted st').
Proof.
  intros st'. unfold st', outcome, exec, reset, emit.
  rewrite bind_log, bind_gets, bind_for_each_modify, !bind_modify.
  set (st0 := snd (log "debug" "Resetting module alias manager" [] st)).
  assert (D0 : debugMode st0 = debugMode st).
  { unfold st0, log, modify. cbn [snd]. now destruct (negb (debugMode st) && _). }
  pose proof (fold_remove_debugMode (modulePaths st0) st0) as D1.
  rewrite D0 in D1. revert D1.
  match goal with |- context [fold_left ?f ?l ?s] => generalize (fold_left f l s) end.
  intros st1 D1. unfold log, modify. cbn [fst snd].
  unfold same_but_trace.
  match goal with |- context [if ?b then _ else _] => destruct b end;
    cbn; rewrite ?in_app_iff; cbn; rewrite D1; tauto.
Qed.
